(** * Change tracking over JavaScript containers: the map tracking view,
      the identity registry and the undo engine.

    The development embeds three source files:
    - the registry and commit code ([tryGetProxy], [asOriginal], [isProxy],
      [createRecordingProxy], [ensureProxy], [doNotTrack], [proxify],
      [commitPatches]);
    - the map tracking view ([DimmerMap], [getKeyUsedByMap],
      [createMapDelta]);
    - the history engine ([undoPatch], [createReversePatch]).

    JavaScript objects live in a heap of addresses, so that identity
    ([===]) of containers and of their tracking views is identity of
    addresses.  The module-level registries ([objectToProxy],
    [patchToTarget], [objectToCurrentPatch], [modified]) are fields of an
    explicit program state that every operation threads through. *)

From Stdlib Require Import ZArith.
From stdpp Require Import gmap strings list sorting.

Open Scope Z_scope.
Open Scope nat_scope.

(** ** JavaScript values *)

Abbreviation addr := nat.

(** Modelled from the spec: the sentinel [NO_ENTRY] is declared in
    [types.ts], which is not among the sources; it is "a reserved
    sentinel", here a value of its own, different from every other value
    and truthy.  The other constructors are the JavaScript values;
    numbers are modelled by integers (nothing here depends on fractions or
    on NaN), and an object is the address it lives at. *)
Inductive value :=
| VUndefined
| VNull
| VBool (b : bool)
| VNumber (n : Z)
| VString (s : string)
| NO_ENTRY
| VObject (a : addr).

#[global] Instance value_eq_dec : EqDecision value.
Proof. solve_decision. Defined.

(** [ToBoolean]: the falsy values are undefined, null, false, 0 and the
    empty string. *)
Definition truthy (v : value) : bool :=
  match v with
  | VUndefined | VNull => false
  | VBool b => b
  | VNumber n => negb (n =? 0)%Z
  | VString s => negb (String.eqb s EmptyString)
  | NO_ENTRY | VObject _ => true
  end.

(** [a && b] and [a || b] on values (both operands are pure here). *)
Definition JS_and (a b : value) : value := if truthy a then b else a.
Definition JS_or (a b : value) : value := if truthy a then a else b.

(** ** Native containers *)

(** A native [Map]: entries in insertion order, each key held once.  Keys
    are compared by SameValueZero, which on these values is equality. *)
Abbreviation entries := (list (value * value)).

Fixpoint Map_has (es : entries) (k : value) : bool :=
  match es with
  | [] => false
  | (k', _) :: r => if decide (k = k') then true else Map_has r k
  end.

Fixpoint Map_get (es : entries) (k : value) : value :=
  match es with
  | [] => VUndefined
  | (k', v) :: r => if decide (k = k') then v else Map_get r k
  end.

(** [set] overwrites the value of a key in place, or appends a new entry. *)
Fixpoint Map_set (es : entries) (k v : value) : entries :=
  match es with
  | [] => [(k, v)]
  | (k', v') :: r =>
      if decide (k = k') then (k', v) :: r else (k', v') :: Map_set r k v
  end.

Definition Map_delete (es : entries) (k : value) : entries :=
  filter (λ e, e.1 ≠ k) es.

Definition Map_keys (es : entries) : list value := es.*1.

(** A native [Set]: members in insertion order. *)
Definition Set_has (ms : list value) (k : value) : bool :=
  bool_decide (k ∈ ms).

Definition Set_add (ms : list value) (k : value) : list value :=
  if Set_has ms k then ms else ms ++ [k].

Definition Set_delete (ms : list value) (k : value) : list value :=
  filter (λ m, m ≠ k) ms.

(** A plain object: own properties by name; reading a property that the
    object does not have gives undefined. *)
Abbreviation props := (list (string * value)).

Fixpoint prop_get (ps : props) (k : string) : value :=
  match ps with
  | [] => VUndefined
  | (k', v) :: r => if decide (k = k') then v else prop_get r k
  end.

Fixpoint prop_set (ps : props) (k : string) (v : value) : props :=
  match ps with
  | [] => [(k, v)]
  | (k', v') :: r =>
      if decide (k = k') then (k', v) :: r else (k', v') :: prop_set r k v
  end.

(** ** Heap objects and the program state *)

Inductive handler := diagonArrayProxyHandler | objectProxyHandler.

(** A [DimmerMap] extends [Map]: its own (super) storage is the open patch
    of its target, [delta].  Its [ORIGINAL] getter returns the target. *)
Inductive object :=
| Map_ (es : entries)
| Set_ (ms : list value)
| Array_ (xs : list value)
| Object_ (ps : props)
| DimmerMap_ (target : addr) (delta : entries)
| DiagonSet_ (target : addr) (delta : entries)
| Proxy_ (target : addr) (h : handler).

#[global] Instance handler_eq_dec : EqDecision handler.
Proof. solve_decision. Defined.
#[global] Instance object_eq_dec : EqDecision object.
Proof. solve_decision. Defined.

(** The module-level registries.  [patchToTarget] is the registry that the
    file of the map view calls [deltaToTarget].  [proxySlot] is the
    non-enumerable [PROXY] property that the [DimmerMap] constructor
    defines on its target. *)
Record state := State {
  heap : gmap addr object;
  nextAddr : addr;
  objectToProxy : gmap addr addr;
  objectToCurrentPatch : gmap addr addr;
  patchToTarget : gmap addr addr;
  modified : list value;
  proxySlot : gmap addr addr
}.

Definition set_heap (f : gmap addr object → gmap addr object) (s : state) : state :=
  State (f (heap s)) (nextAddr s) (objectToProxy s) (objectToCurrentPatch s)
        (patchToTarget s) (modified s) (proxySlot s).

Definition set_objectToProxy (f : gmap addr addr → gmap addr addr) (s : state) : state :=
  State (heap s) (nextAddr s) (f (objectToProxy s)) (objectToCurrentPatch s)
        (patchToTarget s) (modified s) (proxySlot s).

Definition set_objectToCurrentPatch (f : gmap addr addr → gmap addr addr) (s : state) : state :=
  State (heap s) (nextAddr s) (objectToProxy s) (f (objectToCurrentPatch s))
        (patchToTarget s) (modified s) (proxySlot s).

Definition set_patchToTarget (f : gmap addr addr → gmap addr addr) (s : state) : state :=
  State (heap s) (nextAddr s) (objectToProxy s) (objectToCurrentPatch s)
        (f (patchToTarget s)) (modified s) (proxySlot s).

Definition set_modified (f : list value → list value) (s : state) : state :=
  State (heap s) (nextAddr s) (objectToProxy s) (objectToCurrentPatch s)
        (patchToTarget s) (f (modified s)) (proxySlot s).

Definition set_proxySlot (f : gmap addr addr → gmap addr addr) (s : state) : state :=
  State (heap s) (nextAddr s) (objectToProxy s) (objectToCurrentPatch s)
        (patchToTarget s) (modified s) (f (proxySlot s)).

(** [new C(...)]: the object gets the next free address. *)
Definition alloc (o : object) (s : state) : addr * state :=
  (nextAddr s,
   State (<[nextAddr s := o]> (heap s)) (S (nextAddr s)) (objectToProxy s)
         (objectToCurrentPatch s) (patchToTarget s) (modified s) (proxySlot s)).

Definition empty_state : state := State ∅ 0 ∅ ∅ ∅ [] ∅.

(** ** Exceptions *)

(** [Unmodelled] marks an input on which the source's type assertions
    ([patch as MapPatch], [target: Map<K, V>], ...) do not hold; what
    JavaScript does there is not described. *)
Inductive error :=
| TypeError
| Error (message : string)
| Unmodelled.

(** An operation ends with a value or with an exception, and in both
    cases with the state it has reached. *)
Inductive result (A : Type) :=
| Ok (a : A) (s : state)
| Throw (e : error) (s : state).
Arguments Ok {A} a s.
Arguments Throw {A} e s.

Definition M (A : Type) : Type := state → result A.

Definition ret {A} (a : A) : M A := λ s, Ok a s.
Definition throw {A} (e : error) : M A := λ s, Throw e s.
Definition bind {A B} (m : M A) (k : A → M B) : M B :=
  λ s, match m s with
       | Ok a s' => k a s'
       | Throw e s' => Throw e s'
       end.

(** [try { body } finally { cleanup }]: the cleanup runs on both exits and
    an exception of the body is thrown again after it. *)
Definition try_finally {A} (body : M A) (cleanup : M unit) : M A :=
  λ s, match body s with
       | Ok a s' => match cleanup s' with
                    | Ok _ s'' => Ok a s''
                    | Throw e s'' => Throw e s''
                    end
       | Throw e s' => match cleanup s' with
                       | Ok _ s'' => Throw e s''
                       | Throw e' s'' => Throw e' s''
                       end
       end.

Notation "'let*' x ':=' m 'in' k" := (bind m (λ x, k))
  (at level 10, x pattern, m at level 100, k at level 200).

(** ** The registry (diagon.ts) *)

(** [objectToProxy.get(obj)]: a [WeakMap] has object keys only. *)
Definition tryGetProxy (s : state) (obj : value) : value :=
  match obj with
  | VObject a =>
      match objectToProxy s !! a with
      | Some p => VObject p
      | None => VUndefined
      end
  | _ => VUndefined
  end.

(** Modelled from the spec: the two proxy handlers and the set view are
    not among the sources.  "originalOf(value)" is the container of a
    tracking view, so the [ORIGINAL] property of a view made with a handler,
    and of a set view, is its target, as it is for a [DimmerMap]. *)
Definition handler_ORIGINAL (o : object) : value :=
  match o with
  | DiagonSet_ t _ | Proxy_ t _ => VObject t
  | _ => VUndefined
  end.

(** [obj[ORIGINAL]] for a value that is neither null nor undefined: the
    target of a tracking view (for a [DimmerMap], what its getter
    [ORIGINAL] returns), undefined for anything else. *)
Definition ORIGINAL (s : state) (obj : value) : value :=
  match obj with
  | VObject a =>
      match heap s !! a with
      | Some (DimmerMap_ t _) => VObject t
      | Some o => handler_ORIGINAL o
      | None => VUndefined
      end
  | _ => VUndefined
  end.

(** [!!obj[ORIGINAL]]; reading a property of null or undefined throws. *)
Definition isProxy (obj : value) : M bool := λ s,
  match obj with
  | VUndefined | VNull => Throw TypeError s
  | _ => Ok (truthy (ORIGINAL s obj)) s
  end.

(** [(obj && obj[ORIGINAL]) || obj] *)
Definition asOriginal (s : state) (obj : value) : value :=
  JS_or (JS_and obj (ORIGINAL s obj)) obj.

(** [objectToProxy.set(k, v)]: a [WeakMap] refuses a key that is not an
    object. *)
Definition objectToProxy_set (k : value) (v : addr) : M unit := λ s,
  match k with
  | VObject a => Ok tt (set_objectToProxy <[a := v]> s)
  | _ => Throw TypeError s
  end.

Definition createRecordingProxy (target : value) : M value := λ s,
  match isProxy target s with
  | Throw e s' => Throw e s'
  | Ok true _ => Throw (Error "trying to proxy a proxy") s
  | Ok false _ =>
      match target with
      | VObject a =>
          let '(p, s1) :=
            match heap s !! a with
            | Some (Map_ _) =>
                let '(p, s1) := alloc (DimmerMap_ a []) s in
                (p, set_proxySlot <[a := p]> s1)
            | Some (Set_ _) => alloc (DiagonSet_ a []) s
            | Some (Array_ _) => alloc (Proxy_ a diagonArrayProxyHandler) s
            | _ => alloc (Proxy_ a objectProxyHandler) s
            end in
          Ok (VObject p) (set_objectToProxy (λ m, <[p := p]> (<[a := p]> m)) s1)
      | _ => Throw TypeError s
      end
  end.

(** [tryGetProxy(obj) || createRecordingProxy(obj)] *)
Definition ensureProxy (obj : value) : M value := λ s,
  let p := tryGetProxy s obj in
  if truthy p then Ok p s else createRecordingProxy obj s.

Definition doNotTrack (obj : value) : M value :=
  if truthy obj then
    match obj with
    | VObject a => let* _ := objectToProxy_set obj a in ret obj
    | _ => throw TypeError
    end
  else ret obj.

(** [typeof value !== 'object' || !value] holds of every value that is not
    a (non-null) object. *)
Definition proxify (value' : value) : M value := λ s,
  let p := tryGetProxy s value' in
  if truthy p then Ok p s
  else match value' with
       | VObject _ => createRecordingProxy value' s
       | _ => Ok value' s
       end.

(** ** The map tracking view (DimmerMap)

    The view calls [tryGetProxy], [asOriginal] and [proxify], and writes
    [modified] and the patch-to-target registry, of the registry module;
    the registry module among the sources is the one embedded above. *)

(** [getKeyUsedByMap(map, key, proxyOfKey, originalKey)]; the result
    [undefined] stands for "no entry". *)
Definition getKeyUsedByMap (map : entries) (key proxyOfKey originalKey : value) : value :=
  if truthy (JS_and proxyOfKey (VBool (Map_has map proxyOfKey))) then proxyOfKey
  else if Map_has map originalKey then originalKey
  else VUndefined.

(** The call with the two default arguments, as [undoPatch] makes it. *)
Definition getKeyUsedByMap_default (s : state) (map : entries) (key : value) : value :=
  getKeyUsedByMap map key (tryGetProxy s key) (asOriginal s key).

(** [modified.add(target)] on the module-level [Set]. *)
Definition modified_add (target : value) : state → state :=
  set_modified (λ ms, Set_add ms target).

Module DimmerMap.

(** The receiver [this] is a [DimmerMap] at address [this], over a
    native [Map] target; a [Map] method called on anything else throws a
    [TypeError]. *)
Definition view (s : state) (this : addr) : option (addr * entries * entries) :=
  match heap s !! this with
  | Some (DimmerMap_ t delta) =>
      match heap s !! t with
      | Some (Map_ es) => Some (t, delta, es)
      | _ => None
      end
  | _ => None
  end.

Definition put (this t : addr) (delta es : entries) : state → state :=
  set_heap (λ h, <[t := Map_ es]> (<[this := DimmerMap_ t delta]> h)).

Definition size (this : addr) : M nat := λ s,
  match view s this with
  | Some (_, _, es) => Ok (length es) s
  | None => Throw TypeError s
  end.

Definition has (this : addr) (key : value) : M bool := λ s,
  match view s this with
  | Some (_, _, es) =>
      let proxyOfKey := tryGetProxy s key in
      Ok (truthy (JS_or (JS_and proxyOfKey (VBool (Map_has es proxyOfKey)))
                        (VBool (Map_has es (asOriginal s key))))) s
  | None => Throw TypeError s
  end.

Definition get (this : addr) (key : value) : M value := λ s,
  match view s this with
  | Some (_, _, es) =>
      let proxyOfKey := tryGetProxy s key in
      let value' := JS_or (JS_and proxyOfKey (Map_get es proxyOfKey))
                          (Map_get es (asOriginal s key)) in
      proxify value' s
  | None => Throw TypeError s
  end.

Definition set (this : addr) (key value' : value) : M value := λ s,
  match view s this with
  | Some (t, delta, es) =>
      let proxyOfKey := tryGetProxy s key in
      let originalKey := asOriginal s key in
      let currentKeyUsedByTarget := getKeyUsedByMap es key proxyOfKey originalKey in
      let hasChangeAlreadyBeenRecorded :=
        Map_has delta originalKey || (truthy proxyOfKey && Map_has delta proxyOfKey) in
      let '(delta1, s1) :=
        if negb hasChangeAlreadyBeenRecorded then
          (if truthy currentKeyUsedByTarget
           then Map_set delta currentKeyUsedByTarget (Map_get es currentKeyUsedByTarget)
           else Map_set delta key NO_ENTRY,
           modified_add (VObject t) s)
        else (delta, s) in
      let es1 := Map_set es (JS_or currentKeyUsedByTarget key) value' in
      Ok (VObject this) (put this t delta1 es1 s1)
  | None => Throw TypeError s
  end.

Definition delete (this : addr) (key : value) : M bool := λ s,
  match view s this with
  | Some (t, delta, es) =>
      let proxyOfKey := tryGetProxy s key in
      let originalKey := asOriginal s key in
      let currentKeyUsedByTarget := getKeyUsedByMap es key proxyOfKey originalKey in
      if truthy currentKeyUsedByTarget then
        let hasChangeAlreadyBeenRecorded :=
          Map_has delta originalKey || (truthy proxyOfKey && Map_has delta proxyOfKey) in
        let '(delta1, s1) :=
          if negb hasChangeAlreadyBeenRecorded then
            (Map_set delta currentKeyUsedByTarget (Map_get es currentKeyUsedByTarget),
             modified_add (VObject t) s)
          else (delta, s) in
        Ok (Map_has es currentKeyUsedByTarget)
           (put this t delta1 (Map_delete es currentKeyUsedByTarget) s1)
      else Ok false s
  | None => Throw TypeError s
  end.

(** [clear]: every entry of the target not yet in the open patch is
    snapshotted, in iteration order, then the target is emptied. *)
Definition clear (this : addr) : M unit := λ s,
  match view s this with
  | Some (t, delta, es) =>
      let '(delta1, s1) :=
        fold_left (λ '(d, s') '(key, value'),
                     if negb (Map_has d key)
                     then (Map_set d key value', modified_add (VObject t) s')
                     else (d, s'))
                  es (delta, s) in
      Ok tt (put this t delta1 [] s1)
  | None => Throw TypeError s
  end.

(** [commitDelta]: the open patch is copied into a fresh [Map], that
    copy is associated with the target, and the open patch is emptied. *)
Definition commitDelta (this : addr) : M addr := λ s,
  match heap s !! this with
  | Some (DimmerMap_ t delta) =>
      let '(commitedDelta, s1) := alloc (Map_ delta) s in
      let s2 := set_patchToTarget <[commitedDelta := t]> s1 in
      Ok commitedDelta (set_heap <[this := DimmerMap_ t []]> s2)
  | _ => Throw TypeError s
  end.

End DimmerMap.

(** [createMapDelta(target)] *)
Definition createMapDelta (target : addr) : M addr := λ s,
  let '(delta, s1) := alloc (Map_ []) s in
  Ok delta (set_patchToTarget <[delta := target]> s1).

(** ** The history engine (history.ts) *)

(** [createMapPatch] is [createMapDelta] under its later name. *)
Definition createMapPatch := createMapDelta.

(** Modelled from the spec: [createSetPatch], [createObjectPatch] and
    [createArrayPatch] are not among the sources.  Like [createMapDelta]
    they build a fresh, empty patch "of the same container and kind" and
    record its target: a [Map] for a set and for a plain object, an array
    for an array. *)
Definition createSetPatch := createMapDelta.
Definition createObjectPatch := createMapDelta.
Definition createArrayPatch (target : addr) : M addr := λ s,
  let '(patch, s1) := alloc (Array_ []) s in
  Ok patch (set_patchToTarget <[patch := target]> s1).

(** One iteration of the [Map] loop of [undoPatch], on the entries of the
    target.  The registry and the [ORIGINAL] links that [getKeyUsedByMap]
    reads are those of [s]: the loop writes neither. *)
Definition undo_map_entry (s : state) (target : entries) (e : value * value) : entries :=
  let '(key, value') := e in
  let wasPreviouslyInMap := bool_decide (value' ≠ NO_ENTRY) in
  let targetKey := getKeyUsedByMap_default s target key in
  if wasPreviouslyInMap then
    let target1 :=
      if bool_decide (targetKey ≠ VUndefined) && bool_decide (key ≠ targetKey)
      then Map_delete target targetKey else target in
    Map_set target1 key value'
  else Map_delete target key.

Definition undo_set_entry (target : list value) (e : value * value) : list value :=
  let '(key, wasPreviouslyInSet) := e in
  if truthy wasPreviouslyInSet then Set_add target key else Set_delete target key.

(** [target.length = n]: truncation, or extension by holes, which read as
    undefined. *)
Definition Array_set_length (n : nat) (xs : list value) : list value :=
  take n xs ++ replicate (n - length xs) VUndefined.

(** [target[i] = x] on an array; past the end the array grows. *)
Definition Array_store (xs : list value) (i : nat) (x : value) : list value :=
  if decide (i < length xs) then <[i := x]> xs
  else xs ++ replicate (i - length xs) VUndefined ++ [x].

Definition Array_load (xs : list value) (i : nat) : value :=
  default VUndefined (xs !! i).

Definition undo_array (arrayPatch target : list value) : list value :=
  fold_left (λ t i, Array_store t i (Array_load arrayPatch i))
            (seq 0 (length arrayPatch))
            (Array_set_length (length arrayPatch) target).

(** [target[key] = value] on a plain object, for a property name. *)
Definition undo_object_entry (target : option props) (e : value * value) : option props :=
  match target, e with
  | Some ps, (VString key, value') => Some (prop_set ps key value')
  | _, _ => None
  end.

Definition undoPatch (patch : addr) : M unit := λ s,
  match patchToTarget s !! patch with
  | None => Throw Unmodelled s
  | Some target =>
      match heap s !! target, heap s !! patch with
      | Some (Map_ es), Some (Map_ mapPatch) =>
          Ok tt (set_heap <[target := Map_ (fold_left (undo_map_entry s) mapPatch es)]> s)
      | Some (Set_ ms), Some (Map_ setPatch) =>
          Ok tt (set_heap <[target := Set_ (fold_left undo_set_entry setPatch ms)]> s)
      | Some (Array_ xs), Some (Array_ arrayPatch) =>
          Ok tt (set_heap <[target := Array_ (undo_array arrayPatch xs)]> s)
      | Some (Object_ ps), Some (Map_ objectPatch) =>
          match fold_left undo_object_entry objectPatch (Some ps) with
          | Some ps1 => Ok tt (set_heap <[target := Object_ ps1]> s)
          | None => Throw Unmodelled s
          end
      | _, _ => Throw Unmodelled s
      end
  end.

Definition reverse_map_key (target reversePatch : entries) (key : value) : entries :=
  if negb (Map_has target key) then Map_set reversePatch key NO_ENTRY
  else Map_set reversePatch key (Map_get target key).

Definition reverse_set_key (target : list value) (reversePatch : entries) (key : value) : entries :=
  let wasObjectRemovedInTarget := Set_has target key in
  Map_set reversePatch key (VBool wasObjectRemovedInTarget).

Definition reverse_array (targetArray : list value) : list value :=
  fold_left (λ r i, Array_store r i (Array_load targetArray i))
            (seq 0 (length targetArray))
            (Array_set_length (length targetArray) []).

Definition reverse_object_key (target : props) (reversePatch : option entries) (key : value)
  : option entries :=
  match reversePatch, key with
  | Some r, VString k => Some (Map_set r key (prop_get target k))
  | _, _ => None
  end.

Definition createReversePatch (patch : addr) : M addr := λ s,
  match patchToTarget s !! patch with
  | None => Throw Unmodelled s
  | Some target =>
      match heap s !! target, heap s !! patch with
      | Some (Map_ es), Some (Map_ mapPatch) =>
          match createMapPatch target s with
          | Ok reversePatch s1 =>
              Ok reversePatch
                 (set_heap <[reversePatch :=
                    Map_ (fold_left (reverse_map_key es) (Map_keys mapPatch) [])]> s1)
          | Throw e s1 => Throw e s1
          end
      | Some (Set_ ms), Some (Map_ setPatch) =>
          match createSetPatch target s with
          | Ok reversePatch s1 =>
              Ok reversePatch
                 (set_heap <[reversePatch :=
                    Map_ (fold_left (reverse_set_key ms) (Map_keys setPatch) [])]> s1)
          | Throw e s1 => Throw e s1
          end
      | Some (Array_ xs), Some _ =>
          match createArrayPatch target s with
          | Ok reversePatch s1 =>
              Ok reversePatch (set_heap <[reversePatch := Array_ (reverse_array xs)]> s1)
          | Throw e s1 => Throw e s1
          end
      | Some (Object_ ps), Some (Map_ objectPatch) =>
          match createObjectPatch target s with
          | Ok reversePatch s1 =>
              match fold_left (reverse_object_key ps) (Map_keys objectPatch) (Some []) with
              | Some r => Ok reversePatch (set_heap <[reversePatch := Map_ r]> s1)
              | None => Throw Unmodelled s1
              end
          | Throw e s1 => Throw e s1
          end
      | _, _ => Throw Unmodelled s
      end
  end.

(** ** Committing a scope (diagon.ts) *)

(** Modelled from the spec: [DiagonSet.commitPatch] is not among the
    sources; it detaches the open patch of a set view the way
    [DimmerMap.commitDelta] does for a map view. *)
Definition DiagonSet_commitPatch (this : addr) : M addr := λ s,
  match heap s !! this with
  | Some (DiagonSet_ t delta) =>
      let '(commitedDelta, s1) := alloc (Map_ delta) s in
      let s2 := set_patchToTarget <[commitedDelta := t]> s1 in
      Ok commitedDelta (set_heap <[this := DiagonSet_ t []]> s2)
  | _ => Throw TypeError s
  end.

(** [objectToCurrentPatch.get(target)] followed by
    [objectToCurrentPatch.delete(target)]; the patch is undefined when the
    registry of current patches has none for the target. *)
Definition take_current_patch (target : value) : M value := λ s,
  match target with
  | VObject a =>
      Ok (from_option VObject VUndefined (objectToCurrentPatch s !! a))
         (set_objectToCurrentPatch (base.delete a) s)
  | _ => Ok VUndefined s
  end.

(** The body of the loop of [commitPatches] for one member of [modified];
    [commitPatch] of a map view is [DimmerMap.commitDelta] under its later
    name. *)
Definition commit_one (target : value) : M value := λ s,
  match tryGetProxy s target with
  | VObject targetProxy =>
      match heap s !! targetProxy with
      | Some (DimmerMap_ _ _) =>
          (let* patch := DimmerMap.commitDelta targetProxy in ret (VObject patch)) s
      | Some (DiagonSet_ _ _) =>
          (let* patch := DiagonSet_commitPatch targetProxy in ret (VObject patch)) s
      | _ => take_current_patch target s
      end
  | _ => take_current_patch target s
  end.

Fixpoint commit_loop (targets : list value) (changes : list value) : M (list value) :=
  match targets with
  | [] => ret changes
  | target :: rest =>
      let* patch := commit_one target in
      commit_loop rest (changes ++ [patch])
  end.

Definition commitPatches : M (list value) := λ s,
  commit_loop (modified s) [] s.

(** [modified.clear()] *)
Definition createContext : M unit := λ s, Ok tt (set_modified (λ _, []) s).
Definition clearContext : M unit := λ s, Ok tt (set_modified (λ _, []) s).

(** [recordPatches(mutator, state)]; the mutator is any operation on the
    tracking view of the state, and
    [tryGetProxy(state) || createRecordingProxy(state)] is the body of
    [ensureProxy]. *)
Definition recordPatches (mutator : value → M unit) (state' : value) : M (list value) :=
  try_finally
    (let* _ := createContext in
     let* stateProxy := ensureProxy state' in
     let* _ := mutator stateProxy in
     commitPatches)
    clearContext.

(** ** Well-formed states

    The registry is written by [createRecordingProxy] and [doNotTrack]
    only, and views are created by [createRecordingProxy] only.  Hence, in
    every state the program reaches: a view is registered as its own view;
    an object is registered either to itself or to a view of it, and in the
    latter case it is not itself a view; and every address in use is below
    the allocation pointer. *)

Definition wf_object (s : state) (a : addr) (o : object) : Prop :=
  a < nextAddr s ∧
  (ORIGINAL s (VObject a) ≠ VUndefined → objectToProxy s !! a = Some a).

Definition wf_registered (s : state) (a p : addr) : Prop :=
  a < nextAddr s ∧
  (a = p ∨ (ORIGINAL s (VObject p) = VObject a ∧ ORIGINAL s (VObject a) = VUndefined)).

Definition wf (s : state) : Prop :=
  map_Forall (wf_object s) (heap s) ∧ map_Forall (wf_registered s) (objectToProxy s).

#[global] Instance wf_dec (s : state) : Decision (wf s).
Proof. unfold wf, wf_object, wf_registered. apply _. Defined.

(** A value that refers to an allocated object, or to none. *)
Definition live (s : state) (v : value) : Prop :=
  match v with
  | VObject a => a < nextAddr s
  | _ => True
  end.

(** What a successful [createRecordingProxy(a)] does to the state: one
    new object, a view of [a], at the allocation pointer; two registry
    entries. *)
Record created (s : state) (a : addr) (s1 : state) : Prop := {
  created_next : nextAddr s1 = S (nextAddr s);
  created_view : ORIGINAL s1 (VObject (nextAddr s)) = VObject a;
  created_heap : ∀ x, x ≠ nextAddr s → heap s1 !! x = heap s !! x;
  created_registry :
    objectToProxy s1 = <[nextAddr s := nextAddr s]> (<[a := nextAddr s]> (objectToProxy s));
  created_modified : modified s1 = modified s;
  created_patchToTarget : patchToTarget s1 = patchToTarget s;
  created_currentPatch : objectToCurrentPatch s1 = objectToCurrentPatch s
}.

(** [createRecordingProxy] on a tracking view throws this error. *)
Definition AlreadyTrackedError : error := Error "trying to proxy a proxy".

(** "After [doNotTrack(x)] the registry maps [x] to itself, and [proxify]
    and [ensureProxy] return [x] without creating a view". *)
Definition doNotTrack_pins (x : value) (s : state) : Prop :=
  ∃ s', doNotTrack x s = Ok x s' ∧
        tryGetProxy s' x = x ∧
        proxify x s' = Ok x s' ∧
        ensureProxy x s' = Ok x s'.

(** Later calls into the registry, whatever their outcome. *)
Inductive registry_call :=
| Call_proxify (v : value)
| Call_ensureProxy (v : value).

Definition state_of {A} (r : result A) : state :=
  match r with
  | Ok _ s => s
  | Throw _ s => s
  end.

Definition run_call (s : state) (c : registry_call) : state :=
  match c with
  | Call_proxify v => state_of (proxify v s)
  | Call_ensureProxy v => state_of (ensureProxy v s)
  end.

Definition run_calls (calls : list registry_call) (s : state) : state :=
  fold_left run_call calls s.

(** The invariant behind it: the registry entry [a ↦ a] is in place, [a]
    is allocated, and every view of [a] was one already in [s0]. *)
Definition pinned (s0 : state) (a : addr) (s : state) : Prop :=
  objectToProxy s !! a = Some a ∧ a < nextAddr s ∧
  (∀ p, ORIGINAL s (VObject p) = VObject a → ORIGINAL s0 (VObject p) = VObject a).

(** Two states with the same registry and the same [ORIGINAL] links:
    [tryGetProxy] and [asOriginal] cannot tell them apart. *)
Definition same_links (s s1 : state) : Prop :=
  objectToProxy s1 = objectToProxy s ∧ ∀ v, ORIGINAL s1 v = ORIGINAL s v.

(** ** Example states *)

(** A plain object at address 0 and nothing else. *)
Definition example_object_state : state :=
  (alloc (Object_ [("prop0", VString "hello")]) empty_state).2.

(** A container [c] at 0 with its view at 2, and a map at 1 (with its view
    at 3) that holds one entry under the view of [c], with a falsy value,
    and one under [c] itself. *)
Definition example_aliased_state : state :=
  State {[ 0 := Object_ [];
           1 := Map_ [(VObject 2, VNumber 0); (VObject 0, VString "raw")];
           2 := Proxy_ 0 objectProxyHandler;
           3 := DimmerMap_ 1 [] ]}
        4 {[ 0 := 2; 2 := 2; 1 := 3; 3 := 3 ]} ∅ ∅ [] {[ 1 := 3 ]}.

(** A native map with the given entries at address 0 and, made by
    [createRecordingProxy], its view at address 1. *)
Definition example_map_view (es : entries) : state :=
  state_of (createRecordingProxy (VObject 0) (alloc (Map_ es) empty_state).2).

(** "With [d.get(k) == v0] before the scope, after [set(k, v1)] and
    [set(k, v2)] the committed patch maps [k] to [v0], and
    [d.get(k) == v2]". *)
Definition first_write_wins_as_stated (s : state) (this : addr) (k v1 v2 : value) : Prop :=
  ∀ v0 s0, DimmerMap.get this k s = Ok v0 s0 →
  ∃ r1 s1 r2 s2 patch s3 committed s4,
    DimmerMap.set this k v1 s0 = Ok r1 s1 ∧
    DimmerMap.set this k v2 s1 = Ok r2 s2 ∧
    DimmerMap.commitDelta this s2 = Ok patch s3 ∧
    heap s3 !! patch = Some (Map_ committed) ∧
    Map_get committed k = v0 ∧
    DimmerMap.get this k s3 = Ok v2 s4.

(** A container at 0 and a map at 1 that holds it under the key ["a"];
    only the map is tracked, its view is at 2. *)
Definition example_container_value_state : state :=
  state_of (createRecordingProxy (VObject 1)
    (alloc (Map_ [(VString "a", VObject 0)]) (alloc (Object_ []) empty_state).2).2).

(** A container at 0 and a map at 1, both tracked through
    [createRecordingProxy]: the view of the container is at 2, the view of
    the map at 3. *)
Definition example_tracked_state (es : entries) : state :=
  state_of (createRecordingProxy (VObject 1)
    (state_of (createRecordingProxy (VObject 0)
      (alloc (Map_ es) (alloc (Object_ []) empty_state).2).2))).

(** A scope on an empty map [m] with a container key [c] and its view [p]:
    [m.set(c, 1); m.delete(c); m.set(p, 2)], committed and undone. *)
Definition undo_alias_scenario : M addr :=
  let* _ := DimmerMap.set 3 (VObject 0) (VNumber 1) in
  let* _ := DimmerMap.delete 3 (VObject 0) in
  let* _ := DimmerMap.set 3 (VObject 2) (VNumber 2) in
  let* patch := DimmerMap.commitDelta 3 in
  let* _ := undoPatch patch in
  ret patch.

(** ** Reversing an undo *)

(** The entry of a native map under a key, if any. *)
Definition Map_lookup (es : entries) (k : value) : option value :=
  if Map_has es k then Some (Map_get es k) else None.

(** Two containers of the same kind with the same contents: the same
    entry under every key for maps, the same members for sets, the same
    elements for arrays, the same value read at every property name for
    plain objects.  The order of insertion is not compared. *)
Definition same_contents (o1 o2 : object) : Prop :=
  match o1, o2 with
  | Map_ es1, Map_ es2 => ∀ k, Map_lookup es1 k = Map_lookup es2 k
  | Set_ ms1, Set_ ms2 => ∀ k, Set_has ms1 k = Set_has ms2 k
  | Array_ xs1, Array_ xs2 => xs1 = xs2
  | Object_ ps1, Object_ ps2 => ∀ name, prop_get ps1 name = prop_get ps2 name
  | _, _ => False
  end.

(** The key [k] has no other identity among the keys [held]: neither its
    tracking view nor its original, when different from [k], is there. *)
Definition unaliased (s : state) (held : list value) (k : value) : Prop :=
  ∀ a, (a = tryGetProxy s k ∧ truthy a = true) ∨ a = asOriginal s k →
       a ≠ k → a ∉ held.

(** The patches for which the reverse-patch law is stated: the patch is
    of the kind of its target; for a map, no key of the patch is aliased
    among the keys of the target and of the patch, and the target does not
    hold [NO_ENTRY] as a value under a key of the patch; for a plain
    object, the keys of the patch are property names. *)
Definition reversible (s : state) (patch target : addr) : Prop :=
  match heap s !! target, heap s !! patch with
  | Some (Map_ es), Some (Map_ mapPatch) =>
      ∀ k, k ∈ Map_keys mapPatch →
           unaliased s (Map_keys es ++ Map_keys mapPatch) k ∧ Map_get es k ≠ NO_ENTRY
  | Some (Set_ _), Some (Map_ _) => True
  | Some (Array_ _), Some (Array_ _) => True
  | Some (Object_ _), Some (Map_ objectPatch) =>
      ∀ k, k ∈ Map_keys objectPatch → ∃ name, k = VString name
  | _, _ => False
  end.

(** What a reverse patch records for a key, by kind of target: the current
    value of the target, with [NO_ENTRY] when a map has no entry, the
    membership for a set, undefined for a property that an object does
    not have. *)
Definition current_value (target : object) (k : value) : value :=
  match target with
  | Map_ es => if Map_has es k then Map_get es k else NO_ENTRY
  | Set_ ms => VBool (Set_has ms k)
  | Object_ ps => match k with VString name => prop_get ps name | _ => VUndefined end
  | _ => VUndefined
  end.

(** The reverse patch of a patch, for a target: a copy of an array, and
    otherwise a map from exactly the keys of the patch to the current
    values of the target. *)
Definition reverse_of (target patch reverse : object) : Prop :=
  match target, patch, reverse with
  | Array_ xs, _, Array_ rs => rs = xs
  | _, Map_ pes, Map_ res =>
      ∀ k, Map_lookup res k =
           if decide (k ∈ Map_keys pes) then Some (current_value target k) else None
  | _, _, _ => False
  end.

(** The loop of [undoPatch] on a map when no resolved key differs from the
    patch key. *)
Definition undo_simple (target : entries) (e : value * value) : entries :=
  if bool_decide (e.2 ≠ NO_ENTRY) then Map_set target e.1 e.2 else Map_delete target e.1.

(** [reversePatch.set(key, f(key))] for each key in turn. *)
Definition fill (f : value → value) (ks : list value) (acc : entries) : entries :=
  fold_left (λ acc k, Map_set acc k (f k)) ks acc.

(** The name that a property key stands for; keys of object patches are
    names. *)
Definition prop_name (k : value) : string :=
  match k with
  | VString name => name
  | _ => EmptyString
  end.

(** The loop of [undoPatch] on a plain object, for keys that are names. *)
Definition undo_prop (target : props) (e : value * value) : props :=
  prop_set target (prop_name e.1) e.2.

(** The objects that are not tracking views. *)
Definition is_raw (o : object) : bool :=
  match o with
  | Map_ _ | Set_ _ | Array_ _ | Object_ _ => true
  | _ => false
  end.

(** A scope that overwrites one entry of a map, committed: the target is
    at 0, its view at 1 and the committed patch at 2. *)
Definition example_committed_state : state :=
  state_of ((let* _ := DimmerMap.set 1 (VString "k") (VString "v1") in
             DimmerMap.commitDelta 1)
            (example_map_view [(VString "k", VString "v0")])).

(** A plain object at 0 that has lost its property [a] during a scope,
    and at 1 the committed patch of that scope, [a ↦ 1]. *)
Definition example_deleted_property_state : state :=
  State {[ 0 := Object_ []; 1 := Map_ [(VString "a", VNumber 1)] ]}
        2 ∅ ∅ {[ 1 := 0 ]} [] ∅.

(** ** More of the registry, of the map view and of the history engine *)

(** [asOriginal(one) === asOriginal(two)] *)
Definition areSame (s : state) (one two : value) : bool :=
  bool_decide (asOriginal s one = asOriginal s two).

(** [objectToCurrentPatch.get(obj)] *)
Definition getCurrentPatch (s : state) (obj : value) : value :=
  match obj with
  | VObject a => from_option VObject VUndefined (objectToCurrentPatch s !! a)
  | _ => VUndefined
  end.

(** [patchToTarget.get(patch)] *)
Definition getPatchTarget (s : state) (patch : value) : value :=
  match patch with
  | VObject a => from_option VObject VUndefined (patchToTarget s !! a)
  | _ => VUndefined
  end.

(** [patches.find(x => patchToTarget.get(x) === objTarget)]; [find]
    answers undefined when no element passes. *)
Definition findPatchForObject (s : state) (patches : list value) (objectToFind : value)
  : value :=
  let objTarget := asOriginal s objectToFind in
  default VUndefined
    (List.find (λ x, bool_decide (getPatchTarget s x = objTarget)) patches).

(** [history.map((patches, index) => ...).filter(x => x !== undefined)] *)
Definition getObjectTimeline (s : state) (history : list (list value)) (objectToFind : value)
  : list (nat * value) :=
  let original := asOriginal s objectToFind in
  omap id
    (imap (λ index patches,
             let patchForOriginal := findPatchForObject s patches original in
             if truthy patchForOriginal then Some (index, patchForOriginal) else None)
          history).

(** [history.flat().filter(x => patchToTarget.get(x) === objTarget)] *)
Definition findAllPatchesInHistory (s : state) (history : list (list value))
    (objectToFind : value) : list value :=
  let objTarget := asOriginal s objectToFind in
  filter (λ x, getPatchTarget s x = objTarget) (concat history).

(** [proxify] applied to each value in turn. *)
Fixpoint proxify_each (vs : list value) : M (list value) :=
  match vs with
  | [] => ret []
  | v :: rest =>
      let* p := proxify v in
      let* ps := proxify_each rest in
      ret (p :: ps)
  end.

(** [[proxify(key), proxify(value)]] for each entry in turn. *)
Fixpoint proxify_entries (es : entries) : M (list (value * value)) :=
  match es with
  | [] => ret []
  | (key, value') :: rest =>
      let* pk := proxify key in
      let* pv := proxify value' in
      let* ps := proxify_entries rest in
      ret ((pk, pv) :: ps)
  end.

Module DimmerMapIterators.

(** The generators [keys], [values] and [entries] of the map view, drained
    to their end (as by a spread, or by a loop that does not write to the
    map): what they yield, in order, and the state they leave. *)
Definition keys (this : addr) : M (list value) := λ s,
  match DimmerMap.view s this with
  | Some (_, _, es) => proxify_each (Map_keys es) s
  | None => Throw TypeError s
  end.

Definition values (this : addr) : M (list value) := λ s,
  match DimmerMap.view s this with
  | Some (_, _, es) => proxify_each es.*2 s
  | None => Throw TypeError s
  end.

Definition entries (this : addr) : M (list (value * value)) := λ s,
  match DimmerMap.view s this with
  | Some (_, _, es) => proxify_entries es s
  | None => Throw TypeError s
  end.

End DimmerMapIterators.

(** [makePatchRecorder(mutator)] *)
Definition makePatchRecorder (mutator : value → M unit) : value → M (list value) :=
  λ state', recordPatches mutator state'.

(** ** Vocabulary of the further properties *)

(** A value registered as its own tracking view, or not an object. *)
Definition wrapped (s : state) (v : value) : Prop :=
  match v with
  | VObject a => objectToProxy s !! a = Some a
  | _ => True
  end.

(** [s1] extends [s]: nothing allocated in [s] was moved or changed kind,
    no registry entry was changed, no address was given back. *)
Definition extends (s s1 : state) : Prop :=
  nextAddr s ≤ nextAddr s1 ∧
  (∀ x, x < nextAddr s → heap s1 !! x = heap s !! x) ∧
  (∀ x q, objectToProxy s !! x = Some q → objectToProxy s1 !! x = Some q).

(** A key that has one identity only: it has no tracking view, it is its
    own original, and it is truthy (a non-empty string, a non-zero number,
    [true], an untracked object). *)
Definition plain_key (s : state) (k : value) : Prop :=
  tryGetProxy s k = VUndefined ∧ asOriginal s k = k ∧ truthy k = true.

(** The writes of a scope on a map view. *)
Inductive map_write :=
| Write_set (key value' : value)
| Write_delete (key : value)
| Write_clear.

Definition write_key (w : map_write) : list value :=
  match w with
  | Write_set key _ | Write_delete key => [key]
  | Write_clear => []
  end.

Definition run_write (this : addr) (w : map_write) : M unit :=
  match w with
  | Write_set key value' => let* _ := DimmerMap.set this key value' in ret tt
  | Write_delete key => let* _ := DimmerMap.delete this key in ret tt
  | Write_clear => DimmerMap.clear this
  end.

Fixpoint run_writes (this : addr) (ws : list map_write) : M unit :=
  match ws with
  | [] => ret tt
  | w :: rest => let* _ := run_write this w in run_writes this rest
  end.

(** What a patch records for an entry that was, or was not, in the map. *)
Definition pre_image (o : option value) : value :=
  match o with
  | Some v => v
  | None => NO_ENTRY
  end.

(** The first touch of a key in a scope: its pre-image goes into the open
    patch unless the patch has the key. *)
Definition touch (delta es : entries) (k : value) : entries :=
  if Map_has delta k then delta else Map_set delta k (pre_image (Map_lookup es k)).

(** The loop of [clear]: each entry whose key the open patch does not have
    is copied into it. *)
Definition snapshot_all (delta es : entries) : entries :=
  fold_left (λ d e, if Map_has d e.1 then d else Map_set d e.1 e.2) es delta.

(** The open patch and the target after one write with a plain key. *)
Definition write_delta (w : map_write) (delta es : entries) : entries :=
  match w with
  | Write_set k _ => touch delta es k
  | Write_delete k => if Map_has es k then touch delta es k else delta
  | Write_clear => snapshot_all delta es
  end.

Definition write_target (w : map_write) (es : entries) : entries :=
  match w with
  | Write_set k v => Map_set es k v
  | Write_delete k => Map_delete es k
  | Write_clear => []
  end.

(** The open patch [delta] tracks the changes from [es0] to [es]: a key it
    has maps to what [es0] held (or to [NO_ENTRY]), and a key it has not
    has in [es] the entry it had in [es0]. *)
Definition tracks (es0 delta es : entries) : Prop :=
  NoDup (Map_keys delta) ∧
  ∀ k, match Map_lookup delta k with
       | Some v => v = pre_image (Map_lookup es0 k)
       | None => Map_lookup es k = Map_lookup es0 k
       end.

(** The keys a scope can meet: those of the map and those it writes. *)
Definition scope_keys (es0 : entries) (ws : list map_write) : list value :=
  Map_keys es0 ++ concat (write_key <$> ws).

(** The patches that [undoPatch] is proved idempotent on: the patch has a
    target, is another object, is of the kind of the target, and (being a
    native map) holds each key once; for a map target no key of the patch
    is aliased among the keys of the target and of the patch; for a plain
    object the keys of the patch are property names. *)
Definition undoable (s : state) (patch : addr) : Prop :=
  match patchToTarget s !! patch with
  | Some target =>
      patch ≠ target ∧
      match heap s !! target, heap s !! patch with
      | Some (Map_ es), Some (Map_ mapPatch) =>
          NoDup (Map_keys mapPatch) ∧
          ∀ k, k ∈ Map_keys mapPatch → unaliased s (Map_keys es ++ Map_keys mapPatch) k
      | Some (Set_ _), Some (Map_ setPatch) => NoDup (Map_keys setPatch)
      | Some (Array_ _), Some (Array_ _) => True
      | Some (Object_ _), Some (Map_ objectPatch) =>
          NoDup (Map_keys objectPatch) ∧
          ∀ k, k ∈ Map_keys objectPatch → ∃ name, k = VString name
      | _, _ => False
      end
  | None => False
  end.


(** The timeline of a history whose first batch has index [n], for an
    object that is given by its original: [getObjectTimeline] is the case
    [n = 0]. *)
Definition timeline_from (s : state) (original : value) (n : nat)
    (history : list (list value)) : list (nat * value) :=
  omap id
    (imap (λ index patches,
             let patchForOriginal := findPatchForObject s patches original in
             if truthy patchForOriginal then Some (n + index, patchForOriginal) else None)
          history).

(** A history as its type has it: batches of patches, which are objects. *)
Definition is_object (v : value) : Prop := ∃ a, v = VObject a.

(** ** Vocabulary of the batch of [commitPatches] *)

(** The map or set view that [commitPatches] finds for a member of the
    modified-set, with its open patch. *)
Definition container_view (s : state) (target : value) : option (addr * entries) :=
  match tryGetProxy s target with
  | VObject targetProxy =>
      match heap s !! targetProxy with
      | Some (DimmerMap_ _ delta) | Some (DiagonSet_ _ delta) => Some (targetProxy, delta)
      | _ => None
      end
  | _ => None
  end.

(** What [commitPatches], run from [s] to [s'], has pushed for a member of
    the modified-set.  For a container with a map or set view: a new patch
    that holds what the open patch of the view held and has the container
    as its target, the open patch of the view now being empty.  For any
    other member: what the registry of current patches had for it,
    undefined if it had nothing, and the registry has nothing for it now. *)
Definition committed_for (s s' : state) (target patch : value) : Prop :=
  match container_view s target with
  | Some (targetProxy, delta) =>
      ∃ a, patch = VObject a ∧ nextAddr s ≤ a < nextAddr s' ∧
           heap s' !! a = Some (Map_ delta) ∧
           getPatchTarget s' patch = target ∧
           container_view s' target = Some (targetProxy, [])
  | None =>
      patch = getCurrentPatch s target ∧ getCurrentPatch s' target = VUndefined
  end.

(** What a run of the loop of [commitPatches] over [members] leaves as it
    was: the targets of the patches there were, every object that is not
    the map or set view of a member, and the current patch of everything
    that is not a member. *)
Definition commit_frame (s s' : state) (members : list value) : Prop :=
  (∀ a, a < nextAddr s → patchToTarget s' !! a = patchToTarget s !! a) ∧
  (∀ x, x < nextAddr s →
        (∀ m delta, m ∈ members → container_view s m ≠ Some (x, delta)) →
        heap s' !! x = heap s !! x) ∧
  (∀ a, VObject a ∉ members → objectToCurrentPatch s' !! a = objectToCurrentPatch s !! a).

(** A scope in which a map and a plain object were written, before its
    commit: the map at 0 (view at 1, open patch [k ↦ v0]), the object at 2
    (view at 3) with its current patch at 4; both are in the
    modified-set. *)
Definition example_scope_state : state :=
  State {[ 0 := Map_ [(VString "k", VString "v1")];
           1 := DimmerMap_ 0 [(VString "k", VString "v0")];
           2 := Object_ [("a", VNumber 2)];
           3 := Proxy_ 2 objectProxyHandler;
           4 := Map_ [(VString "a", VNumber 1)] ]}
        5 {[ 0 := 1; 1 := 1; 2 := 3; 3 := 3 ]} {[ 2 := 4 ]} {[ 4 := 2 ]}
        [VObject 0; VObject 2] {[ 0 := 1 ]}.

(** * Properties *)

(** ** Native maps *)

Section native_map.
Implicit Types (es : entries) (k v : value).

Lemma Map_has_elem_of es k : Map_has es k = true ↔ k ∈ Map_keys es.
Proof.
  induction es as [|[k' v'] r IH]; simpl.
  - split; [done | by intros ?%elem_of_nil].
  - rewrite elem_of_cons, <- IH. case_decide; intuition congruence.
Qed.

Lemma Map_has_false es k : Map_has es k = false ↔ k ∉ Map_keys es.
Proof. rewrite <- Map_has_elem_of. by destruct (Map_has es k). Qed.

Lemma Map_get_absent es k : Map_has es k = false → Map_get es k = VUndefined.
Proof.
  induction es as [|[k' v'] r IH]; simpl; [done|].
  case_decide; [done | auto].
Qed.

Lemma Map_keys_set es k v :
  Map_keys (Map_set es k v) = if Map_has es k then Map_keys es else Map_keys es ++ [k].
Proof.
  induction es as [|[k' v'] r IH]; simpl; [done|].
  case_decide; simpl; [done|].
  rewrite IH. by destruct (Map_has r k).
Qed.

Lemma Map_has_set es k v k' :
  Map_has (Map_set es k v) k' = if decide (k' = k) then true else Map_has es k'.
Proof.
  induction es as [|[k0 v0] r IH]; simpl.
  - by repeat case_decide.
  - repeat (case_decide; simpl; subst); try done; rewrite IH; by case_decide.
Qed.

Lemma Map_get_set es k v k' :
  Map_get (Map_set es k v) k' = if decide (k' = k) then v else Map_get es k'.
Proof.
  induction es as [|[k0 v0] r IH]; simpl.
  - by repeat case_decide.
  - repeat (case_decide; simpl; subst); try done; rewrite IH; by case_decide.
Qed.

Lemma Map_has_delete es k k' :
  Map_has (Map_delete es k) k' = if decide (k' = k) then false else Map_has es k'.
Proof.
  unfold Map_delete.
  induction es as [|[k0 v0] r IH]; [by simpl; case_decide|].
  rewrite filter_cons. simpl.
  repeat (case_decide; simpl in *; subst); try done; rewrite IH; by case_decide.
Qed.

Lemma Map_get_delete es k k' :
  Map_get (Map_delete es k) k' = if decide (k' = k) then VUndefined else Map_get es k'.
Proof.
  unfold Map_delete.
  induction es as [|[k0 v0] r IH]; [by simpl; case_decide|].
  rewrite filter_cons. simpl.
  repeat (case_decide; simpl in *; subst); try done; rewrite IH; by case_decide.
Qed.

Lemma Map_keys_delete es k : Map_keys (Map_delete es k) ⊆ Map_keys es.
Proof.
  intros k' Hk. apply Map_has_elem_of in Hk. apply Map_has_elem_of.
  rewrite Map_has_delete in Hk. by case_decide.
Qed.

(** A native map never holds a key twice. *)
Lemma Map_set_NoDup es k v : NoDup (Map_keys es) → NoDup (Map_keys (Map_set es k v)).
Proof.
  intros Hnd. rewrite Map_keys_set.
  destruct (Map_has es k) eqn:Hh; [done|].
  apply NoDup_app. split_and!; [done | | apply NoDup_singleton].
  intros x Hx ->%list_elem_of_singleton.
  apply Map_has_false in Hh. done.
Qed.

Lemma Map_delete_NoDup es k : NoDup (Map_keys es) → NoDup (Map_keys (Map_delete es k)).
Proof.
  unfold Map_delete, Map_keys.
  induction es as [|[k0 v0] r IH]; [done|].
  rewrite fmap_cons, NoDup_cons. intros [Hni Hnd]. rewrite filter_cons. simpl.
  case_decide; simpl; [|auto].
  apply NoDup_cons. split; [|auto].
  intros Hin. apply Hni.
  by apply (Map_keys_delete r k).
Qed.

End native_map.

(** ** The registry in well-formed states *)

Section registry.
Implicit Types (s : state) (v : value) (a p t : addr).

Lemma ORIGINAL_cases s v : ORIGINAL s v = VUndefined ∨ ∃ t, ORIGINAL s v = VObject t.
Proof.
  destruct v; simpl; auto.
  destruct (heap s !! a) as [[]|]; eauto.
Qed.

Lemma ORIGINAL_allocated s a :
  ORIGINAL s (VObject a) ≠ VUndefined → is_Some (heap s !! a).
Proof. simpl. destruct (heap s !! a); [eauto | done]. Qed.

Lemma isProxy_true s v :
  isProxy v s = Ok true s ↔ ∃ a t, v = VObject a ∧ ORIGINAL s v = VObject t.
Proof.
  split.
  - destruct v; simpl; try done; try (intros [= ?]; done).
    destruct (heap s !! a) as [[]|]; simpl; intros H; by (discriminate H || eauto).
  - intros (a & t & -> & H). unfold isProxy. by rewrite H.
Qed.

Lemma asOriginal_raw s v : ORIGINAL s v = VUndefined → asOriginal s v = v.
Proof.
  intros H. unfold asOriginal, JS_and, JS_or. rewrite H.
  destruct (truthy v) eqn:E; simpl; by rewrite ?E.
Qed.

Lemma asOriginal_view s v t : ORIGINAL s v = VObject t → asOriginal s v = VObject t.
Proof.
  intros H. unfold asOriginal, JS_and, JS_or. rewrite H.
  destruct v; simpl in *; done.
Qed.

Lemma wf_heap_bound s a : wf s → is_Some (heap s !! a) → a < nextAddr s.
Proof. intros [Hh _] [o Ho]. by destruct (Hh a o Ho). Qed.

Lemma wf_registry_bound s a p : wf s → objectToProxy s !! a = Some p → a < nextAddr s.
Proof. intros [_ Hr] Hp. by destruct (Hr a p Hp). Qed.

Lemma wf_view_registered s a :
  wf s → ORIGINAL s (VObject a) ≠ VUndefined → objectToProxy s !! a = Some a.
Proof.
  intros [Hh _] Ho. destruct (ORIGINAL_allocated s a Ho) as [o Hoa].
  by destruct (Hh a o Hoa) as [_ H]; apply H.
Qed.

Lemma wf_registry s a p :
  wf s → objectToProxy s !! a = Some p →
  a = p ∨ (ORIGINAL s (VObject p) = VObject a ∧ ORIGINAL s (VObject a) = VUndefined).
Proof. intros [_ Hr] Hp. by destruct (Hr a p Hp). Qed.

(** The view of an object is registered as its own view. *)
Lemma wf_registry_fixpoint s a p :
  wf s → objectToProxy s !! a = Some p → objectToProxy s !! p = Some p.
Proof.
  intros Hwf Hp. destruct (wf_registry s a p Hwf Hp) as [<-|[Ho _]]; [done|].
  apply wf_view_registered; [done|]. by rewrite Ho.
Qed.

(** An object and its registered view have the same original. *)
Lemma wf_registry_original s a p :
  wf s → objectToProxy s !! a = Some p →
  asOriginal s (VObject p) = asOriginal s (VObject a).
Proof.
  intros Hwf Hp. destruct (wf_registry s a p Hwf Hp) as [<-|[Ho Ha]]; [done|].
  by rewrite (asOriginal_view _ _ _ Ho), (asOriginal_raw _ _ Ha).
Qed.


Lemma wf_empty : wf empty_state.
Proof. apply (bool_decide_unpack (wf empty_state)). by vm_compute. Qed.

End registry.

(** ** Creating and looking up tracking views *)

Section views.
Implicit Types (s : state) (v : value) (a p t : addr).

Lemma createRecordingProxy_raw s a :
  ORIGINAL s (VObject a) = VUndefined →
  ∃ s1, createRecordingProxy (VObject a) s = Ok (VObject (nextAddr s)) s1 ∧ created s a s1.
Proof.
  intros Ho. unfold createRecordingProxy, isProxy. rewrite Ho. simpl.
  destruct (heap s !! a) as [[]|] eqn:Ha; simpl;
    (eexists; split; [reflexivity|]);
    (split; simpl; try done;
     [by rewrite lookup_insert_eq | by intros x Hx; rewrite lookup_insert_ne]).
Qed.

Lemma createRecordingProxy_view s v :
  isProxy v s = Ok true s →
  createRecordingProxy v s = Throw (Error "trying to proxy a proxy") s.
Proof. intros H. unfold createRecordingProxy. by rewrite H. Qed.

Lemma created_ORIGINAL s a s1 x :
  created s a s1 → x < nextAddr s → ORIGINAL s1 (VObject x) = ORIGINAL s (VObject x).
Proof. intros Hc Hx. simpl. rewrite (created_heap _ _ _ Hc); [done | lia]. Qed.

(** [createRecordingProxy] keeps a state well formed. *)
Lemma created_wf s a s1 : wf s → a < nextAddr s → ORIGINAL s (VObject a) = VUndefined →
  created s a s1 → wf s1.
Proof.
  intros Hwf Ha Hraw Hc. split.
  - intros x o Hx. split.
    + rewrite (created_next _ _ _ Hc).
      destruct (decide (x = nextAddr s)) as [->|Hne]; [lia|].
      rewrite (created_heap _ _ _ Hc) in Hx by done.
      pose proof (wf_heap_bound s x Hwf (mk_is_Some _ _ Hx)). lia.
    + intros Hview. rewrite (created_registry _ _ _ Hc).
      destruct (decide (x = nextAddr s)) as [->|Hne]; [by rewrite lookup_insert_eq|].
      rewrite (created_heap _ _ _ Hc) in Hx by done.
      pose proof (wf_heap_bound s x Hwf (mk_is_Some _ _ Hx)) as Hb.
      rewrite (created_ORIGINAL _ _ _ _ Hc Hb) in Hview.
      rewrite lookup_insert_ne by done.
      rewrite lookup_insert_ne by (intros ->; congruence).
      by apply wf_view_registered.
  - intros x q Hx. rewrite (created_registry _ _ _ Hc) in Hx.
    unfold wf_registered. rewrite (created_next _ _ _ Hc).
    destruct (decide (x = nextAddr s)) as [->|Hne].
    { rewrite lookup_insert_eq in Hx. injection Hx as <-. split; [lia | by left]. }
    rewrite lookup_insert_ne in Hx by done.
    destruct (decide (x = a)) as [->|Hna].
    { rewrite lookup_insert_eq in Hx. injection Hx as <-. split; [lia|]. right.
      split; [apply (created_view _ _ _ Hc)|].
      by rewrite (created_ORIGINAL _ _ _ _ Hc Ha). }
    rewrite lookup_insert_ne in Hx by done.
    pose proof (wf_registry_bound s x q Hwf Hx) as Hb.
    split; [lia|].
    destruct (wf_registry s x q Hwf Hx) as [->|[Hq Hxr]]; [by left|]. right.
    rewrite (created_ORIGINAL _ _ _ _ Hc Hb). split; [|done].
    rewrite (created_ORIGINAL _ _ _ _ Hc); [done|].
    apply (wf_heap_bound s q Hwf), ORIGINAL_allocated. by rewrite Hq.
Qed.

Lemma createRecordingProxy_wf s v r s1 :
  wf s → live s v → createRecordingProxy v s = Ok r s1 → wf s1.
Proof.
  intros Hwf Hlive Hc.
  destruct v as [| | | | | |a];
    try (unfold createRecordingProxy in Hc; simpl in Hc; discriminate).
  destruct (ORIGINAL_cases s (VObject a)) as [Hraw|[t Hview]].
  - destruct (createRecordingProxy_raw s a Hraw) as (s1' & Heq & Hcr).
    rewrite Heq in Hc. injection Hc as <- <-.
    by apply (created_wf s a).
  - rewrite createRecordingProxy_view in Hc; [done|].
    apply isProxy_true; eauto.
Qed.

Lemma ensureProxy_wf s v r s1 : wf s → live s v → ensureProxy v s = Ok r s1 → wf s1.
Proof.
  intros Hwf Hlive. unfold ensureProxy.
  destruct (truthy (tryGetProxy s v)); [by intros [= <- <-]|].
  by apply createRecordingProxy_wf.
Qed.

Lemma proxify_wf s v r s1 : wf s → live s v → proxify v s = Ok r s1 → wf s1.
Proof.
  intros Hwf Hlive. unfold proxify.
  destruct (truthy (tryGetProxy s v)); [by intros [= <- <-]|].
  destruct v; try by intros [= <- <-].
  by apply createRecordingProxy_wf.
Qed.

Lemma doNotTrack_wf s v r s1 : wf s → live s v → doNotTrack v s = Ok r s1 → wf s1.
Proof.
  intros Hwf Hlive. unfold doNotTrack.
  destruct v as [| |[]|n|str| |a]; simpl; try (by intros [= <- <-]); try done.
  - destruct (negb (n =? 0)%Z); [done | by intros [= <- <-]].
  - destruct (negb (String.eqb str EmptyString)); [done | by intros [= <- <-]].
  - unfold bind, ret. simpl. intros [= <- <-]. split.
    + intros x o Hx. split; [by apply (wf_heap_bound s x Hwf); eauto|].
      intros Hview. simpl.
      destruct (decide (x = a)) as [->|Hne]; [by rewrite lookup_insert_eq|].
      rewrite lookup_insert_ne by done. by apply wf_view_registered.
    + intros x q. simpl.
      destruct (decide (x = a)) as [->|Hne].
      * rewrite lookup_insert_eq. intros [= <-]. split; [done | by left].
      * rewrite lookup_insert_ne by done. intros Hx.
        split; [by apply (wf_registry_bound s x q) | by apply (wf_registry s x q)].
Qed.

End views.

(** ** Claims about the registry *)



(** C6 — [createRecordingProxy] on a value that is already a tracking view
    throws the "trying to proxy a proxy" error in an unchanged state; no
    continuation runs after it, and the callers that reach it
    ([ensureProxy], [proxify], and [recordPatches] through its
    [try]/[finally]) let it through. *)
Theorem createRecordingProxy_already_tracked (s : state) (v : value) :
  isProxy v s = Ok true s →
  createRecordingProxy v s = Throw AlreadyTrackedError s ∧
  (∀ (B : Type) (k : value → M B), bind (createRecordingProxy v) k s = Throw AlreadyTrackedError s) ∧
  (tryGetProxy s v = VUndefined →
     ensureProxy v s = Throw AlreadyTrackedError s ∧
     proxify v s = Throw AlreadyTrackedError s ∧
     ∀ mutator, ∃ s', recordPatches mutator v s = Throw AlreadyTrackedError s').
Proof.
  intros Hv. pose proof (createRecordingProxy_view s v Hv) as Hc.
  split; [done|]. split.
  { intros B k. unfold bind. by rewrite Hc. }
  intros Hreg. apply isProxy_true in Hv as Hv'. destruct Hv' as (a & t & -> & Ho).
  split_and!.
  - unfold ensureProxy. by rewrite Hreg.
  - unfold proxify. by rewrite Hreg.
  - intros mutator. eexists.
    unfold recordPatches, try_finally, bind, createContext, clearContext, ensureProxy.
    simpl in Hreg |- *. simpl.
    destruct (objectToProxy s !! a) eqn:Hra; [done|]. simpl.
    unfold createRecordingProxy, isProxy. simpl in Ho |- *. rewrite Ho. simpl.
    reflexivity.
Qed.

Lemma createRecordingProxy_already_tracked_witness :
  isProxy (VObject 1) (example_map_view []) = Ok true (example_map_view []) ∧
  createRecordingProxy (VObject 1) (example_map_view [])
    = Throw AlreadyTrackedError (example_map_view []).
Proof.
  assert (isProxy (VObject 1) (example_map_view []) = Ok true (example_map_view [])) as H
    by reflexivity.
  split; [exact H|].
  exact (proj1 (createRecordingProxy_already_tracked (example_map_view []) (VObject 1) H)).
Defined.

Lemma pinned_createRecordingProxy s0 a s v :
  pinned s0 a s → v ≠ VObject a → pinned s0 a (state_of (createRecordingProxy v s)).
Proof.
  intros (Hreg & Hlt & Hviews) Hne.
  destruct v as [| | | | | |x]; try done.
  destruct (ORIGINAL_cases s (VObject x)) as [Hraw|[t Hview]].
  - destruct (createRecordingProxy_raw s x Hraw) as (s1 & -> & Hc). simpl.
    split_and!.
    + rewrite (created_registry _ _ _ Hc).
      rewrite lookup_insert_ne by lia.
      rewrite lookup_insert_ne by congruence. done.
    + rewrite (created_next _ _ _ Hc). lia.
    + intros p Hp. destruct (decide (p = nextAddr s)) as [->|Hpn].
      * rewrite (created_view _ _ _ Hc) in Hp. congruence.
      * apply Hviews. simpl in Hp |- *.
        by rewrite (created_heap _ _ _ Hc) in Hp.
  - rewrite createRecordingProxy_view; [done|]. apply isProxy_true; eauto.
Qed.

Lemma pinned_run_call s0 a s c : pinned s0 a s → pinned s0 a (run_call s c).
Proof.
  intros Hp. pose proof Hp as (Hreg & _).
  destruct c as [v|v]; simpl.
  - unfold proxify. destruct (truthy (tryGetProxy s v)) eqn:Ht; [done|].
    destruct v; try done.
    apply pinned_createRecordingProxy; [done|].
    intros [= ->]. simpl in Ht. by rewrite Hreg in Ht.
  - unfold ensureProxy. destruct (truthy (tryGetProxy s v)) eqn:Ht; [done|].
    apply pinned_createRecordingProxy; [done|].
    intros ->. simpl in Ht. by rewrite Hreg in Ht.
Qed.

Lemma pinned_run_calls s0 a calls s : pinned s0 a s → pinned s0 a (run_calls calls s).
Proof.
  revert s. induction calls as [|c calls IH]; intros s Hp; [done|].
  apply IH. by apply pinned_run_call.
Qed.

(** C10, as stated, fails at the non-null value [0]: the guard
    [if (obj)] skips every falsy value, so nothing is registered for it. *)
Lemma doNotTrack_zero_not_registered :
  VNumber 0 ≠ VNull ∧ VNumber 0 ≠ VUndefined ∧
  doNotTrack (VNumber 0) empty_state = Ok (VNumber 0) empty_state ∧
  ¬ doNotTrack_pins (VNumber 0) empty_state.
Proof.
  split_and!; try done.
  intros (s' & Hd & Hreg & _). simpl in Hreg. done.
Qed.

(** C10 (amended) — for every live object [x], [doNotTrack(x)] registers
    [x] as its own view, so [proxify(x)] and [ensureProxy(x)] return [x]
    and leave the state as it is, and whatever [proxify] and [ensureProxy]
    are called on later, the entry stays and no view of [x] is created.
    A falsy value is returned with the state unchanged. *)
Theorem doNotTrack_object (s : state) (a : addr) :
  a < nextAddr s →
  (∃ s', doNotTrack (VObject a) s = Ok (VObject a) s' ∧
         tryGetProxy s' (VObject a) = VObject a ∧
         proxify (VObject a) s' = Ok (VObject a) s' ∧
         ensureProxy (VObject a) s' = Ok (VObject a) s' ∧
         ∀ calls,
           tryGetProxy (run_calls calls s') (VObject a) = VObject a ∧
           ∀ p, ORIGINAL (run_calls calls s') (VObject p) = VObject a →
                ORIGINAL s' (VObject p) = VObject a) ∧
  (∀ x, truthy x = false → doNotTrack x s = Ok x s).
Proof.
  intros Hlt. split.
  - eexists. split; [reflexivity|].
    assert (objectToProxy (set_objectToProxy <[a := a]> s) !! a = Some a) as Hreg
      by (simpl; apply lookup_insert_eq).
    split_and!.
    + simpl. by rewrite lookup_insert_eq.
    + unfold proxify. simpl. by rewrite lookup_insert_eq.
    + unfold ensureProxy. simpl. by rewrite lookup_insert_eq.
    + intros calls.
      destruct (pinned_run_calls (set_objectToProxy <[a := a]> s) a calls
                  (set_objectToProxy <[a := a]> s)) as (Hr & _ & Hv).
      { by split_and!. }
      split; [|exact Hv]. simpl. simpl in Hr. by rewrite Hr.
  - intros x Hx. unfold doNotTrack. by rewrite Hx.
Qed.

Lemma doNotTrack_object_witness :
  0 < nextAddr example_object_state ∧ doNotTrack_pins (VObject 0) example_object_state.
Proof.
  assert (0 < nextAddr example_object_state) as Hlt by (simpl; lia).
  split; [exact Hlt|].
  destruct (doNotTrack_object example_object_state 0 Hlt) as [(s' & Hd & Hr & Hp & He & _) _].
  exists s'. by split_and!.
Defined.

(** ** Committing *)

Lemma commit_one_returns target s : ∃ patch s', commit_one target s = Ok patch s'.
Proof.
  unfold commit_one, take_current_patch.
  destruct (tryGetProxy s target) as [| | | | | |p]; try by (destruct target; eauto).
  destruct (heap s !! p) as [[]|] eqn:Hp; try by (destruct target; eauto).
  all: unfold bind, ret, DimmerMap.commitDelta, DiagonSet_commitPatch; rewrite Hp; simpl; eauto.
Qed.

Lemma commit_loop_returns targets : ∀ changes s,
  ∃ batch s', commit_loop targets changes s = Ok batch s' ∧
              length batch = length changes + length targets.
Proof.
  induction targets as [|target rest IH]; intros changes s; simpl.
  - exists changes, s. unfold ret. split; [done | lia].
  - unfold bind. destruct (commit_one_returns target s) as (patch & s1 & ->).
    destruct (IH (changes ++ [patch]) s1) as (batch & s' & -> & Hlen).
    exists batch, s'. split; [done|]. rewrite length_app in Hlen. simpl in Hlen. lia.
Qed.

(** ** The map tracking view *)

Section dimmer_map.
Implicit Types (s : state) (v key : value) (a p t this : addr) (es delta : list (value * value)).

Lemma view_inv s this t delta es :
  DimmerMap.view s this = Some (t, delta, es) →
  heap s !! this = Some (DimmerMap_ t delta) ∧ heap s !! t = Some (Map_ es) ∧ this ≠ t.
Proof.
  unfold DimmerMap.view.
  destruct (heap s !! this) as [[]|] eqn:Hthis; try done.
  destruct (heap s !! target) as [[]|] eqn:Ht; try done.
  intros [= <- <- <-]. split_and!; try done. intros ->. congruence.
Qed.

Lemma view_intro s this t delta es :
  heap s !! this = Some (DimmerMap_ t delta) → heap s !! t = Some (Map_ es) →
  DimmerMap.view s this = Some (t, delta, es).
Proof. intros H1 H2. unfold DimmerMap.view. by rewrite H1, H2. Qed.

(** The writes of a map view keep the registry and every [ORIGINAL] link. *)
Lemma put_links s s1 this t delta es delta1 es1 :
  DimmerMap.view s this = Some (t, delta, es) →
  heap s1 = heap s → objectToProxy s1 = objectToProxy s →
  same_links s (DimmerMap.put this t delta1 es1 s1).
Proof.
  intros (Hthis & Ht & Hne)%view_inv Hh Hr. split; [done|].
  intros [| | | | | |x]; try done. simpl. rewrite Hh.
  destruct (decide (x = t)) as [->|Hxt].
  { rewrite lookup_insert_eq. by rewrite Ht. }
  rewrite lookup_insert_ne by done.
  destruct (decide (x = this)) as [->|Hxthis].
  { rewrite lookup_insert_eq. by rewrite Hthis. }
  by rewrite lookup_insert_ne.
Qed.

Lemma put_view s this t delta es :
  this ≠ t → DimmerMap.view (DimmerMap.put this t delta es s) this = Some (t, delta, es).
Proof.
  intros Hne. apply view_intro; simpl.
  - rewrite lookup_insert_ne by done. apply lookup_insert_eq.
  - apply lookup_insert_eq.
Qed.

Lemma same_links_tryGetProxy s s1 v : same_links s s1 → tryGetProxy s1 v = tryGetProxy s v.
Proof. intros [Hr _]. destruct v; simpl; try done. by rewrite Hr. Qed.

Lemma same_links_asOriginal s s1 v : same_links s s1 → asOriginal s1 v = asOriginal s v.
Proof. intros [_ Ho]. unfold asOriginal. by rewrite Ho. Qed.


(** What [proxify] leaves in place, and that its answer is stable. *)
Lemma proxify_frame s v r s1 :
  wf s → proxify v s = Ok r s1 →
  proxify v s1 = Ok r s1 ∧
  (∀ x, x < nextAddr s → heap s1 !! x = heap s !! x) ∧
  (∀ x q, objectToProxy s !! x = Some q → objectToProxy s1 !! x = Some q).
Proof.
  intros Hwf. unfold proxify at 1.
  destruct (truthy (tryGetProxy s v)) eqn:Ht.
  { intros [= <- <-]. split_and!; try done. unfold proxify. by rewrite Ht. }
  destruct v as [| | | | | |a]; try (intros [= <- <-]; by split_and!).
  destruct (ORIGINAL_cases s (VObject a)) as [Hraw|[t Hview]].
  - destruct (createRecordingProxy_raw s a Hraw) as (s1' & -> & Hc).
    intros [= <- <-]. split_and!.
    + unfold proxify. simpl. rewrite (created_registry _ _ _ Hc).
      destruct (decide (a = nextAddr s)) as [->|Hne].
      * by rewrite lookup_insert_eq.
      * rewrite lookup_insert_ne by done. by rewrite lookup_insert_eq.
    + intros x Hx. apply (created_heap _ _ _ Hc). lia.
    + intros x q Hx. rewrite (created_registry _ _ _ Hc).
      pose proof (wf_registry_bound s x q Hwf Hx).
      rewrite lookup_insert_ne by lia.
      rewrite lookup_insert_ne; [done|].
      intros ->. simpl in Ht. by rewrite Hx in Ht.
  - rewrite createRecordingProxy_view; [done|]. apply isProxy_true; eauto.
Qed.

(** The stored key that [set] and [delete] resolve: the tracking view of
    the key when the target holds it, else the original of the key. *)
Lemma getKeyUsedByMap_truthy es key pk ok r :
  getKeyUsedByMap es key pk ok = r → truthy r = true →
  Map_has es r = true ∧
  ((r = pk ∧ truthy pk = true) ∨ (r = ok ∧ (truthy pk = false ∨ Map_has es pk = false))).
Proof.
  unfold getKeyUsedByMap, JS_and. intros <-.
  destruct (truthy pk) eqn:Hpk; simpl.
  - destruct (Map_has es pk) eqn:Hh; simpl; [intros _; by split; [|left]|].
    destruct (Map_has es ok) eqn:Ho; [|done]. intros _. split; [done|]. right. auto.
  - rewrite Hpk. destruct (Map_has es ok) eqn:Ho; [|done]. intros _. split; [done|]. right. auto.
Qed.

End dimmer_map.



(** An entry of a native map is found under its key. *)
Lemma Map_has_entry (es : list (value * value)) (k : value) :
  Map_has es k = true → (k, Map_get es k) ∈ es.
Proof.
  induction es as [|[k0 v0] r IH]; simpl; [done|].
  case_decide as Hk; [subst; intros _; by left|].
  intros Hh. right. by apply IH.
Qed.

(** C2 — in a well-formed state, for a map whose target holds an entry
    keyed by the container [c] with tracking view [p]: [get(p)] and
    [get(c)] are the same lookup and return the same value, also when
    called one after the other; the lookup tries the view [p] first and
    then the original, and when the target has no entry under [p] both
    return the value stored under [c], read through [proxify];
    [set(p, v)] resolves the stored key (the view [p] if the target holds
    it, else [c]) and overwrites that entry: the keys of the target stay
    as they were. *)
Theorem DimmerMap_key_aliasing (s : state) (this t : addr)
    (delta es : list (value * value)) (c p : addr) (v : value) :
  wf s →
  DimmerMap.view s this = Some (t, delta, es) →
  Map_has es (VObject c) = true →
  tryGetProxy s (VObject c) = VObject p →
  DimmerMap.get this (VObject p) s = DimmerMap.get this (VObject c) s ∧
  DimmerMap.get this (VObject c) s
  = proxify (JS_or (Map_get es (VObject p)) (Map_get es (asOriginal s (VObject c)))) s ∧
  (∃ stored,
     (VObject c, stored) ∈ es ∧ Map_get es (VObject c) = stored ∧
     (Map_has es (VObject p) = false →
      DimmerMap.get this (VObject p) s = proxify stored s ∧
      DimmerMap.get this (VObject c) s = proxify stored s)) ∧
  (∀ r s1, DimmerMap.get this (VObject p) s = Ok r s1 →
           DimmerMap.get this (VObject c) s1 = Ok r s1) ∧
  (∃ storedKey delta1 s1,
     storedKey = (if Map_has es (VObject p) then VObject p else VObject c) ∧
     Map_has es storedKey = true ∧
     DimmerMap.set this (VObject p) v s = Ok (VObject this) s1 ∧
     DimmerMap.view s1 this = Some (t, delta1, Map_set es storedKey v) ∧
     Map_keys (Map_set es storedKey v) = Map_keys es ∧
     Map_get (Map_set es storedKey v) storedKey = v).
Proof.
  intros Hwf Hview Hhas Hreg.
  assert (objectToProxy s !! c = Some p) as Hc.
  { simpl in Hreg. destruct (objectToProxy s !! c); [by injection Hreg as -> | done]. }
  pose proof (wf_registry_fixpoint s c p Hwf Hc) as Hp.
  pose proof (wf_registry_original s c p Hwf Hc) as Horig.
  assert (tryGetProxy s (VObject p) = VObject p) as Hregp by (simpl; by rewrite Hp).
  assert (DimmerMap.get this (VObject p) s = DimmerMap.get this (VObject c) s) as Hsame.
  { unfold DimmerMap.get. by rewrite Hview, Hregp, Hreg, Horig. }
  assert (DimmerMap.get this (VObject c) s
          = proxify (JS_or (Map_get es (VObject p))
                           (Map_get es (asOriginal s (VObject c)))) s) as Hlookup.
  { unfold DimmerMap.get. by rewrite Hview, Hreg. }
  destruct (view_inv _ _ _ _ _ Hview) as (Hthis & Ht & Hne).
  split_and!; [done | done | | |].
  - exists (Map_get es (VObject c)).
    split_and!; [by apply Map_has_entry | done |].
    intros Hhp. rewrite Hsame, Hlookup.
    destruct (wf_registry s c p Hwf Hc) as [<-|[Ho Hraw]]; [congruence|].
    rewrite (asOriginal_raw _ _ Hraw), (Map_get_absent _ _ Hhp). done.
  - intros r s1 Hget. rewrite Hsame in Hget.
    unfold DimmerMap.get in Hget |- *. rewrite Hview in Hget.
    destruct (proxify_frame _ _ _ _ Hwf Hget) as (Hstable & Hheap & Hregs).
    assert (DimmerMap.view s1 this = Some (t, delta, es)) as ->.
    { apply view_intro.
      - rewrite Hheap; [done|]. apply (wf_heap_bound s this Hwf); eauto.
      - rewrite Hheap; [done|]. apply (wf_heap_bound s t Hwf); eauto. }
    assert (tryGetProxy s1 (VObject c) = tryGetProxy s (VObject c)) as ->.
    { simpl. by rewrite (Hregs c p Hc), Hc. }
    assert (asOriginal s1 (VObject c) = asOriginal s (VObject c)) as ->; [|done].
    unfold asOriginal. simpl.
    rewrite Hheap; [done|]. by apply (wf_registry_bound s c p Hwf).
  - set (storedKey := if Map_has es (VObject p) then VObject p else VObject c).
    assert (getKeyUsedByMap es (VObject p) (VObject p) (asOriginal s (VObject p)) = storedKey) as Hcur.
    { unfold getKeyUsedByMap, JS_and, storedKey. simpl.
      destruct (Map_has es (VObject p)) eqn:Hhp; simpl; [done|].
      destruct (wf_registry s c p Hwf Hc) as [<-|[Ho Hraw]]; [congruence|].
      rewrite (asOriginal_view _ _ _ Ho). by rewrite Hhas. }
    assert (Map_has es storedKey = true) as Hstored.
    { unfold storedKey. by destruct (Map_has es (VObject p)) eqn:Hhp. }
    assert (truthy storedKey = true) as Htruthy.
    { unfold storedKey. by destruct (Map_has es (VObject p)). }
    unfold DimmerMap.set. rewrite Hview, Hregp, Hcur. unfold JS_or. rewrite Htruthy.
    destruct (negb _); eexists storedKey, _, _;
      (split_and!; [done | done | reflexivity | by apply put_view | | ]).
    all: try (rewrite Map_keys_set; by rewrite Hstored).
    all: rewrite Map_get_set; by case_decide.
Qed.

Lemma DimmerMap_key_aliasing_witness :
  wf (example_tracked_state [(VObject 0, VString "x")]) ∧
  DimmerMap.get 3 (VObject 2) (example_tracked_state [(VObject 0, VString "x")])
  = Ok (VString "x") (example_tracked_state [(VObject 0, VString "x")]) ∧
  DimmerMap.get 3 (VObject 0) (example_tracked_state [(VObject 0, VString "x")])
  = Ok (VString "x") (example_tracked_state [(VObject 0, VString "x")]).
Proof.
  assert (wf (example_tracked_state [(VObject 0, VString "x")])) as Hwf
    by (apply (bool_decide_unpack (wf _)); by vm_compute).
  split; [exact Hwf|].
  destruct (DimmerMap_key_aliasing (example_tracked_state [(VObject 0, VString "x")]) 3 1 []
              [(VObject 0, VString "x")] 0 2 VNull Hwf eq_refl eq_refl eq_refl)
    as (_ & _ & (stored & _ & Hstored & Hget) & _).
  simpl in Hstored. subst stored. exact (Hget eq_refl).
Defined.

(** ** Writes through the map view *)

Section dimmer_map_writes.
Implicit Types (s : state) (v key : value) (a p t this : addr) (es delta : list (value * value)).

Lemma get_view s this t delta es key :
  DimmerMap.view s this = Some (t, delta, es) →
  DimmerMap.get this key s =
    proxify (JS_or (JS_and (tryGetProxy s key) (Map_get es (tryGetProxy s key)))
                   (Map_get es (asOriginal s key))) s.
Proof. intros Hview. unfold DimmerMap.get. by rewrite Hview. Qed.

(** [set], seen from the view: the open patch and the target afterwards. *)
Lemma set_view s this t delta es key v :
  DimmerMap.view s this = Some (t, delta, es) →
  ∃ s1,
    DimmerMap.set this key v s = Ok (VObject this) s1 ∧
    DimmerMap.view s1 this =
      Some (t,
            (if negb (Map_has delta (asOriginal s key)
                      || (truthy (tryGetProxy s key) && Map_has delta (tryGetProxy s key)))
             then (if truthy (getKeyUsedByMap_default s es key)
                   then Map_set delta (getKeyUsedByMap_default s es key)
                                (Map_get es (getKeyUsedByMap_default s es key))
                   else Map_set delta key NO_ENTRY)
             else delta),
            Map_set es (JS_or (getKeyUsedByMap_default s es key) key) v) ∧
    same_links s s1 ∧
    nextAddr s1 = nextAddr s ∧
    patchToTarget s1 = patchToTarget s ∧
    (∀ x, x ≠ this → x ≠ t → heap s1 !! x = heap s !! x).
Proof.
  intros Hview. destruct (view_inv _ _ _ _ _ Hview) as (Hthis & Ht & Hne).
  unfold DimmerMap.set, getKeyUsedByMap_default. rewrite Hview.
  destruct (negb _) eqn:Hrec; eexists; (split; [reflexivity|]).
  - split_and!; try done.
    + by apply put_view.
    + by apply (put_links s _ this t delta es).
    + intros x Hx1 Hx2. simpl. by rewrite !lookup_insert_ne.
  - split_and!; try done.
    + by apply put_view.
    + by apply (put_links s _ this t delta es).
    + intros x Hx1 Hx2. simpl. by rewrite !lookup_insert_ne.
Qed.

(** [commitDelta], seen from the view. *)
Lemma commitDelta_view s this t delta es :
  wf s →
  DimmerMap.view s this = Some (t, delta, es) →
  ∃ s1,
    DimmerMap.commitDelta this s = Ok (nextAddr s) s1 ∧
    heap s1 !! nextAddr s = Some (Map_ delta) ∧
    patchToTarget s1 !! nextAddr s = Some t ∧
    DimmerMap.view s1 this = Some (t, [], es) ∧
    same_links s s1.
Proof.
  intros Hwf Hview. destruct (view_inv _ _ _ _ _ Hview) as (Hthis & Ht & Hne).
  pose proof (wf_heap_bound s this Hwf (mk_is_Some _ _ Hthis)) as Hb1.
  pose proof (wf_heap_bound s t Hwf (mk_is_Some _ _ Ht)) as Hb2.
  unfold DimmerMap.commitDelta. rewrite Hthis. simpl.
  eexists. split; [reflexivity|]. simpl. split_and!.
  - rewrite lookup_insert_ne by lia. apply lookup_insert_eq.
  - apply lookup_insert_eq.
  - apply view_intro; simpl.
    + apply lookup_insert_eq.
    + rewrite lookup_insert_ne by done. rewrite lookup_insert_ne by lia. done.
  - split; [done|]. intros [| | | | | |x]; try done. simpl.
    destruct (decide (x = this)) as [->|Hx1]; [by rewrite lookup_insert_eq, Hthis|].
    rewrite lookup_insert_ne by done.
    destruct (decide (x = nextAddr s)) as [->|Hx2]; [|by rewrite lookup_insert_ne].
    rewrite lookup_insert_eq.
    destruct (heap s !! nextAddr s) eqn:Hn; [|done].
    pose proof (wf_heap_bound s _ Hwf (mk_is_Some _ _ Hn)). lia.
Qed.

Lemma same_links_trans s s1 s2 : same_links s s1 → same_links s1 s2 → same_links s s2.
Proof. intros [H1 H2] [H3 H4]. split; [congruence|]. intros v. by rewrite H4, H2. Qed.

Lemma same_links_wf s s1 :
  wf s → same_links s s1 → nextAddr s ≤ nextAddr s1 →
  (∀ x, is_Some (heap s1 !! x) → x < nextAddr s1) → wf s1.
Proof.
  intros Hwf [Hr Ho] Hn Hb. split.
  - intros x o Hx. split; [apply Hb; eauto|].
    rewrite Ho, Hr. by apply wf_view_registered.
  - intros x q. rewrite Hr. intros Hx. split.
    + pose proof (wf_registry_bound s x q Hwf Hx). lia.
    + rewrite !Ho. by apply wf_registry.
Qed.

Lemma set_wf s this key v r s1 : wf s → DimmerMap.set this key v s = Ok r s1 → wf s1.
Proof.
  intros Hwf Hset.
  destruct (DimmerMap.view s this) as [[[t delta] es]|] eqn:Hview.
  - destruct (set_view s this t delta es key v Hview) as (s1' & Heq & _ & Hl & Hn & _ & Hh).
    rewrite Heq in Hset. injection Hset as <- <-.
    destruct (view_inv _ _ _ _ _ Hview) as (Hthis & Ht & Hne).
    apply (same_links_wf s); [done | done | lia |].
    intros x Hx. rewrite Hn.
    destruct (decide (x = this)) as [->|Hx1]; [apply (wf_heap_bound s this Hwf); eauto|].
    destruct (decide (x = t)) as [->|Hx2]; [apply (wf_heap_bound s t Hwf); eauto|].
    rewrite Hh in Hx by done. by apply wf_heap_bound.
  - unfold DimmerMap.set in Hset. by rewrite Hview in Hset.
Qed.

End dimmer_map_writes.

(** ** First write wins *)

Section first_write.
Implicit Types (s : state) (v key pk ok r : value) (es delta : list (value * value)).







End first_write.


(** It also fails for a key whose value is a container: [get] returns the
    tracking view of the container (here made at address 3), and the
    committed patch holds the container itself. *)
Lemma first_write_wins_container_value :
  ¬ first_write_wins_as_stated example_container_value_state 2
      (VString "a") (VNumber 1) (VNumber 2).
Proof.
  intros H.
  destruct (H (VObject 3)
              (state_of (DimmerMap.get 2 (VString "a") example_container_value_state))
              eq_refl)
    as (r1 & s1 & r2 & s2 & patch & s3 & committed & s4 & H1 & H2 & H3 & H4 & H5 & _).
  vm_compute in H1. injection H1 as <- <-.
  vm_compute in H2. injection H2 as <- <-.
  vm_compute in H3. injection H3 as <- <-.
  vm_compute in H4. injection H4 as <-.
  vm_compute in H5. discriminate.
Qed.



(** The same guard in [set]: the first write to an entry stored under the
    falsy key [0] snapshots [NO_ENTRY], not the value the target held. *)
Lemma set_falsy_key_records_no_entry :
  ∃ s1 patch s2,
    DimmerMap.set 1 (VNumber 0) (VString "b") (example_map_view [(VNumber 0, VString "a")])
      = Ok (VObject 1) s1 ∧
    DimmerMap.commitDelta 1 s1 = Ok patch s2 ∧
    heap s2 !! patch = Some (Map_ [(VNumber 0, NO_ENTRY)]) ∧
    heap s2 !! 0 = Some (Map_ [(VNumber 0, VString "b")]).
Proof.
  eexists _, _, _. split; [by vm_compute|]. split; [by vm_compute|].
  split; reflexivity.
Qed.

(** ** Deleting through the map view *)

Section dimmer_map_delete.
Implicit Types (s : state) (v key : value) (t this : addr) (es delta : list (value * value)).

(** [delete] does nothing and answers false as soon as the resolved key is
    falsy: when there is no entry, and also when the entry is stored under
    a falsy key. *)
Lemma delete_unresolved s this t delta es key :
  DimmerMap.view s this = Some (t, delta, es) →
  truthy (getKeyUsedByMap_default s es key) = false →
  DimmerMap.delete this key s = Ok false s.
Proof.
  intros Hview Hf. unfold DimmerMap.delete. rewrite Hview.
  unfold getKeyUsedByMap_default in Hf. by rewrite Hf.
Qed.

(** With a truthy resolved key, [delete] snapshots the entry unless the
    open patch has it, and removes it. *)
Lemma delete_resolved s this t delta es key :
  DimmerMap.view s this = Some (t, delta, es) →
  truthy (getKeyUsedByMap_default s es key) = true →
  ∃ s1,
    DimmerMap.delete this key s = Ok true s1 ∧
    DimmerMap.view s1 this =
      Some (t,
            (if Map_has delta (asOriginal s key)
                || (truthy (tryGetProxy s key) && Map_has delta (tryGetProxy s key))
             then delta
             else Map_set delta (getKeyUsedByMap_default s es key)
                          (Map_get es (getKeyUsedByMap_default s es key))),
            Map_delete es (getKeyUsedByMap_default s es key)) ∧
    Map_has (Map_delete es (getKeyUsedByMap_default s es key))
            (getKeyUsedByMap_default s es key) = false.
Proof.
  intros Hview Ht. destruct (view_inv _ _ _ _ _ Hview) as (Hthis & Htarget & Hne).
  destruct (getKeyUsedByMap_truthy es key _ _ _ eq_refl Ht) as [Hhas _].
  unfold DimmerMap.delete. rewrite Hview.
  unfold getKeyUsedByMap_default in *. rewrite Ht, Hhas.
  destruct (Map_has delta _ || _); simpl; eexists;
    (split_and!; [reflexivity | by apply put_view |]);
    rewrite Map_has_delete; by rewrite decide_True.
Qed.

End dimmer_map_delete.

(** C7 — on the map with the single entry [0 ↦ "a"], [delete(0)] through
    the view answers false and changes nothing, although the key resolves
    to that entry: [getKeyUsedByMap] returns the stored key [0], which the
    guard [if (currentKeyUsedByTarget)] takes for "no entry". *)
Theorem DimmerMap_delete_falsy_key :
  DimmerMap.view (example_map_view [(VNumber 0, VString "a")]) 1
    = Some (0, [], [(VNumber 0, VString "a")]) ∧
  Map_has [(VNumber 0, VString "a")] (VNumber 0) = true ∧
  getKeyUsedByMap_default (example_map_view [(VNumber 0, VString "a")])
    [(VNumber 0, VString "a")] (VNumber 0) = VNumber 0 ∧
  DimmerMap.delete 1 (VNumber 0) (example_map_view [(VNumber 0, VString "a")])
    = Ok false (example_map_view [(VNumber 0, VString "a")]).
Proof. split_and!; reflexivity. Qed.

(** ** Undoing a map patch *)

Lemma undo_map_entry_prior s target key v :
  v ≠ NO_ENTRY →
  undo_map_entry s target (key, v) =
    Map_set (if bool_decide (getKeyUsedByMap_default s target key ≠ VUndefined)
                && bool_decide (key ≠ getKeyUsedByMap_default s target key)
             then Map_delete target (getKeyUsedByMap_default s target key)
             else target) key v.
Proof. intros Hv. unfold undo_map_entry. by rewrite bool_decide_true. Qed.

(** For a [NO_ENTRY] pre-image the patch key is deleted as it is: the
    resolved key is computed and not used. *)
Lemma undo_map_entry_no_entry s target key :
  undo_map_entry s target (key, NO_ENTRY) = Map_delete target key.
Proof. unfold undo_map_entry. by rewrite bool_decide_false by (by intros H). Qed.

(** C4 — a scope on the empty map [m], with a container [c] and its view
    [p]: [m.set(c, 1); m.delete(c); m.set(p, 2)].  The committed patch is
    [c ↦ NO_ENTRY] and the target holds [p ↦ 2].  [undoPatch] resolves the
    patch key [c] to the stored key [p] and then deletes [c]: the entry
    stays, and the map is not back to empty. *)
Theorem undoPatch_no_entry_ignores_resolved_key :
  heap (example_tracked_state []) !! 1 = Some (Map_ []) ∧
  ∃ patch s',
    undo_alias_scenario (example_tracked_state []) = Ok patch s' ∧
    heap s' !! patch = Some (Map_ [(VObject 0, NO_ENTRY)]) ∧
    patchToTarget s' !! patch = Some 1 ∧
    getKeyUsedByMap_default s' [(VObject 2, VNumber 2)] (VObject 0) = VObject 2 ∧
    heap s' !! 1 = Some (Map_ [(VObject 2, VNumber 2)]).
Proof.
  split; [reflexivity|].
  eexists _, _. split; [by vm_compute|]. split_and!; reflexivity.
Qed.

(** ** The reverse patch *)

Section reverse_patch.
Implicit Types (s : state) (k v : value) (es l acc : list (value * value)) (ks held : list value).

Lemma Map_lookup_set es k v k' :
  Map_lookup (Map_set es k v) k' = if decide (k' = k) then Some v else Map_lookup es k'.
Proof. unfold Map_lookup. rewrite Map_has_set, Map_get_set. by case_decide. Qed.

Lemma Map_lookup_delete es k k' :
  Map_lookup (Map_delete es k) k' = if decide (k' = k) then None else Map_lookup es k'.
Proof. unfold Map_lookup. rewrite Map_has_delete, Map_get_delete. by case_decide. Qed.

(** *** Filling a reverse patch *)

Lemma fill_lookup f ks : ∀ acc k,
  Map_lookup (fill f ks acc) k = if decide (k ∈ ks) then Some (f k) else Map_lookup acc k.
Proof.
  unfold fill. induction ks as [|k0 ks IH]; intros acc k; cbn [fold_left].
  - rewrite decide_False; [done | apply not_elem_of_nil].
  - rewrite IH, Map_lookup_set.
    destruct (decide (k ∈ ks)) as [Hin|Hout].
    + rewrite decide_True; [done | by right].
    + destruct (decide (k = k0)) as [->|Hne].
      * rewrite decide_True; [done | by left].
      * rewrite decide_False; [done|]. by intros [?|?]%elem_of_cons.
Qed.

Lemma fill_NoDup f ks : ∀ acc, NoDup (Map_keys acc) → NoDup (Map_keys (fill f ks acc)).
Proof.
  unfold fill. induction ks as [|k0 ks IH]; intros acc Hnd; simpl; [done|].
  by apply IH, Map_set_NoDup.
Qed.

Lemma fill_keys f ks k : k ∈ Map_keys (fill f ks []) ↔ k ∈ ks.
Proof.
  rewrite <- Map_has_elem_of.
  pose proof (fill_lookup f ks [] k) as H. unfold Map_lookup in H.
  destruct (Map_has (fill f ks []) k); case_decide; simpl in *; naive_solver.
Qed.

Lemma reverse_map_fill target ks : ∀ acc,
  fold_left (reverse_map_key target) ks acc = fill (current_value (Map_ target)) ks acc.
Proof.
  unfold fill. induction ks as [|k0 ks IH]; intros acc; simpl; [done|].
  rewrite IH. f_equal. unfold reverse_map_key. by destruct (Map_has target k0).
Qed.

Lemma reverse_set_fill (target : list value) ks : ∀ acc,
  fold_left (reverse_set_key target) ks acc = fill (current_value (Set_ target)) ks acc.
Proof. done. Qed.

Lemma reverse_object_fill target ks :
  (∀ k, k ∈ ks → ∃ name, k = VString name) →
  ∀ acc, fold_left (reverse_object_key target) ks (Some acc)
         = Some (fill (current_value (Object_ target)) ks acc).
Proof.
  unfold fill. induction ks as [|k0 ks IH]; intros Hks acc; simpl; [done|].
  destruct (Hks k0) as [name ->]; [by left|]. simpl.
  apply IH. intros k Hk. apply Hks. by right.
Qed.

(** *** Undoing a map patch whose keys are not aliased *)

Lemma undo_map_entry_unaliased s held target k v :
  unaliased s held k → Map_keys target ⊆ held →
  undo_map_entry s target (k, v) = undo_simple target (k, v).
Proof.
  intros Hun Hsub. unfold undo_map_entry, undo_simple. simpl.
  destruct (bool_decide (v ≠ NO_ENTRY)); [|done].
  assert (getKeyUsedByMap_default s target k = VUndefined ∨
          getKeyUsedByMap_default s target k = k) as [->| ->].
  { unfold getKeyUsedByMap_default, getKeyUsedByMap, JS_and.
    destruct (truthy (tryGetProxy s k)) eqn:Htp; simpl.
    - destruct (Map_has target (tryGetProxy s k)) eqn:Hh; simpl.
      + right. destruct (decide (tryGetProxy s k = k)) as [|Hne]; [done|].
        destruct (Hun (tryGetProxy s k)); [by left | done |].
        by apply Hsub, Map_has_elem_of.
      + destruct (Map_has target (asOriginal s k)) eqn:Ho; [|by left].
        right. destruct (decide (asOriginal s k = k)) as [|Hne]; [done|].
        destruct (Hun (asOriginal s k)); [by right | done |].
        by apply Hsub, Map_has_elem_of.
    - rewrite Htp.
      destruct (Map_has target (asOriginal s k)) eqn:Ho; [|by left].
      right. destruct (decide (asOriginal s k = k)) as [|Hne]; [done|].
      destruct (Hun (asOriginal s k)); [by right | done |].
      by apply Hsub, Map_has_elem_of. }
  - by rewrite bool_decide_false by (by intros H).
  - rewrite (bool_decide_false (k ≠ k)) by (by intros H). by rewrite andb_false_r.
Qed.

Lemma undo_simple_keys target e : Map_keys (undo_simple target e) ⊆ Map_keys target ++ [e.1].
Proof.
  unfold undo_simple. destruct (bool_decide _).
  - rewrite Map_keys_set. destruct (Map_has target e.1); [|done].
    intros x Hx. apply elem_of_app. by left.
  - intros x Hx%Map_keys_delete. apply elem_of_app. by left.
Qed.

Lemma fold_undo_unaliased s held l : ∀ target,
  (∀ k, k ∈ Map_keys l → unaliased s held k) →
  Map_keys target ⊆ held → Map_keys l ⊆ held →
  fold_left (undo_map_entry s) l target = fold_left undo_simple l target.
Proof.
  induction l as [|[k v] l IH]; intros target Hun Hsub Hl; cbn [fold_left]; [done|].
  rewrite (undo_map_entry_unaliased s held); [|apply Hun; by left|done].
  apply IH.
  - intros k' Hk'. apply Hun. by right.
  - intros x Hx%undo_simple_keys. apply elem_of_app in Hx as [Hx|Hx%list_elem_of_singleton].
    + by apply Hsub.
    + subst. apply Hl. by left.
  - intros x Hx. apply Hl. by right.
Qed.

Lemma undo_simple_lookup target k v k' :
  Map_lookup (undo_simple target (k, v)) k' =
    if decide (k' = k) then (if decide (v = NO_ENTRY) then None else Some v)
    else Map_lookup target k'.
Proof.
  unfold undo_simple. simpl. destruct (decide (v = NO_ENTRY)) as [->|Hv].
  - rewrite bool_decide_false by (by intros H). apply Map_lookup_delete.
  - rewrite bool_decide_true by done. apply Map_lookup_set.
Qed.

Lemma fold_undo_simple_other l : ∀ target k,
  k ∉ Map_keys l → Map_lookup (fold_left undo_simple l target) k = Map_lookup target k.
Proof.
  induction l as [|[k0 v0] l IH]; intros target k Hk; cbn [fold_left]; [done|].
  apply not_elem_of_cons in Hk as [Hne Hk].
  rewrite IH by done. rewrite undo_simple_lookup. by rewrite decide_False.
Qed.

Lemma fold_undo_simple_NoDup l : ∀ target k,
  NoDup (Map_keys l) → k ∈ Map_keys l →
  Map_lookup (fold_left undo_simple l target) k =
    if decide (Map_get l k = NO_ENTRY) then None else Some (Map_get l k).
Proof.
  induction l as [|[k0 v0] l IH]; intros target k Hnd Hk; cbn [fold_left].
  { by apply elem_of_nil in Hk. }
  apply NoDup_cons in Hnd as [Hk0 Hnd]. cbn [Map_get].
  destruct (decide (k = k0)) as [->|Hne].
  - rewrite fold_undo_simple_other by done.
    rewrite undo_simple_lookup. by rewrite decide_True.
  - apply elem_of_cons in Hk as [?|Hk]; [done|]. by apply IH.
Qed.

End reverse_patch.

Section reverse_laws.
Implicit Types (k v : value) (es l mp : list (value * value)) (ms : list value)
  (ps : list (string * value)).

(** *** Maps *)

Lemma map_reverse_law es mp :
  (∀ k, k ∈ Map_keys mp → Map_get es k ≠ NO_ENTRY) →
  ∀ k, Map_lookup (fold_left undo_simple (fill (current_value (Map_ es)) (Map_keys mp) [])
                     (fold_left undo_simple mp es)) k
       = Map_lookup es k.
Proof.
  intros Hne k. set (rp := fill (current_value (Map_ es)) (Map_keys mp) []).
  pose proof (fill_lookup (current_value (Map_ es)) (Map_keys mp) [] k) as Hrp.
  fold rp in Hrp.
  destruct (decide (k ∈ Map_keys mp)) as [Hin|Hout].
  - rewrite fold_undo_simple_NoDup;
      [|by apply fill_NoDup, NoDup_nil|by apply fill_keys].
    unfold Map_lookup in Hrp |- *.
    destruct (Map_has rp k); [|done]. injection Hrp as ->. simpl.
    destruct (Map_has es k) eqn:Hh.
    + rewrite decide_False; [done | by apply Hne].
    + by rewrite decide_True.
  - rewrite fold_undo_simple_other by (unfold rp; by rewrite fill_keys).
    by apply fold_undo_simple_other.
Qed.

(** *** Sets *)

Lemma Set_has_add ms k k' :
  Set_has (Set_add ms k) k' = if decide (k' = k) then true else Set_has ms k'.
Proof.
  unfold Set_add, Set_has.
  destruct (decide (k' = k)) as [->|Hne]; destruct (bool_decide (k ∈ ms)) eqn:Hk; try done.
  - apply bool_decide_eq_true, elem_of_app. right. by apply list_elem_of_singleton.
  - apply bool_decide_ext. rewrite elem_of_app, list_elem_of_singleton. intuition congruence.
Qed.

Lemma Set_has_delete ms k k' :
  Set_has (Set_delete ms k) k' = if decide (k' = k) then false else Set_has ms k'.
Proof.
  unfold Set_delete, Set_has. destruct (decide (k' = k)) as [->|Hne].
  - apply bool_decide_eq_false. rewrite list_elem_of_filter. intuition congruence.
  - apply bool_decide_ext. rewrite list_elem_of_filter. intuition congruence.
Qed.

Lemma undo_set_entry_has ms k v k' :
  Set_has (undo_set_entry ms (k, v)) k' = if decide (k' = k) then truthy v else Set_has ms k'.
Proof.
  unfold undo_set_entry. destruct (truthy v).
  - apply Set_has_add.
  - apply Set_has_delete.
Qed.

Lemma fold_undo_set_other l : ∀ ms k,
  k ∉ Map_keys l → Set_has (fold_left undo_set_entry l ms) k = Set_has ms k.
Proof.
  induction l as [|[k0 v0] l IH]; intros ms k Hk; cbn [fold_left]; [done|].
  apply not_elem_of_cons in Hk as [Hne Hk].
  rewrite IH by done. rewrite undo_set_entry_has. by rewrite decide_False.
Qed.

Lemma fold_undo_set_NoDup l : ∀ ms k,
  NoDup (Map_keys l) → k ∈ Map_keys l →
  Set_has (fold_left undo_set_entry l ms) k = truthy (Map_get l k).
Proof.
  induction l as [|[k0 v0] l IH]; intros ms k Hnd Hk; cbn [fold_left].
  { by apply elem_of_nil in Hk. }
  apply NoDup_cons in Hnd as [Hk0 Hnd]. cbn [Map_get].
  destruct (decide (k = k0)) as [->|Hne].
  - rewrite fold_undo_set_other by done.
    rewrite undo_set_entry_has. by rewrite decide_True.
  - apply elem_of_cons in Hk as [?|Hk]; [done|]. by apply IH.
Qed.

Lemma set_reverse_law ms l :
  ∀ k, Set_has (fold_left undo_set_entry (fill (current_value (Set_ ms)) (Map_keys l) [])
                  (fold_left undo_set_entry l ms)) k
       = Set_has ms k.
Proof.
  intros k. set (rp := fill (current_value (Set_ ms)) (Map_keys l) []).
  pose proof (fill_lookup (current_value (Set_ ms)) (Map_keys l) [] k) as Hrp.
  fold rp in Hrp.
  destruct (decide (k ∈ Map_keys l)) as [Hin|Hout].
  - rewrite fold_undo_set_NoDup;
      [|by apply fill_NoDup, NoDup_nil|by apply fill_keys].
    unfold Map_lookup in Hrp. destruct (Map_has rp k); [|done]. by injection Hrp as ->.
  - rewrite fold_undo_set_other by (unfold rp; by rewrite fill_keys).
    by apply fold_undo_set_other.
Qed.

(** *** Arrays *)

Lemma Array_set_length_length n (xs : list value) : length (Array_set_length n xs) = n.
Proof. unfold Array_set_length. rewrite length_app, length_take, length_replicate. lia. Qed.

Lemma Array_store_in_range (xs : list value) i x :
  i < length xs → Array_store xs i x = <[i := x]> xs.
Proof. intros Hi. unfold Array_store. by rewrite decide_True. Qed.

Lemma array_copy_prefix (src l0 : list value) m :
  length l0 = length src → m ≤ length src →
  let g := fold_left (λ t i, Array_store t i (Array_load src i)) (seq 0 m) l0 in
  length g = length src ∧
  ∀ j, g !! j = if decide (j < m) then src !! j else l0 !! j.
Proof.
  intros Hlen. induction m as [|m IH]; intros Hm; cbv zeta.
  - cbn [seq fold_left]. split; [done|]. intros j. by rewrite decide_False by lia.
  - rewrite seq_S, fold_left_app. cbn [fold_left]. change (0 + m) with m.
    destruct IH as [IHlen IHget]; [lia|].
    rewrite Array_store_in_range by lia.
    split; [by rewrite length_insert|].
    intros j. destruct (decide (j = m)) as [->|Hne].
    + rewrite list_lookup_insert_eq by lia. rewrite decide_True by lia.
      unfold Array_load. destruct (src !! m) eqn:Hs; [done|].
      apply lookup_ge_None in Hs. lia.
    + rewrite list_lookup_insert_ne by done. rewrite IHget.
      repeat case_decide; try done; lia.
Qed.

Lemma array_copy (src l0 : list value) :
  length l0 = length src →
  fold_left (λ t i, Array_store t i (Array_load src i)) (seq 0 (length src)) l0 = src.
Proof.
  intros Hlen.
  destruct (array_copy_prefix src l0 (length src) Hlen) as [Hl Hget]; [done|].
  apply list_eq. intros j. rewrite Hget. case_decide as Hj; [done|].
  rewrite !lookup_ge_None_2; [done | lia | lia].
Qed.

Lemma undo_array_copies (arrayPatch target : list value) : undo_array arrayPatch target = arrayPatch.
Proof. unfold undo_array. apply array_copy, Array_set_length_length. Qed.

Lemma reverse_array_copies (target : list value) : reverse_array target = target.
Proof. unfold reverse_array. apply array_copy, Array_set_length_length. Qed.

(** *** Plain objects *)

Lemma prop_get_set ps name v name' :
  prop_get (prop_set ps name v) name' = if decide (name' = name) then v else prop_get ps name'.
Proof.
  induction ps as [|[k0 v0] r IH]; simpl.
  - by repeat case_decide.
  - repeat (case_decide; simpl; subst); try done; rewrite IH; by case_decide.
Qed.

Lemma undo_object_names l : ∀ ps,
  (∀ k, k ∈ Map_keys l → ∃ name, k = VString name) →
  fold_left undo_object_entry l (Some ps) = Some (fold_left undo_prop l ps).
Proof.
  induction l as [|[k0 v0] l IH]; intros ps Hl; cbn [fold_left]; [done|].
  destruct (Hl k0) as [name ->]; [by left|]. simpl.
  apply IH. intros k Hk. apply Hl. by right.
Qed.

Lemma fold_undo_prop_other l : ∀ ps name,
  (∀ k, k ∈ Map_keys l → ∃ n, k = VString n) →
  VString name ∉ Map_keys l → prop_get (fold_left undo_prop l ps) name = prop_get ps name.
Proof.
  induction l as [|[k0 v0] l IH]; intros ps name Hl Hk; cbn [fold_left]; [done|].
  apply not_elem_of_cons in Hk as [Hne Hk].
  rewrite IH; [|intros k Hk'; apply Hl; by right|done].
  unfold undo_prop. rewrite prop_get_set. simpl.
  destruct (Hl k0) as [n ->]; [by left|]. simpl.
  simpl in Hne. rewrite decide_False; [done | by intros ->].
Qed.

Lemma fold_undo_prop_NoDup l : ∀ ps name,
  (∀ k, k ∈ Map_keys l → ∃ n, k = VString n) →
  NoDup (Map_keys l) → VString name ∈ Map_keys l →
  prop_get (fold_left undo_prop l ps) name = Map_get l (VString name).
Proof.
  induction l as [|[k0 v0] l IH]; intros ps name Hl Hnd Hk; cbn [fold_left].
  { by apply elem_of_nil in Hk. }
  apply NoDup_cons in Hnd as [Hk0 Hnd]. cbn [Map_get].
  destruct (decide (VString name = k0)) as [<-|Hne].
  - rewrite fold_undo_prop_other; [|intros k Hk'; apply Hl; by right|done].
    unfold undo_prop. rewrite prop_get_set. simpl. by rewrite decide_True.
  - apply elem_of_cons in Hk as [?|Hk]; [done|].
    apply IH; [intros k Hk'; apply Hl; by right|done|done].
Qed.

Lemma object_reverse_law ps l :
  (∀ k, k ∈ Map_keys l → ∃ n, k = VString n) →
  ∀ name, prop_get (fold_left undo_prop (fill (current_value (Object_ ps)) (Map_keys l) [])
                      (fold_left undo_prop l ps)) name
          = prop_get ps name.
Proof.
  intros Hl name. set (rp := fill (current_value (Object_ ps)) (Map_keys l) []).
  pose proof (fill_lookup (current_value (Object_ ps)) (Map_keys l) [] (VString name)) as Hrp.
  fold rp in Hrp.
  assert (∀ k, k ∈ Map_keys rp → ∃ n, k = VString n) as Hrpk.
  { intros k Hk%fill_keys. by apply Hl. }
  destruct (decide (VString name ∈ Map_keys l)) as [Hin|Hout].
  - rewrite fold_undo_prop_NoDup;
      [|done|by apply fill_NoDup, NoDup_nil|by apply fill_keys].
    unfold Map_lookup in Hrp. destruct (Map_has rp (VString name)); [|done].
    by injection Hrp as ->.
  - rewrite fold_undo_prop_other; [|done|unfold rp; by rewrite fill_keys].
    by apply fold_undo_prop_other.
Qed.

End reverse_laws.

(** ** The reverse-patch law *)

Section reverse_patch_plumbing.
Implicit Types (s : state) (k v : value) (es l mp : list (value * value)).

Lemma raw_update_links s s1 a o :
  objectToProxy s1 = objectToProxy s → heap s1 = <[a := o]> (heap s) →
  is_raw o = true → ORIGINAL s (VObject a) = VUndefined → same_links s s1.
Proof.
  intros Hr Hh Hraw Ha. split; [done|].
  intros [| | | | | |x]; try done.
  destruct (decide (x = a)) as [->|Hne].
  - rewrite Ha. simpl. rewrite Hh, lookup_insert_eq. by destruct o.
  - simpl. by rewrite Hh, lookup_insert_ne.
Qed.

Lemma unaliased_links s s1 held k : same_links s s1 → unaliased s held k → unaliased s1 held k.
Proof.
  intros Hl Hun a. rewrite (same_links_tryGetProxy _ _ _ Hl), (same_links_asOriginal _ _ _ Hl).
  apply Hun.
Qed.

Lemma fold_undo_simple_keys l : ∀ target,
  Map_keys (fold_left undo_simple l target) ⊆ Map_keys target ++ Map_keys l.
Proof.
  induction l as [|[k0 v0] l IH]; intros target; cbn [fold_left].
  - intros x Hx. apply elem_of_app. by left.
  - intros x Hx%IH. unfold Map_keys at 2. rewrite fmap_cons. simpl.
    apply elem_of_app in Hx as [Hx%undo_simple_keys|Hx].
    + apply elem_of_app in Hx as [Hx|Hx%list_elem_of_singleton].
      * apply elem_of_app. by left.
      * subst. apply elem_of_app. right. by left.
    + apply elem_of_app. right. by right.
Qed.

Lemma ORIGINAL_unallocated s a : heap s !! a = None → ORIGINAL s (VObject a) = VUndefined.
Proof. intros H. simpl. by rewrite H. Qed.

Lemma ORIGINAL_raw s a o : heap s !! a = Some o → is_raw o = true → ORIGINAL s (VObject a) = VUndefined.
Proof. intros H Hraw. simpl. rewrite H. by destruct o. Qed.

Lemma wf_next_unallocated s : wf s → heap s !! nextAddr s = None.
Proof.
  intros Hwf. destruct (heap s !! nextAddr s) eqn:H; [|done].
  pose proof (wf_heap_bound s _ Hwf (mk_is_Some _ _ H)). lia.
Qed.

(** Both undo loops on a map with unaliased patch keys. *)
Lemma map_undo_twice s1 s2 held es mp :
  (∀ k, k ∈ Map_keys mp → unaliased s1 held k ∧ unaliased s2 held k) →
  Map_keys es ++ Map_keys mp ⊆ held →
  fold_left (undo_map_entry s2) (fill (current_value (Map_ es)) (Map_keys mp) [])
    (fold_left (undo_map_entry s1) mp es)
  = fold_left undo_simple (fill (current_value (Map_ es)) (Map_keys mp) [])
      (fold_left undo_simple mp es).
Proof.
  intros Hun Hsub.
  rewrite (fold_undo_unaliased s1 held mp).
  - apply (fold_undo_unaliased s2 held).
    + intros k Hk%fill_keys. by apply Hun.
    + intros x Hx%fold_undo_simple_keys. by apply Hsub.
    + intros x Hx%fill_keys. apply Hsub, elem_of_app. by right.
  - intros k Hk. by apply Hun.
  - intros x Hx. apply Hsub, elem_of_app. by left.
  - intros x Hx. apply Hsub, elem_of_app. by right.
Qed.

End reverse_patch_plumbing.

(** C3, as stated, fails on a plain object that lost a property during
    the scope.  The reverse patch of [a ↦ 1] records undefined, not
    [NO_ENTRY], for the property that is no longer present, and undoing
    it assigns undefined: the object ends with an own property [a], which
    it did not have right after the mutation. *)
Lemma reverse_patch_deleted_property :
  wf example_deleted_property_state ∧
  heap example_deleted_property_state !! 0 = Some (Object_ []) ∧
  ∃ reverse s1 s2 s3,
    createReversePatch 1 example_deleted_property_state = Ok reverse s1 ∧
    heap s1 !! reverse = Some (Map_ [(VString "a", VUndefined)]) ∧
    undoPatch 1 s1 = Ok tt s2 ∧
    undoPatch reverse s2 = Ok tt s3 ∧
    heap s3 !! 0 = Some (Object_ [("a", VUndefined)]) ∧
    heap s3 !! 0 ≠ heap example_deleted_property_state !! 0.
Proof.
  split; [apply (bool_decide_unpack (wf _)); by vm_compute|].
  split; [reflexivity|].
  eexists _, _, _, _.
  split; [by vm_compute|]. split; [reflexivity|].
  split; [by vm_compute|].
  split; [by vm_compute|].
  split; [reflexivity|]. by vm_compute.
Qed.

(** The law also fails on a map whose entry changed identity during the
    scope.  The map [m] at 1 holds [c ↦ 7] for the container [c] at 0,
    whose view [p] is at 2.  The scope does [m.delete(c); m.set(p, 8)] and
    commits the patch [c ↦ 7], leaving [p ↦ 8] in [m].  The reverse patch
    is computed with [target.has(c)], without key resolution, so it is
    [c ↦ NO_ENTRY]; after both undos the map is empty, not [p ↦ 8]. *)
Lemma reverse_patch_aliased_key :
  ∃ s patch reverse s1 s2 s3,
    (let* _ := DimmerMap.delete 3 (VObject 0) in
     let* _ := DimmerMap.set 3 (VObject 2) (VNumber 8) in
     DimmerMap.commitDelta 3) (example_tracked_state [(VObject 0, VNumber 7)]) = Ok patch s ∧
    heap s !! patch = Some (Map_ [(VObject 0, VNumber 7)]) ∧
    patchToTarget s !! patch = Some 1 ∧
    heap s !! 1 = Some (Map_ [(VObject 2, VNumber 8)]) ∧
    createReversePatch patch s = Ok reverse s1 ∧
    heap s1 !! reverse = Some (Map_ [(VObject 0, NO_ENTRY)]) ∧
    undoPatch patch s1 = Ok tt s2 ∧
    heap s2 !! 1 = Some (Map_ [(VObject 0, VNumber 7)]) ∧
    undoPatch reverse s2 = Ok tt s3 ∧
    heap s3 !! 1 = Some (Map_ []) ∧
    ¬ same_contents (Map_ []) (Map_ [(VObject 2, VNumber 8)]).
Proof.
  eexists _, _, _, _, _, _.
  split; [by vm_compute|].
  split; [reflexivity|]. split; [reflexivity|]. split; [reflexivity|].
  split; [by vm_compute|].
  split; [reflexivity|].
  split; [by vm_compute|].
  split; [reflexivity|].
  split; [by vm_compute|].
  split; [reflexivity|].
  intros H. specialize (H (VObject 2)). discriminate H.
Qed.

(** C3 (amended) — the reverse-patch law.  In a well-formed state, for a
    patch of the kind of its target, distinct from it, and [reversible]
    (for a map: no key of the patch has another identity among the keys of
    the target and of the patch, and the target holds no [NO_ENTRY] value
    under a key of the patch; for a plain object: the keys of the patch
    are property names): [createReversePatch], then [undoPatch] of the
    patch, then [undoPatch] of the reverse patch all return, and the
    target ends with the contents it had at the start — the same entry
    under every key of a map, the same members of a set, the same array,
    the same value at every property name of a plain object.  The reverse
    patch maps every key of the patch to the current value of the target:
    [NO_ENTRY] for a key that a map does not hold, the membership for a
    set, undefined for a property that an object does not have; for an
    array it is a copy of the array. *)
Theorem reverse_patch_law (s : state) (patch target : addr) :
  wf s →
  patchToTarget s !! patch = Some target →
  patch ≠ target →
  reversible s patch target →
  ∃ reverse s1 s2 s3 before patched reversed after,
    createReversePatch patch s = Ok reverse s1 ∧
    undoPatch patch s1 = Ok tt s2 ∧
    undoPatch reverse s2 = Ok tt s3 ∧
    heap s !! target = Some before ∧
    heap s !! patch = Some patched ∧
    heap s1 !! reverse = Some reversed ∧
    reverse_of before patched reversed ∧
    heap s3 !! target = Some after ∧
    same_contents after before.
Proof.
  intros Hwf Hpt Hne Hrev. unfold reversible in Hrev.
  destruct (heap s !! target) as [before|] eqn:Ht; [|done].
  destruct (heap s !! patch) as [patched|] eqn:Hp; [|by destruct before].
  pose proof (wf_heap_bound s target Hwf (mk_is_Some _ _ Ht)) as Hbt.
  pose proof (wf_heap_bound s patch Hwf (mk_is_Some _ _ Hp)) as Hbp.
  pose proof (wf_next_unallocated s Hwf) as Hfresh.
  assert (∀ o, is_raw o = true →
    same_links s (set_heap <[nextAddr s := o]>
      (set_patchToTarget <[nextAddr s := target]> (alloc (Map_ []) s).2))) as Hl1m.
  { intros o Ho. apply (raw_update_links s _ (nextAddr s) o); try done.
    - simpl. apply insert_insert_eq.
    - by apply ORIGINAL_unallocated. }
  assert (∀ o, is_raw o = true →
    same_links s (set_heap <[nextAddr s := o]>
      (set_patchToTarget <[nextAddr s := target]> (alloc (Array_ []) s).2))) as Hl1a.
  { intros o Ho. apply (raw_update_links s _ (nextAddr s) o); try done.
    - simpl. apply insert_insert_eq.
    - by apply ORIGINAL_unallocated. }
  destruct before as [es|ms|xs|ps| | |]; try done;
    destruct patched as [pes|?|pxs|?| | |]; try done.
  - (* a map *)
    set (rp := fill (current_value (Map_ es)) (Map_keys pes) []).
    set (s1 := set_heap <[nextAddr s := Map_ rp]>
                 (set_patchToTarget <[nextAddr s := target]> (alloc (Map_ []) s).2)).
    set (es1 := fold_left (undo_map_entry s1) pes es).
    set (s2 := set_heap <[target := Map_ es1]> s1).
    set (es2 := fold_left (undo_map_entry s2) rp es1).
    set (s3 := set_heap <[target := Map_ es2]> s2).
    pose proof (Hl1m (Map_ rp) eq_refl) as Hl1. fold s1 in Hl1.
    assert (same_links s1 s2) as Hl12.
    { apply (raw_update_links s1 s2 target (Map_ es1)); try done.
      apply (ORIGINAL_raw s1 target (Map_ es)); [|done].
      simpl. by rewrite !lookup_insert_ne by lia. }
    exists (nextAddr s), s1, s2, s3, (Map_ es), (Map_ pes), (Map_ rp), (Map_ es2).
    split_and!; try done.
    + unfold createReversePatch. rewrite Hpt, Ht, Hp. simpl.
      by rewrite reverse_map_fill.
    + unfold undoPatch. simpl. rewrite lookup_insert_ne by lia. rewrite Hpt.
      rewrite !lookup_insert_ne by lia. by rewrite Ht, Hp.
    + unfold undoPatch. simpl. rewrite lookup_insert_eq.
      rewrite lookup_insert_eq. rewrite lookup_insert_ne by lia.
      by rewrite lookup_insert_eq.
    + simpl. apply lookup_insert_eq.
    + intros k. unfold rp. rewrite fill_lookup. by case_decide.
    + simpl. apply lookup_insert_eq.
    + simpl. intros k. unfold es2, es1, rp.
      rewrite (map_undo_twice s1 s2 (Map_keys es ++ Map_keys pes)); [| |done].
      * apply map_reverse_law. intros k' Hk'. by apply Hrev.
      * intros k' Hk'. destruct (Hrev k' Hk') as [Hun _]. split.
        -- by apply (unaliased_links s).
        -- by apply (unaliased_links s s2 _ _ (same_links_trans _ _ _ Hl1 Hl12)).
  - (* a set *)
    set (rp := fill (current_value (Set_ ms)) (Map_keys pes) []).
    set (s1 := set_heap <[nextAddr s := Map_ rp]>
                 (set_patchToTarget <[nextAddr s := target]> (alloc (Map_ []) s).2)).
    set (ms1 := fold_left undo_set_entry pes ms).
    set (s2 := set_heap <[target := Set_ ms1]> s1).
    set (ms2 := fold_left undo_set_entry rp ms1).
    set (s3 := set_heap <[target := Set_ ms2]> s2).
    exists (nextAddr s), s1, s2, s3, (Set_ ms), (Map_ pes), (Map_ rp), (Set_ ms2).
    split_and!; try done.
    + unfold createReversePatch. rewrite Hpt, Ht, Hp. simpl.
      by rewrite reverse_set_fill.
    + unfold undoPatch. simpl. rewrite lookup_insert_ne by lia. rewrite Hpt.
      rewrite !lookup_insert_ne by lia. by rewrite Ht, Hp.
    + unfold undoPatch. simpl. rewrite lookup_insert_eq.
      rewrite lookup_insert_eq. rewrite lookup_insert_ne by lia.
      by rewrite lookup_insert_eq.
    + simpl. apply lookup_insert_eq.
    + intros k. unfold rp. rewrite fill_lookup. by case_decide.
    + simpl. apply lookup_insert_eq.
    + simpl. intros k. apply set_reverse_law.
  - (* an array *)
    set (s1 := set_heap <[nextAddr s := Array_ (reverse_array xs)]>
                 (set_patchToTarget <[nextAddr s := target]> (alloc (Array_ []) s).2)).
    set (s2 := set_heap <[target := Array_ (undo_array pxs xs)]> s1).
    set (s3 := set_heap <[target := Array_ (undo_array (reverse_array xs) (undo_array pxs xs))]> s2).
    exists (nextAddr s), s1, s2, s3, (Array_ xs), (Array_ pxs), (Array_ (reverse_array xs)),
      (Array_ (undo_array (reverse_array xs) (undo_array pxs xs))).
    split_and!; try done.
    + unfold createReversePatch. by rewrite Hpt, Ht, Hp.
    + unfold undoPatch. simpl. rewrite lookup_insert_ne by lia. rewrite Hpt.
      rewrite !lookup_insert_ne by lia. by rewrite Ht, Hp.
    + unfold undoPatch. simpl. rewrite lookup_insert_eq.
      rewrite lookup_insert_eq. rewrite lookup_insert_ne by lia.
      by rewrite lookup_insert_eq.
    + simpl. apply lookup_insert_eq.
    + simpl. apply reverse_array_copies.
    + simpl. apply lookup_insert_eq.
    + simpl. by rewrite undo_array_copies, reverse_array_copies.
  - (* a plain object *)
    set (rp := fill (current_value (Object_ ps)) (Map_keys pes) []).
    set (s1 := set_heap <[nextAddr s := Map_ rp]>
                 (set_patchToTarget <[nextAddr s := target]> (alloc (Map_ []) s).2)).
    set (ps1 := fold_left undo_prop pes ps).
    set (s2 := set_heap <[target := Object_ ps1]> s1).
    set (ps2 := fold_left undo_prop rp ps1).
    set (s3 := set_heap <[target := Object_ ps2]> s2).
    assert (∀ k, k ∈ Map_keys rp → ∃ name, k = VString name) as Hrpk.
    { intros k Hk%fill_keys. by apply Hrev. }
    exists (nextAddr s), s1, s2, s3, (Object_ ps), (Map_ pes), (Map_ rp), (Object_ ps2).
    split_and!; try done.
    + unfold createReversePatch. rewrite Hpt, Ht, Hp. simpl.
      by rewrite (reverse_object_fill ps (Map_keys pes) Hrev).
    + unfold undoPatch. simpl. rewrite lookup_insert_ne by lia. rewrite Hpt.
      rewrite !lookup_insert_ne by lia. rewrite Ht, Hp.
      by rewrite (undo_object_names pes ps Hrev).
    + unfold undoPatch. simpl. rewrite lookup_insert_eq.
      rewrite lookup_insert_eq. rewrite lookup_insert_ne by lia.
      rewrite lookup_insert_eq.
      by rewrite (undo_object_names rp ps1 Hrpk).
    + simpl. apply lookup_insert_eq.
    + intros k. unfold rp. rewrite fill_lookup. by case_decide.
    + simpl. apply lookup_insert_eq.
    + simpl. intros name. by apply object_reverse_law.
Qed.

Lemma reverse_patch_law_witness :
  wf example_committed_state ∧
  patchToTarget example_committed_state !! 2 = Some 0 ∧
  reversible example_committed_state 2 0 ∧
  ∃ reverse s1 s2 s3 after,
    createReversePatch 2 example_committed_state = Ok reverse s1 ∧
    undoPatch 2 s1 = Ok tt s2 ∧
    undoPatch reverse s2 = Ok tt s3 ∧
    heap s3 !! 0 = Some after ∧
    same_contents after (Map_ [(VString "k", VString "v1")]).
Proof.
  assert (wf example_committed_state) as Hwf
    by (apply (bool_decide_unpack (wf _)); by vm_compute).
  assert (patchToTarget example_committed_state !! 2 = Some 0) as Hpt by reflexivity.
  assert (reversible example_committed_state 2 0) as Hrev.
  { change (∀ k, k ∈ Map_keys [(VString "k", VString "v0")] →
              unaliased example_committed_state
                (Map_keys [(VString "k", VString "v1")] ++ Map_keys [(VString "k", VString "v0")]) k ∧
              Map_get [(VString "k", VString "v1")] k ≠ NO_ENTRY).
    intros k Hk. apply list_elem_of_singleton in Hk. subst k. split; [|done].
    intros a [[-> Ht]| ->] Hne; done. }
  split_and!; try done.
  destruct (reverse_patch_law example_committed_state 2 0 Hwf Hpt ltac:(lia) Hrev)
    as (reverse & s1 & s2 & s3 & before & patched & reversed & after
        & H1 & H2 & H3 & Hb & _ & _ & _ & Ha & Hsame).
  exists reverse, s1, s2, s3, after. split_and!; try done.
  by injection Hb as <-.
Defined.

(** ** More operations that keep a state well formed *)

Lemma alloc_raw_wf (s : state) (o : object) : wf s → is_raw o = true → wf (alloc o s).2.
Proof.
  intros Hwf Hraw. pose proof (wf_next_unallocated s Hwf) as Hfresh.
  apply (same_links_wf s); simpl; [done | | lia |].
  - apply (raw_update_links s _ (nextAddr s) o); try done.
    by apply ORIGINAL_unallocated.
  - intros x Hx. destruct (decide (x = nextAddr s)) as [->|Hne]; [lia|].
    rewrite lookup_insert_ne in Hx by done.
    pose proof (wf_heap_bound s x Hwf Hx). lia.
Qed.

Lemma commitDelta_wf (s : state) (this : addr) (r : addr) (s1 : state) :
  wf s → DimmerMap.commitDelta this s = Ok r s1 → wf s1.
Proof.
  intros Hwf. pose proof (wf_next_unallocated s Hwf) as Hfresh.
  unfold DimmerMap.commitDelta.
  destruct (heap s !! this) as [[| | | |t delta| |]|] eqn:Hthis; try done.
  simpl. intros [= <- <-].
  pose proof (wf_heap_bound s this Hwf (mk_is_Some _ _ Hthis)) as Hb.
  apply (same_links_wf s); simpl; [done | | lia |].
  - split; [done|]. intros [| | | | | |x]; try done. simpl.
    destruct (decide (x = this)) as [->|Hx1]; [by rewrite lookup_insert_eq, Hthis|].
    rewrite lookup_insert_ne by done.
    destruct (decide (x = nextAddr s)) as [->|Hx2]; [|by rewrite lookup_insert_ne].
    by rewrite lookup_insert_eq, Hfresh.
  - intros x Hx.
    destruct (decide (x = this)) as [->|Hx1]; [lia|].
    rewrite lookup_insert_ne in Hx by done.
    destruct (decide (x = nextAddr s)) as [->|Hx2]; [lia|].
    rewrite lookup_insert_ne in Hx by done.
    pose proof (wf_heap_bound s x Hwf Hx). lia.
Qed.

Lemma delete_wf (s : state) (this : addr) (key : value) (r : bool) (s1 : state) :
  wf s → DimmerMap.delete this key s = Ok r s1 → wf s1.
Proof.
  intros Hwf. unfold DimmerMap.delete.
  destruct (DimmerMap.view s this) as [[[t delta] es]|] eqn:Hview; [|done].
  destruct (view_inv _ _ _ _ _ Hview) as (Hthis & Ht & Hne).
  destruct (truthy _); [|by intros [= <- <-]].
  assert (∀ delta1 es1 s0, heap s0 = heap s → objectToProxy s0 = objectToProxy s →
            nextAddr s0 = nextAddr s → wf (DimmerMap.put this t delta1 es1 s0)) as Hput.
  { intros delta1 es1 s0 Hh Hr Hn.
    apply (same_links_wf s); [done | by apply (put_links s s0 this t delta es) | simpl; lia |].
    intros x Hx. simpl in Hx |- *. rewrite Hn. rewrite Hh in Hx.
    destruct (decide (x = t)) as [->|Hx1]; [apply (wf_heap_bound s t Hwf); eauto|].
    rewrite lookup_insert_ne in Hx by done.
    destruct (decide (x = this)) as [->|Hx2]; [apply (wf_heap_bound s this Hwf); eauto|].
    rewrite lookup_insert_ne in Hx by done. by apply wf_heap_bound. }
  destruct (negb _); intros [= <- <-]; by apply Hput.
Qed.

(** ** The batch of [commitPatches] *)

Section commit_batch.
Implicit Types (s : state) (m patch : value) (p t : addr) (delta : list (value * value)).

Lemma wf_registered_allocated s a p : wf s → objectToProxy s !! a = Some p → p < nextAddr s.
Proof.
  intros Hwf Ha. pose proof (wf_registry_fixpoint s a p Hwf Ha) as Hp.
  by apply (wf_registry_bound s p p).
Qed.

(** Two containers do not share a view. *)
Lemma wf_views_distinct s a a' p :
  wf s → objectToProxy s !! a = Some p → objectToProxy s !! a' = Some p →
  ORIGINAL s (VObject a) = VUndefined → ORIGINAL s (VObject a') = VUndefined →
  ORIGINAL s (VObject p) ≠ VUndefined → a = a'.
Proof.
  intros Hwf Ha Ha' Hraw Hraw' Hview.
  destruct (wf_registry s a p Hwf Ha) as [->|[Ho _]]; [done|].
  destruct (wf_registry s a' p Hwf Ha') as [->|[Ho' _]]; [done|].
  congruence.
Qed.

Lemma container_view_inv s m p delta :
  container_view s m = Some (p, delta) →
  ∃ a t, m = VObject a ∧ objectToProxy s !! a = Some p ∧
         ORIGINAL s (VObject p) = VObject t ∧
         (heap s !! p = Some (DimmerMap_ t delta) ∨ heap s !! p = Some (DiagonSet_ t delta)).
Proof.
  unfold container_view. destruct m as [| | | | | |a]; try done. simpl.
  destruct (objectToProxy s !! a) as [q|] eqn:Ha; [|done].
  destruct (heap s !! q) as [[| | | |t d|t d|]|] eqn:Hq; try done.
  all: intros [= <- <-]; exists a, t; simpl; rewrite Hq; eauto.
Qed.

(** The state after a map or set view has handed over its open patch. *)
Lemma commit_view_state s p t delta (mk : list (value * value) → object) :
  (∀ st x d, heap st !! x = Some (mk d) → ORIGINAL st (VObject x) = VObject t) →
  wf s → heap s !! p = Some (mk delta) →
  let s1 := set_heap <[p := mk []]>
              (set_patchToTarget <[nextAddr s := t]> (alloc (Map_ delta) s).2) in
  wf s1 ∧ same_links s s1 ∧
  heap s1 !! nextAddr s = Some (Map_ delta) ∧
  heap s1 !! p = Some (mk []) ∧
  (∀ x, x ≠ p → x ≠ nextAddr s → heap s1 !! x = heap s !! x).
Proof.
  intros Hmk Hwf Hp s1.
  pose proof (wf_next_unallocated s Hwf) as Hfresh.
  pose proof (wf_heap_bound s p Hwf (mk_is_Some _ _ Hp)) as Hb.
  assert (heap s1 !! p = Some (mk [])) as Hp1 by apply lookup_insert_eq.
  assert (heap s1 !! nextAddr s = Some (Map_ delta)) as Hn1.
  { simpl. rewrite lookup_insert_ne by lia. apply lookup_insert_eq. }
  assert (∀ x, x ≠ p → x ≠ nextAddr s → heap s1 !! x = heap s !! x) as Hother.
  { intros x Hx1 Hx2. simpl. by rewrite !lookup_insert_ne. }
  assert (same_links s s1) as Hl.
  { split; [done|]. intros [| | | | | |x]; try done.
    destruct (decide (x = p)) as [->|Hx1].
    { by rewrite (Hmk s1 p [] Hp1), (Hmk s p delta Hp). }
    destruct (decide (x = nextAddr s)) as [->|Hx2].
    { rewrite (ORIGINAL_unallocated s _ Hfresh).
      by apply (ORIGINAL_raw s1 _ (Map_ delta)). }
    unfold ORIGINAL. by rewrite (Hother x Hx1 Hx2). }
  split_and!; try done.
  apply (same_links_wf s); [done | done | simpl; lia |].
  intros x Hx. change (nextAddr s1) with (S (nextAddr s)).
  destruct (decide (x = p)) as [->|Hx1]; [lia|].
  destruct (decide (x = nextAddr s)) as [->|Hx2]; [lia|].
  rewrite (Hother x Hx1 Hx2) in Hx. pose proof (wf_heap_bound s x Hwf Hx). lia.
Qed.

(** One turn of the loop, for a member that is a container. *)
Lemma commit_one_spec s m :
  wf s → ORIGINAL s m = VUndefined →
  ∃ patch s1,
    commit_one m s = Ok patch s1 ∧
    wf s1 ∧ same_links s s1 ∧ modified s1 = modified s ∧ nextAddr s ≤ nextAddr s1 ∧
    committed_for s s1 m patch ∧
    commit_frame s s1 [m].
Proof.
  intros Hwf Hraw.
  assert (∀ s1, heap s1 = heap s → objectToProxy s1 = objectToProxy s →
                same_links s s1) as Hsame.
  { intros s1 Hh Hr. split; [done|]. intros v. unfold ORIGINAL. by rewrite Hh. }
  assert (container_view s m = None →
          ∃ patch s1, take_current_patch m s = Ok patch s1 ∧
            wf s1 ∧ same_links s s1 ∧ modified s1 = modified s ∧
            nextAddr s ≤ nextAddr s1 ∧ committed_for s s1 m patch ∧
            commit_frame s s1 [m]) as Hplain.
  { intros Hcv. unfold committed_for. rewrite Hcv.
    exists (getCurrentPatch s m),
           (match m with
            | VObject a => set_objectToCurrentPatch (base.delete a) s
            | _ => s
            end).
    split; [by destruct m|].
    split; [by destruct m|].
    split; [apply Hsame; by destruct m|].
    split; [by destruct m|].
    split; [by destruct m|].
    split; [split; [done|]|split; [by destruct m|split; [by destruct m|]]].
    - destruct m as [| | | | | |a]; try done. simpl. by rewrite lookup_delete_eq.
    - intros a' Ha'. destruct m as [| | | | | |a]; try done. simpl.
      apply lookup_delete_ne. intros ->. apply Ha'. by left. }
  destruct (container_view s m) as [[p delta]|] eqn:Hcv.
  2: { destruct (Hplain eq_refl) as (patch & s1 & Ht & Hrest).
       exists patch, s1. split; [|done]. rewrite <- Ht.
       unfold commit_one. unfold container_view in Hcv.
       destruct (tryGetProxy s m) as [| | | | | |q]; try done.
       by destruct (heap s !! q) as [[]|]. }
  clear Hplain.
  destruct (container_view_inv s m p delta Hcv) as (a & t & -> & Ha & Ho & Hkind).
  assert (t = a) as ->.
  { destruct (wf_registry s a p Hwf Ha) as [->|[Ho' _]]; [|congruence].
    rewrite Ho in Hraw. done. }
  pose proof (wf_registered_allocated s a p Hwf Ha) as Hpb.
  assert (∀ mk : list (value * value) → object,
            (∀ st x d, heap st !! x = Some (mk d) → ORIGINAL st (VObject x) = VObject a) →
            (∀ st d, heap st !! p = Some (mk d) → objectToProxy st = objectToProxy s →
                     container_view st (VObject a) = Some (p, d)) →
            heap s !! p = Some (mk delta) →
            let s1 := set_heap <[p := mk []]>
                        (set_patchToTarget <[nextAddr s := a]> (alloc (Map_ delta) s).2) in
            wf s1 ∧ same_links s s1 ∧ modified s1 = modified s ∧
            nextAddr s ≤ nextAddr s1 ∧
            committed_for s s1 (VObject a) (VObject (nextAddr s)) ∧
            commit_frame s s1 [VObject a]) as Hcommit.
  { intros mk Hmk Hcvmk Hp s1.
    destruct (commit_view_state s p a delta mk Hmk Hwf Hp) as (Hwf1 & Hl & Hn1 & Hp1 & Hother).
    split_and!; [done | done | done | simpl; lia | |].
    - unfold committed_for. rewrite Hcv. exists (nextAddr s).
      split_and!; [done | lia | simpl; lia | done | |].
      + simpl. by rewrite lookup_insert_eq.
      + by apply Hcvmk.
    - split_and!.
      + intros x Hx. simpl. rewrite lookup_insert_ne by lia. done.
      + intros x Hx Hnot. apply Hother; [|lia].
        intros ->. apply (Hnot (VObject a) delta); [by left | done].
      + done. }
  unfold commit_one. simpl. rewrite Ha.
  destruct Hkind as [Hp|Hp]; rewrite Hp.
  - unfold bind, ret, DimmerMap.commitDelta. rewrite Hp. cbn [alloc fst snd].
    eexists _, _. split; [reflexivity|].
    apply (Hcommit (DimmerMap_ a)); [| |done].
    + intros st x d Hx. simpl. by rewrite Hx.
    + intros st d Hx Hr. unfold container_view. simpl. by rewrite Hr, Ha, Hx.
  - unfold bind, ret, DiagonSet_commitPatch. rewrite Hp. cbn [alloc fst snd].
    eexists _, _. split; [reflexivity|].
    apply (Hcommit (DiagonSet_ a)); [| |done].
    + intros st x d Hx. simpl. by rewrite Hx.
    + intros st d Hx Hr. unfold container_view. simpl. by rewrite Hr, Ha, Hx.
Qed.

Lemma same_links_container s s1 m :
  same_links s s1 → ORIGINAL s m = VUndefined → ORIGINAL s1 m = VUndefined.
Proof. intros [_ Ho] H. by rewrite Ho. Qed.

(** A turn for another container leaves the view and the current patch of
    this one alone. *)
Lemma commit_frame_other s s1 m m' :
  wf s → same_links s s1 → commit_frame s s1 [m] →
  ORIGINAL s m = VUndefined → ORIGINAL s m' = VUndefined → m ≠ m' →
  container_view s1 m' = container_view s m' ∧
  getCurrentPatch s1 m' = getCurrentPatch s m'.
Proof.
  intros Hwf Hl (_ & Hheap & Hcur) Hraw Hraw' Hne. split.
  - unfold container_view. rewrite (same_links_tryGetProxy s s1 _ Hl).
    destruct m' as [| | | | | |a']; try done. simpl.
    destruct (objectToProxy s !! a') as [q|] eqn:Ha'; [|done].
    rewrite Hheap; [done | by apply (wf_registered_allocated s a' q) |].
    intros m0 delta ->%list_elem_of_singleton Hcv.
    destruct (container_view_inv s m q delta Hcv) as (a & t & -> & Ha & Ho & _).
    apply Hne. f_equal.
    apply (wf_views_distinct s a a' q Hwf Ha Ha' Hraw Hraw'). by rewrite Ho.
  - destruct m' as [| | | | | |a']; try done. simpl.
    rewrite Hcur; [done|]. intros Heq%list_elem_of_singleton. congruence.
Qed.

(** What a turn has pushed for a container stays through the turns for
    other containers. *)
Lemma committed_for_persists s0 s1 s' m patch rest :
  wf s0 → wf s1 → same_links s0 s1 → same_links s1 s' →
  nextAddr s1 ≤ nextAddr s' →
  ORIGINAL s0 m = VUndefined →
  Forall (λ m', ORIGINAL s0 m' = VUndefined) rest → m ∉ rest →
  commit_frame s1 s' rest →
  committed_for s0 s1 m patch → committed_for s0 s' m patch.
Proof.
  intros Hwf0 Hwf1 Hl01 Hl1 Hn Hraw Hrest Hnotin (Hpt & Hheap & Hcur).
  unfold committed_for.
  destruct (container_view s0 m) as [[p delta]|] eqn:Hcv.
  - intros (a & -> & [Ha1 Ha2] & Hha & Htarget & Hcv1).
    destruct (container_view_inv s0 m p delta Hcv) as (am & t & -> & Ham & Ho & _).
    assert (∀ m' d x, m' ∈ rest → container_view s1 m' = Some (x, d) →
              ∃ a', m' = VObject a' ∧ objectToProxy s0 !! a' = Some x ∧
                    ORIGINAL s0 (VObject x) ≠ VUndefined) as Hviews.
    { intros m' d x Hm' Hcv'.
      destruct (container_view_inv s1 m' x d Hcv') as (a' & t' & -> & Ha' & Ho' & _).
      exists a'. destruct Hl01 as [Hr01 Ho01]. rewrite Hr01 in Ha'.
      split_and!; [done | done |]. rewrite <- Ho01, Ho'. done. }
    exists a. split_and!; [done | lia | lia | | |].
    + rewrite Hheap; [done | done |].
      intros m' d Hm' Hcv'.
      destruct (Hviews m' d a Hm' Hcv') as (a' & -> & Ha' & _).
      pose proof (wf_registered_allocated s0 a' a Hwf0 Ha'). lia.
    + simpl in Htarget |- *. rewrite Hpt by done. done.
    + unfold container_view in Hcv1 |- *.
      rewrite (same_links_tryGetProxy s1 s' _ Hl1).
      destruct (tryGetProxy s1 (VObject am)) as [| | | | | |q] eqn:Hq; try done.
      assert (q = p) as ->.
      { destruct (heap s1 !! q) as [[]|]; try done; by injection Hcv1 as ->. }
      rewrite Hheap; [done | |].
      * pose proof (wf_registered_allocated s0 am p Hwf0 Ham). lia.
      * intros m' d Hm' Hcv'.
        destruct (Hviews m' d p Hm' Hcv') as (a' & -> & Ha' & Hview).
        apply Hnotin. rewrite (wf_views_distinct s0 am a' p Hwf0 Ham Ha' Hraw); [done| |done].
        by apply (proj1 (Forall_forall _ _) Hrest (VObject a')).
  - intros [-> Hnone]. split; [done|].
    destruct m as [| | | | | |a]; try done. simpl in Hnone |- *.
    rewrite Hcur by done. done.
Qed.

Lemma commit_frame_trans s s1 s' m rest :
  nextAddr s ≤ nextAddr s1 →
  (∀ m', m' ∈ rest → container_view s1 m' = container_view s m') →
  commit_frame s s1 [m] → commit_frame s1 s' rest → commit_frame s s' (m :: rest).
Proof.
  intros Hn Hcv (Hpt1 & Hh1 & Hc1) (Hpt2 & Hh2 & Hc2). split_and!.
  - intros a Ha. rewrite Hpt2 by lia. by apply Hpt1.
  - intros x Hx Hnot. rewrite Hh2; [apply Hh1; [done|] | lia |].
    + intros m0 d ->%list_elem_of_singleton. apply Hnot. by left.
    + intros m' d Hm'. rewrite (Hcv m' Hm'). apply Hnot. by right.
  - intros a Ha. apply not_elem_of_cons in Ha as [Ha1 Ha2].
    rewrite Hc2 by done. apply Hc1. by intros Heq%list_elem_of_singleton.
Qed.

(** The loop of [commitPatches] over distinct containers. *)
Lemma commit_loop_spec rest : ∀ changes s,
  wf s → NoDup rest → Forall (λ m, ORIGINAL s m = VUndefined) rest →
  ∃ batch s',
    commit_loop rest changes s = Ok (changes ++ batch) s' ∧
    wf s' ∧ same_links s s' ∧ modified s' = modified s ∧ nextAddr s ≤ nextAddr s' ∧
    Forall2 (committed_for s s') rest batch ∧
    commit_frame s s' rest.
Proof.
  induction rest as [|m rest IH]; intros changes s Hwf Hnd Hraw.
  - exists [], s. rewrite app_nil_r.
    split_and!; [done | done | done | done | done | constructor | by split_and!].
  - apply NoDup_cons in Hnd as [Hm Hnd]. apply Forall_cons in Hraw as [Hrawm Hraw].
    destruct (commit_one_spec s m Hwf Hrawm)
      as (patch & s1 & Hone & Hwf1 & Hl1 & Hmod1 & Hn1 & Hfor & Hframe).
    assert (Forall (λ m', ORIGINAL s1 m' = VUndefined) rest) as Hraw1.
    { apply (Forall_impl _ _ _ Hraw). intros m'. by apply same_links_container. }
    destruct (IH (changes ++ [patch]) s1 Hwf1 Hnd Hraw1)
      as (batch & s' & Hloop & Hwf' & Hl' & Hmod' & Hn' & Hall & Hframe').
    assert (∀ m', m' ∈ rest → container_view s1 m' = container_view s m' ∧
                              getCurrentPatch s1 m' = getCurrentPatch s m') as Hother.
    { intros m' Hm'. apply (commit_frame_other s s1 m m'); try done.
      - by apply (proj1 (Forall_forall _ _) Hraw).
      - intros ->. done. }
    exists (patch :: batch), s'. split_and!.
    + simpl. unfold bind. rewrite Hone, Hloop. by rewrite <- app_assoc.
    + done.
    + by apply (same_links_trans s s1 s').
    + congruence.
    + lia.
    + constructor.
      * by apply (committed_for_persists s s1 s' m patch rest).
      * apply Forall2_same_length_lookup. split; [by apply (Forall2_length _ _ _ Hall)|].
        intros i m' patch' Hi Hi'.
        pose proof (Forall2_lookup_lr _ _ _ _ _ _ Hall Hi Hi') as Hc.
        destruct (Hother m' (list_elem_of_lookup_2 _ _ _ Hi)) as [Hcv Hcur].
        unfold committed_for in Hc |- *. rewrite <- Hcv.
        destruct (container_view s1 m') as [[p' delta']|].
        -- destruct Hc as (a & -> & [Ha1 Ha2] & Hrest). exists a.
           split_and!; [done | lia | lia | by destruct Hrest as (? & ? & ?)
                        | by destruct Hrest as (? & ? & ?) | by destruct Hrest as (? & ? & ?)].
        -- by rewrite <- Hcur.
    + apply (commit_frame_trans s s1 s' m rest); try done.
      intros m' Hm'. by destruct (Hother m' Hm').
Qed.

Lemma commit_loop_modified rest : ∀ changes s batch s',
  commit_loop rest changes s = Ok batch s' → modified s' = modified s.
Proof.
  induction rest as [|m rest IH]; intros changes s batch s' Hloop.
  - by injection Hloop as _ <-.
  - simpl in Hloop. unfold bind in Hloop.
    destruct (commit_one m s) as [patch s1|] eqn:Hone; [|done].
    rewrite (IH _ _ _ _ Hloop).
    unfold commit_one, take_current_patch in Hone.
    assert (∀ r, take_current_patch m s = Ok patch r → modified r = modified s) as Htake.
    { unfold take_current_patch. destruct m; by intros r [= _ <-]. }
    destruct (tryGetProxy s m) as [| | | | | |q]; try by apply Htake.
    destruct (heap s !! q) as [[| | | |t d|t d|]|] eqn:Hq; try by apply Htake.
    + unfold bind, ret, DimmerMap.commitDelta in Hone. rewrite Hq in Hone.
      by injection Hone as _ <-.
    + unfold bind, ret, DiagonSet_commitPatch in Hone. rewrite Hq in Hone.
      by injection Hone as _ <-.
Qed.

End commit_batch.

(** C8 — [commitPatches] always returns a list, never a null or absent
    batch, with one element per member of the modified-set, and leaves the
    modified-set as it is; when nothing was modified the list is empty
    (and the state is left as it is).  In a well-formed state whose
    modified-set holds distinct containers, the element for a container
    with a map or set view is a new patch that holds the open patch of the
    view and has the container as its target, and the element for any
    other container is its current patch — undefined when it has none. *)
Theorem commitPatches_returns_batch (s : state) :
  ∃ changes s',
    commitPatches s = Ok changes s' ∧
    length changes = length (modified s) ∧
    (modified s = [] → changes = [] ∧ s' = s) ∧
    modified s' = modified s ∧
    (wf s → NoDup (modified s) →
     Forall (λ m, ORIGINAL s m = VUndefined) (modified s) →
     Forall2 (committed_for s s') (modified s) changes).
Proof.
  unfold commitPatches.
  destruct (commit_loop_returns (modified s) [] s) as (batch & s' & Heq & Hlen).
  exists batch, s'. split_and!; [done | done | | |].
  - intros Hm. rewrite Hm in Heq. simpl in Heq. by injection Heq as <- <-.
  - by apply (commit_loop_modified _ _ _ _ _ Heq).
  - intros Hwf Hnd Hraw.
    destruct (commit_loop_spec (modified s) [] s Hwf Hnd Hraw)
      as (batch' & s'' & Heq' & _ & _ & _ & _ & Hall & _).
    rewrite Heq in Heq'. by injection Heq' as -> ->.
Qed.

Lemma commitPatches_returns_batch_witness :
  wf example_scope_state ∧
  NoDup (modified example_scope_state) ∧
  Forall (λ m, ORIGINAL example_scope_state m = VUndefined) (modified example_scope_state) ∧
  ∃ changes s',
    commitPatches example_scope_state = Ok changes s' ∧
    Forall2 (committed_for example_scope_state s') (modified example_scope_state) changes.
Proof.
  assert (wf example_scope_state) as Hwf
    by (apply (bool_decide_unpack (wf _)); by vm_compute).
  assert (NoDup (modified example_scope_state)) as Hnd
    by (apply (bool_decide_unpack (NoDup _)); by vm_compute).
  assert (Forall (λ m, ORIGINAL example_scope_state m = VUndefined)
            (modified example_scope_state)) as Hraw by (by repeat constructor).
  split_and!; [exact Hwf | exact Hnd | exact Hraw |].
  destruct (commitPatches_returns_batch example_scope_state)
    as (changes & s' & Hc & _ & _ & _ & Hall).
  exists changes, s'. split; [exact Hc | exact (Hall Hwf Hnd Hraw)].
Defined.

(** C8, as stated, fails where [commitPatches] runs again before the
    modified-set has been cleared: the plain object is still in the
    modified-set, its current patch was taken by the first run, and the
    second batch holds undefined in its place, not a patch. *)
Lemma commitPatches_again_gives_undefined :
  ∃ s1 s2,
    commitPatches example_scope_state = Ok [VObject 5; VObject 4] s1 ∧
    modified s1 = [VObject 0; VObject 2] ∧
    commitPatches s1 = Ok [VObject 6; VUndefined] s2.
Proof. eexists _, _. split_and!; [by vm_compute | done | by vm_compute]. Qed.

(** * Further properties *)

(** ** The registry *)

(** A successful [createRecordingProxy] can be looked up at once: the
    answer is a new object, it is the tracking view of the target and of
    itself, it is a view whose original is the target, and no other
    registry entry has changed. *)
Theorem createRecordingProxy_lookup (s : state) (target r : value) (s1 : state) :
  createRecordingProxy target s = Ok r s1 →
  ∃ a, target = VObject a ∧ r = VObject (nextAddr s) ∧
       tryGetProxy s1 target = r ∧
       tryGetProxy s1 r = r ∧
       isProxy r s1 = Ok true s1 ∧
       asOriginal s1 r = target ∧
       areSame s1 target r = true ∧
       ∀ x, x ≠ a → x ≠ nextAddr s → objectToProxy s1 !! x = objectToProxy s !! x.
Proof.
  intros Hc.
  destruct target as [| | | | | |a];
    try (unfold createRecordingProxy in Hc; simpl in Hc; discriminate).
  destruct (ORIGINAL_cases s (VObject a)) as [Hraw|[t Hview]].
  2: { rewrite createRecordingProxy_view in Hc; [done|]. apply isProxy_true; eauto. }
  destruct (createRecordingProxy_raw s a Hraw) as (s1' & Heq & Hcr).
  rewrite Heq in Hc. injection Hc as <- <-.
  pose proof (created_view _ _ _ Hcr) as Hv.
  assert (asOriginal s1' (VObject a) = VObject a) as Ha.
  { destruct (decide (a = nextAddr s)) as [->|Hne].
    - by apply asOriginal_view.
    - apply asOriginal_raw. simpl. rewrite (created_heap _ _ _ Hcr) by done.
      simpl in Hraw. done. }
  exists a. split_and!; try done.
  - simpl. rewrite (created_registry _ _ _ Hcr).
    destruct (decide (a = nextAddr s)) as [->|Hne]; [by rewrite lookup_insert_eq|].
    rewrite lookup_insert_ne by done. by rewrite lookup_insert_eq.
  - simpl. by rewrite (created_registry _ _ _ Hcr), lookup_insert_eq.
  - apply isProxy_true. eauto.
  - by apply asOriginal_view.
  - unfold areSame. apply bool_decide_eq_true.
    by rewrite Ha, (asOriginal_view _ _ _ Hv).
  - intros x Hx1 Hx2. rewrite (created_registry _ _ _ Hcr).
    by rewrite !lookup_insert_ne.
Qed.

Lemma createRecordingProxy_lookup_witness :
  ∃ r s1, createRecordingProxy (VObject 0) example_object_state = Ok r s1 ∧
          tryGetProxy s1 (VObject 0) = r ∧ asOriginal s1 r = VObject 0.
Proof.
  eexists _, _. split; [reflexivity|].
  destruct (createRecordingProxy_lookup example_object_state (VObject 0) _ _ eq_refl)
    as (a & _ & _ & H1 & _ & _ & H2 & _).
  by split.
Defined.

Section extending.
Implicit Types (s : state) (v r : value).

Lemma extends_refl s : extends s s.
Proof. by split_and!. Qed.

Lemma extends_trans s s1 s2 : extends s s1 → extends s1 s2 → extends s s2.
Proof.
  intros (Hn1 & Hh1 & Hr1) (Hn2 & Hh2 & Hr2). split_and!.
  - lia.
  - intros x Hx. rewrite Hh2 by lia. by apply Hh1.
  - intros x q Hx. by apply Hr2, Hr1.
Qed.

Lemma extends_live s s1 v : extends s s1 → live s v → live s1 v.
Proof. intros (Hn & _) Hl. destruct v; try done. simpl in *. lia. Qed.

Lemma extends_asOriginal s s1 v : extends s s1 → live s v → asOriginal s1 v = asOriginal s v.
Proof.
  intros (_ & Hh & _) Hl. unfold asOriginal. f_equal. f_equal.
  destruct v; try done. simpl in *. by rewrite Hh.
Qed.

Lemma extends_wrapped s s1 v : extends s s1 → wrapped s v → wrapped s1 v.
Proof. intros (_ & _ & Hr) Hw. destruct v; try done. by apply Hr. Qed.

Lemma wrapped_live s v : wf s → wrapped s v → live s v.
Proof. intros Hwf Hw. destruct v; try done. by apply (wf_registry_bound s a a). Qed.

End extending.

(** What [proxify] returns in a well-formed state. *)
Lemma proxify_tracked (s : state) (v : value) :
  wf s → live s v →
  ∃ r s1, proxify v s = Ok r s1 ∧
          wf s1 ∧ extends s s1 ∧
          wrapped s1 r ∧
          asOriginal s1 r = asOriginal s v ∧
          proxify r s1 = Ok r s1.
Proof.
  intros Hwf Hlive. unfold proxify at 1.
  destruct (truthy (tryGetProxy s v)) eqn:Ht.
  - destruct v as [| | | | | |a]; try done. simpl in Ht |- *.
    destruct (objectToProxy s !! a) as [q|] eqn:Ha; [|done].
    pose proof (wf_registry_fixpoint s a q Hwf Ha) as Hq.
    exists (VObject q), s. split_and!.
    + done.
    + done.
    + apply extends_refl.
    + done.
    + by apply wf_registry_original.
    + unfold proxify. simpl. by rewrite Hq.
  - destruct v as [| | | | | |a];
      try (eexists _, s; split_and!; [done | done | apply extends_refl | done | done | done]).
    assert (objectToProxy s !! a = None) as Ha.
    { simpl in Ht. by destruct (objectToProxy s !! a). }
    assert (ORIGINAL s (VObject a) = VUndefined) as Hraw.
    { destruct (ORIGINAL_cases s (VObject a)) as [H|[t H]]; [done|].
      rewrite (wf_view_registered s a Hwf) in Ha; [done | by rewrite H]. }
    destruct (createRecordingProxy_raw s a Hraw) as (s1 & Heq & Hc).
    exists (VObject (nextAddr s)), s1. split_and!.
    + done.
    + by apply (created_wf s a).
    + split_and!.
      * rewrite (created_next _ _ _ Hc). lia.
      * intros x Hx. apply (created_heap _ _ _ Hc). lia.
      * intros x q Hx. rewrite (created_registry _ _ _ Hc).
        pose proof (wf_registry_bound s x q Hwf Hx).
        rewrite lookup_insert_ne by lia. rewrite lookup_insert_ne by congruence. done.
    + simpl. by rewrite (created_registry _ _ _ Hc), lookup_insert_eq.
    + rewrite (asOriginal_view _ _ _ (created_view _ _ _ Hc)).
      by rewrite (asOriginal_raw _ _ Hraw).
    + unfold proxify. simpl.
      by rewrite (created_registry _ _ _ Hc), lookup_insert_eq.
Qed.

(** In a well-formed state [proxify] returns for every live value: the
    answer is registered as its own tracking view (or is not an object),
    it has the original of the value, [proxify] of the answer is the
    answer, and the state stays well formed, with everything that was
    allocated or registered left in place. *)
Theorem proxify_wraps (s : state) (v : value) :
  wf s → live s v →
  ∃ r s1, proxify v s = Ok r s1 ∧
          wf s1 ∧ extends s s1 ∧
          wrapped s1 r ∧
          asOriginal s1 r = asOriginal s v ∧
          proxify r s1 = Ok r s1.
Proof. exact (proxify_tracked s v). Qed.

Lemma proxify_wraps_witness :
  wf example_object_state ∧ live example_object_state (VObject 0) ∧
  ∃ r s1, proxify (VObject 0) example_object_state = Ok r s1 ∧ wrapped s1 r.
Proof.
  assert (wf example_object_state) as Hwf
    by (apply (bool_decide_unpack (wf _)); by vm_compute).
  assert (live example_object_state (VObject 0)) as Hl by (simpl; lia).
  split_and!; try done.
  destruct (proxify_wraps example_object_state (VObject 0) Hwf Hl)
    as (r & s1 & H1 & _ & _ & H2 & _).
  by exists r, s1.
Defined.

(** ** Iterating over the map view *)

Section iterating.
Implicit Types (s : state) (v r : value) (vs rs : list value).

Lemma extends_view s s1 this x :
  wf s → extends s s1 → DimmerMap.view s this = Some x → DimmerMap.view s1 this = Some x.
Proof.
  intros Hwf (_ & Hh & _) Hview. destruct x as [[t delta] es].
  destruct (view_inv _ _ _ _ _ Hview) as (Hthis & Ht & _).
  apply view_intro.
  - rewrite Hh; [done|]. apply (wf_heap_bound s this Hwf); eauto.
  - rewrite Hh; [done|]. apply (wf_heap_bound s t Hwf); eauto.
Qed.

Lemma Forall2_impl_Forall {A B : Type} (P : A → Prop) (R R1 : A → B → Prop)
    (l : list A) (k : list B) :
  Forall P l → Forall2 R l k → (∀ x y, P x → R x y → R1 x y) → Forall2 R1 l k.
Proof.
  intros HP HR Himp. induction HR as [|x y l k Hxy HR IH]; [constructor|].
  apply Forall_cons in HP as [Hx HP]. constructor; auto.
Qed.

Lemma proxify_each_wraps vs : ∀ s,
  wf s → Forall (live s) vs →
  ∃ rs s1, proxify_each vs s = Ok rs s1 ∧ wf s1 ∧ extends s s1 ∧
           Forall2 (λ v r, wrapped s1 r ∧ asOriginal s1 r = asOriginal s v) vs rs.
Proof.
  induction vs as [|v vs IH]; intros s Hwf Hlive.
  - exists [], s. split_and!; [done | done | apply extends_refl | constructor].
  - apply Forall_cons in Hlive as [Hv Hvs].
    destruct (proxify_tracked s v Hwf Hv) as (r & s' & Hp & Hwf' & Hext & Hw & Ho & _).
    destruct (IH s' Hwf') as (rs & s1 & Hps & Hwf1 & Hext1 & Hall).
    { eapply Forall_impl; [exact Hvs|]. intros x. by apply extends_live. }
    exists (r :: rs), s1. split_and!.
    + simpl. unfold bind. by rewrite Hp, Hps.
    + done.
    + by apply (extends_trans s s' s1).
    + apply Forall2_cons. split.
      * split; [by apply (extends_wrapped s' s1)|].
        by rewrite (extends_asOriginal s' s1 r Hext1 (wrapped_live s' r Hwf' Hw)).
      * apply (Forall2_impl_Forall _ _ _ _ _ Hvs Hall).
        intros x y Hx [Hwy Hoy]. split; [done|].
        rewrite Hoy. by apply (extends_asOriginal s s').
Qed.

End iterating.

Section iterating_views.
Implicit Types (s : state) (v r : value) (es : list (value * value)).

Lemma proxify_entries_wraps es : ∀ s,
  wf s → Forall (λ e, live s e.1 ∧ live s e.2) es →
  ∃ ps s1, proxify_entries es s = Ok ps s1 ∧ wf s1 ∧ extends s s1 ∧
           Forall2 (λ e p, (wrapped s1 p.1 ∧ asOriginal s1 p.1 = asOriginal s e.1) ∧
                           (wrapped s1 p.2 ∧ asOriginal s1 p.2 = asOriginal s e.2)) es ps.
Proof.
  induction es as [|[k v] es IH]; intros s Hwf Hlive.
  - exists [], s. split_and!; [done | done | apply extends_refl | constructor].
  - apply Forall_cons in Hlive as [[Hk Hv] Hes]. simpl in Hk, Hv.
    destruct (proxify_tracked s k Hwf Hk) as (pk & sa & Hp1 & Hwfa & Hexta & Hwk & Hok & _).
    destruct (proxify_tracked sa v Hwfa (extends_live _ _ _ Hexta Hv))
      as (pv & sb & Hp2 & Hwfb & Hextb & Hwv & Hov & _).
    pose proof (extends_trans _ _ _ Hexta Hextb) as Hext.
    destruct (IH sb Hwfb) as (ps & s1 & Hps & Hwf1 & Hext1 & Hall).
    { eapply Forall_impl; [exact Hes|]. intros x [H1 H2].
      split; by apply (extends_live s sb). }
    exists ((pk, pv) :: ps), s1. split_and!.
    + simpl. unfold bind. by rewrite Hp1, Hp2, Hps.
    + done.
    + by apply (extends_trans s sb s1).
    + apply Forall2_cons. split.
      * simpl. split_and!.
        -- by apply (extends_wrapped sb s1), (extends_wrapped sa sb).
        -- rewrite (extends_asOriginal sa s1 pk (extends_trans _ _ _ Hextb Hext1)
                      (wrapped_live sa pk Hwfa Hwk)). done.
        -- by apply (extends_wrapped sb s1).
        -- rewrite (extends_asOriginal sb s1 pv Hext1 (wrapped_live sb pv Hwfb Hwv)).
           rewrite Hov. by apply extends_asOriginal.
      * apply (Forall2_impl_Forall _ _ _ _ _ Hes Hall).
        intros x y [Hx1 Hx2] [[Hw1 Ho1] [Hw2 Ho2]]. split_and!; try done.
        -- rewrite Ho1. by apply (extends_asOriginal s sb).
        -- rewrite Ho2. by apply (extends_asOriginal s sb).
Qed.

Lemma Map_get_live s es k : Forall (live s) es.*2 → live s (Map_get es k).
Proof.
  induction es as [|[k0 v0] es IH]; [done|].
  rewrite fmap_cons. intros [Hv Hes]%Forall_cons. simpl.
  case_decide; [done | by apply IH].
Qed.

End iterating_views.

(** In a well-formed state whose map holds live values, [get] through the
    view never throws, and what it returns is registered as its own
    tracking view, or is not an object: a read never hands out a container
    that is not tracked.  The map and its open patch are as before. *)
Theorem DimmerMap_get_wrapped (s : state) (this t : addr)
    (delta es : list (value * value)) (key : value) :
  wf s →
  DimmerMap.view s this = Some (t, delta, es) →
  Forall (live s) es.*2 →
  ∃ r s1, DimmerMap.get this key s = Ok r s1 ∧
          wf s1 ∧ wrapped s1 r ∧
          DimmerMap.view s1 this = Some (t, delta, es).
Proof.
  intros Hwf Hview Hlive. rewrite (get_view _ _ _ _ _ _ Hview).
  set (value' := JS_or _ _).
  assert (live s value') as Hv.
  { unfold value', JS_or, JS_and.
    destruct (truthy (tryGetProxy s key)) eqn:Ht.
    - destruct (truthy (Map_get es (tryGetProxy s key))); by apply Map_get_live.
    - rewrite Ht. by apply Map_get_live. }
  destruct (proxify_tracked s value' Hwf Hv) as (r & s1 & Hp & Hwf1 & Hext & Hw & _).
  exists r, s1. split_and!; try done. by apply (extends_view s).
Qed.

Lemma DimmerMap_get_wrapped_witness :
  wf example_container_value_state ∧
  ∃ r s1, DimmerMap.get 2 (VString "a") example_container_value_state = Ok r s1 ∧
          wrapped s1 r.
Proof.
  assert (wf example_container_value_state) as Hwf
    by (apply (bool_decide_unpack (wf _)); by vm_compute).
  split; [exact Hwf|].
  destruct (DimmerMap_get_wrapped example_container_value_state 2 1 []
              [(VString "a", VObject 0)] (VString "a") Hwf eq_refl)
    as (r & s1 & H1 & _ & H2 & _).
  { repeat constructor. }
  by exists r, s1.
Defined.

(** In a well-formed state whose map holds live keys and values, the
    iterators [keys] and [values] of the view, drained, never throw and
    yield one value per entry, in order: each is registered as its own
    tracking view, or is not an object, and has the original of the stored
    key or value.  The map and its open patch are as before. *)
Theorem DimmerMap_keys_values_wrapped (s : state) (this t : addr)
    (delta es : list (value * value)) :
  wf s →
  DimmerMap.view s this = Some (t, delta, es) →
  Forall (live s) (Map_keys es) → Forall (live s) es.*2 →
  (∃ ks s1, DimmerMapIterators.keys this s = Ok ks s1 ∧ wf s1 ∧
            DimmerMap.view s1 this = Some (t, delta, es) ∧
            Forall2 (λ k r, wrapped s1 r ∧ asOriginal s1 r = asOriginal s k)
                    (Map_keys es) ks) ∧
  (∃ vs s1, DimmerMapIterators.values this s = Ok vs s1 ∧ wf s1 ∧
            DimmerMap.view s1 this = Some (t, delta, es) ∧
            Forall2 (λ v r, wrapped s1 r ∧ asOriginal s1 r = asOriginal s v)
                    es.*2 vs).
Proof.
  intros Hwf Hview Hk Hv. split.
  - destruct (proxify_each_wraps (Map_keys es) s Hwf Hk) as (ks & s1 & Hp & Hwf1 & Hext & Hall).
    exists ks, s1. unfold DimmerMapIterators.keys. rewrite Hview.
    split_and!; try done. by apply (extends_view s).
  - destruct (proxify_each_wraps es.*2 s Hwf Hv) as (vs & s1 & Hp & Hwf1 & Hext & Hall).
    exists vs, s1. unfold DimmerMapIterators.values. rewrite Hview.
    split_and!; try done. by apply (extends_view s).
Qed.

Lemma DimmerMap_keys_values_wrapped_witness :
  wf example_container_value_state ∧
  ∃ vs s1, DimmerMapIterators.values 2 example_container_value_state = Ok vs s1 ∧
           Forall2 (λ v r, wrapped s1 r ∧
                           asOriginal s1 r = asOriginal example_container_value_state v)
                   [VObject 0] vs.
Proof.
  assert (wf example_container_value_state) as Hwf
    by (apply (bool_decide_unpack (wf _)); by vm_compute).
  split; [exact Hwf|].
  destruct (proj2 (DimmerMap_keys_values_wrapped example_container_value_state 2 1 []
              [(VString "a", VObject 0)] Hwf eq_refl
              ltac:(repeat constructor) ltac:(repeat constructor)))
    as (vs & s1 & H1 & _ & _ & H2).
  by exists vs, s1.
Defined.

(** The same for [entries]: one pair per entry, in order, the key and the
    value both registered as their own tracking views (or not objects),
    with the originals of the stored key and value. *)
Theorem DimmerMap_entries_wrapped (s : state) (this t : addr)
    (delta es : list (value * value)) :
  wf s →
  DimmerMap.view s this = Some (t, delta, es) →
  Forall (λ e, live s e.1 ∧ live s e.2) es →
  ∃ ps s1, DimmerMapIterators.entries this s = Ok ps s1 ∧ wf s1 ∧
           DimmerMap.view s1 this = Some (t, delta, es) ∧
           Forall2 (λ e p, (wrapped s1 p.1 ∧ asOriginal s1 p.1 = asOriginal s e.1) ∧
                           (wrapped s1 p.2 ∧ asOriginal s1 p.2 = asOriginal s e.2)) es ps.
Proof.
  intros Hwf Hview Hlive.
  destruct (proxify_entries_wraps es s Hwf Hlive) as (ps & s1 & Hp & Hwf1 & Hext & Hall).
  exists ps, s1. unfold DimmerMapIterators.entries. rewrite Hview.
  split_and!; try done. by apply (extends_view s).
Qed.

Lemma DimmerMap_entries_wrapped_witness :
  wf example_container_value_state ∧
  ∃ ps s1, DimmerMapIterators.entries 2 example_container_value_state = Ok ps s1 ∧
           length ps = 1.
Proof.
  assert (wf example_container_value_state) as Hwf
    by (apply (bool_decide_unpack (wf _)); by vm_compute).
  split; [exact Hwf|].
  destruct (DimmerMap_entries_wrapped example_container_value_state 2 1 []
              [(VString "a", VObject 0)] Hwf eq_refl)
    as (ps & s1 & H1 & _ & _ & H2).
  { repeat constructor. }
  exists ps, s1. split; [done|].
  by apply Forall2_length in H2.
Defined.

(** ** A whole scope of writes on a map *)

Section scope_pure.
Implicit Types (k v : value) (es delta : list (value * value)).

Lemma Map_lookup_nil k : Map_lookup [] k = None.
Proof. done. Qed.

Lemma Map_lookup_Some_get es k v : Map_lookup es k = Some v → Map_get es k = v.
Proof. unfold Map_lookup. destruct (Map_has es k); [by intros [= ->] | done]. Qed.

Lemma pre_image_lookup es k : Map_has es k = true → pre_image (Map_lookup es k) = Map_get es k.
Proof. intros H. unfold Map_lookup. by rewrite H. Qed.

Lemma pre_image_lookup_absent es k : Map_has es k = false → pre_image (Map_lookup es k) = NO_ENTRY.
Proof. intros H. unfold Map_lookup. by rewrite H. Qed.

Lemma Map_delete_absent es k : Map_has es k = false → Map_delete es k = es.
Proof.
  unfold Map_delete. induction es as [|[k0 v0] r IH]; [done|]. simpl.
  case_decide as Hk; [done|]. intros Hr. rewrite filter_cons. simpl.
  rewrite decide_True by congruence. by rewrite IH.
Qed.

Lemma Map_lookup_cons k0 v0 es k :
  Map_lookup ((k0, v0) :: es) k = if decide (k = k0) then Some v0 else Map_lookup es k.
Proof. unfold Map_lookup. simpl. by case_decide. Qed.

Lemma snapshot_all_lookup es : ∀ delta k,
  Map_lookup (snapshot_all delta es) k =
    match Map_lookup delta k with
    | Some v => Some v
    | None => Map_lookup es k
    end.
Proof.
  unfold snapshot_all. induction es as [|[k0 v0] r IH]; intros delta k; cbn [fold_left].
  - by destruct (Map_lookup delta k).
  - rewrite IH. cbn [fst snd]. rewrite Map_lookup_cons.
    destruct (Map_has delta k0) eqn:Hh.
    + destruct (decide (k = k0)) as [->|Hne]; [|done].
      unfold Map_lookup. by rewrite Hh.
    + rewrite Map_lookup_set.
      destruct (decide (k = k0)) as [->|Hne]; [|done].
      unfold Map_lookup. by rewrite Hh.
Qed.

Lemma snapshot_all_NoDup es : ∀ delta,
  NoDup (Map_keys delta) → NoDup (Map_keys (snapshot_all delta es)).
Proof.
  unfold snapshot_all. induction es as [|[k0 v0] r IH]; intros delta Hnd; cbn [fold_left]; [done|].
  apply IH. cbn [fst snd]. destruct (Map_has delta k0); [done | by apply Map_set_NoDup].
Qed.

Lemma touch_NoDup delta es k : NoDup (Map_keys delta) → NoDup (Map_keys (touch delta es k)).
Proof. intros H. unfold touch. destruct (Map_has delta k); [done | by apply Map_set_NoDup]. Qed.

Lemma touch_lookup delta es k k' :
  Map_lookup (touch delta es k) k' =
    if decide (k' = k)
    then Some (match Map_lookup delta k with
               | Some v => v
               | None => pre_image (Map_lookup es k)
               end)
    else Map_lookup delta k'.
Proof.
  unfold touch. destruct (Map_has delta k) eqn:Hh.
  - case_decide; [subst; unfold Map_lookup; by rewrite Hh | done].
  - rewrite Map_lookup_set. case_decide; [|done]. unfold Map_lookup. by rewrite Hh.
Qed.

Lemma tracks_touch es0 delta es k :
  tracks es0 delta es → tracks es0 (touch delta es k) es.
Proof.
  intros [Hnd Ht]. split; [by apply touch_NoDup|].
  intros k'. rewrite touch_lookup. case_decide as Hk; [|apply Ht].
  subst. specialize (Ht k). destruct (Map_lookup delta k); [done | by rewrite Ht].
Qed.

(** Once a key is in the open patch, the target may change under it. *)
Lemma tracks_overwrite es0 delta es es1 k :
  tracks es0 delta es → Map_has delta k = true →
  (∀ k', k' ≠ k → Map_lookup es1 k' = Map_lookup es k') →
  tracks es0 delta es1.
Proof.
  intros [Hnd Ht] Hk Hes. split; [done|]. intros k'. specialize (Ht k').
  destruct (Map_lookup delta k') eqn:Hl; [done|].
  rewrite Hes; [done|]. intros ->. unfold Map_lookup in Hl. by rewrite Hk in Hl.
Qed.

Lemma touch_has delta es k : Map_has (touch delta es k) k = true.
Proof.
  unfold touch. destruct (Map_has delta k) eqn:Hh; [done|].
  rewrite Map_has_set. by rewrite decide_True.
Qed.

Lemma tracks_write es0 delta es w :
  tracks es0 delta es → tracks es0 (write_delta w delta es) (write_target w es).
Proof.
  intros Ht. destruct w as [k v|k|]; simpl.
  - apply (tracks_overwrite es0 _ es _ k); [by apply tracks_touch | apply touch_has |].
    intros k' Hne. rewrite Map_lookup_set. by rewrite decide_False.
  - destruct (Map_has es k) eqn:Hh.
    + apply (tracks_overwrite es0 _ es _ k); [by apply tracks_touch | apply touch_has |].
      intros k' Hne. rewrite Map_lookup_delete. by rewrite decide_False.
    + by rewrite Map_delete_absent.
  - destruct Ht as [Hnd Ht]. split; [by apply snapshot_all_NoDup|].
    intros k. rewrite snapshot_all_lookup. specialize (Ht k).
    destruct (Map_lookup delta k); [done|].
    rewrite Ht. destruct (Map_lookup es0 k); [done|]. by rewrite Map_lookup_nil.
Qed.

Lemma tracks_start es0 : tracks es0 [] es0.
Proof. split; [apply NoDup_nil_2 | done]. Qed.

Lemma snapshot_all_keys es : ∀ delta,
  Map_keys (snapshot_all delta es) ⊆ Map_keys delta ++ Map_keys es.
Proof.
  intros delta k Hk. apply Map_has_elem_of in Hk.
  pose proof (snapshot_all_lookup es delta k) as Hl. unfold Map_lookup in Hl.
  rewrite Hk in Hl. apply elem_of_app.
  destruct (Map_has delta k) eqn:Hd; [left; by apply Map_has_elem_of|].
  right. apply Map_has_elem_of. by destruct (Map_has es k).
Qed.

Lemma write_delta_keys w delta es :
  Map_keys (write_delta w delta es) ⊆ Map_keys delta ++ Map_keys es ++ write_key w.
Proof.
  intros x Hx. rewrite !elem_of_app.
  assert (∀ k, x ∈ Map_keys (touch delta es k) → x ∈ Map_keys delta ∨ x = k) as Htouch.
  { intros k Hk. apply Map_has_elem_of in Hk. unfold touch in Hk.
    destruct (Map_has delta k); [left; by apply Map_has_elem_of|].
    rewrite Map_has_set in Hk. case_decide; [by right|left; by apply Map_has_elem_of]. }
  destruct w as [k v|k|]; simpl in *.
  - destruct (Htouch k Hx) as [?| ->]; [by left|]. right. right. by left.
  - destruct (Map_has es k).
    + destruct (Htouch k Hx) as [?| ->]; [by left|]. right. right. by left.
    + by left.
  - apply snapshot_all_keys, elem_of_app in Hx as [?|?]; auto.
Qed.

Lemma write_target_keys w es : Map_keys (write_target w es) ⊆ Map_keys es ++ write_key w.
Proof.
  intros x Hx. rewrite elem_of_app. destruct w as [k v|k|]; simpl in *.
  - rewrite Map_keys_set in Hx. destruct (Map_has es k); [by left|].
    apply elem_of_app in Hx as [?|?]; auto.
  - left. by apply (Map_keys_delete es k).
  - by apply elem_of_nil in Hx.
Qed.

End scope_pure.

Section scope_steps.
Implicit Types (s : state) (k v : value) (t this : addr) (es delta : list (value * value)).

Lemma plain_key_links s s1 k : same_links s s1 → plain_key s k → plain_key s1 k.
Proof.
  intros Hl (H1 & H2 & H3). split_and!; [|  |done].
  - by rewrite (same_links_tryGetProxy _ _ _ Hl).
  - by rewrite (same_links_asOriginal _ _ _ Hl).
Qed.

Lemma plain_key_resolution s es k :
  plain_key s k → getKeyUsedByMap_default s es k = if Map_has es k then k else VUndefined.
Proof.
  intros (H1 & H2 & H3). unfold getKeyUsedByMap_default, getKeyUsedByMap.
  by rewrite H1, H2.
Qed.

Lemma plain_key_unaliased s held k : plain_key s k → unaliased s held k.
Proof.
  intros (H1 & H2 & H3) a [[-> Ht]| ->] Hne.
  - by rewrite H1 in Ht.
  - by rewrite H2 in Hne.
Qed.

Lemma put_wf s s0 this t delta es delta1 es1 :
  wf s → DimmerMap.view s this = Some (t, delta, es) →
  heap s0 = heap s → objectToProxy s0 = objectToProxy s → nextAddr s0 = nextAddr s →
  wf (DimmerMap.put this t delta1 es1 s0).
Proof.
  intros Hwf Hview Hh Hr Hn. destruct (view_inv _ _ _ _ _ Hview) as (Hthis & Ht & Hne).
  apply (same_links_wf s); [done | by apply (put_links s s0 this t delta es) | simpl; lia |].
  intros x Hx. simpl in Hx |- *. rewrite Hn. rewrite Hh in Hx.
  destruct (decide (x = t)) as [->|Hx1]; [apply (wf_heap_bound s t Hwf); eauto|].
  rewrite lookup_insert_ne in Hx by done.
  destruct (decide (x = this)) as [->|Hx2]; [apply (wf_heap_bound s this Hwf); eauto|].
  rewrite lookup_insert_ne in Hx by done. by apply wf_heap_bound.
Qed.

(** The loop of [clear] writes the open patch and [modified] only. *)
Lemma clear_loop t es : ∀ delta s,
  ∃ s1,
    fold_left (λ '(d, s') '(key, value'),
                 if negb (Map_has d key)
                 then (Map_set d key value', modified_add (VObject t) s')
                 else (d, s'))
              es (delta, s) = (snapshot_all delta es, s1) ∧
    heap s1 = heap s ∧ objectToProxy s1 = objectToProxy s ∧ nextAddr s1 = nextAddr s.
Proof.
  unfold snapshot_all. induction es as [|[k0 v0] r IH]; intros delta s; cbn [fold_left].
  - by exists s.
  - cbn [fst snd]. destruct (Map_has delta k0); simpl.
    + apply IH.
    + destruct (IH (Map_set delta k0 v0) (modified_add (VObject t) s))
        as (s1 & -> & H1 & H2 & H3).
      by exists s1.
Qed.

(** One write with a plain key, seen from the view. *)
Lemma write_step s this t delta es w :
  DimmerMap.view s this = Some (t, delta, es) →
  (∀ k, k ∈ write_key w → plain_key s k) →
  ∃ s1,
    run_write this w s = Ok tt s1 ∧
    DimmerMap.view s1 this = Some (t, write_delta w delta es, write_target w es) ∧
    same_links s s1 ∧
    (wf s → wf s1).
Proof.
  intros Hview Hplain. destruct (view_inv _ _ _ _ _ Hview) as (Hthis & Ht & Hne).
  destruct w as [k v|k|]; simpl.
  - assert (plain_key s k) as Hk by (apply Hplain; by left).
    destruct (set_view s this t delta es k v Hview) as (s1 & Hset & Hview1 & Hl & _).
    exists s1. unfold bind, ret. rewrite Hset. split_and!; try done.
    + rewrite Hview1. rewrite (plain_key_resolution s es k Hk).
      destruct Hk as (-> & -> & Htk). simpl. rewrite orb_false_r.
      unfold touch, JS_or.
      destruct (Map_has delta k); simpl;
        destruct (Map_has es k) eqn:Hh; simpl; rewrite ?Htk; try done.
      * by rewrite (pre_image_lookup _ _ Hh).
      * by rewrite (pre_image_lookup_absent _ _ Hh).
    + intros Hwf. exact (set_wf s this k v _ s1 Hwf Hset).
  - assert (plain_key s k) as Hk by (apply Hplain; by left).
    unfold bind, ret, DimmerMap.delete. rewrite Hview.
    pose proof (plain_key_resolution s es k Hk) as Hres.
    unfold getKeyUsedByMap_default in Hres. rewrite Hres.
    destruct Hk as (Hpk & Hok & Htk). rewrite Hpk, Hok. simpl. rewrite orb_false_r.
    destruct (Map_has es k) eqn:Hh; simpl.
    + rewrite Htk. unfold touch. rewrite (pre_image_lookup _ _ Hh).
      destruct (Map_has delta k); simpl; eexists; (split_and!; [reflexivity | | | ]).
      all: try (by apply put_view).
      all: try (by apply (put_links s _ this t delta es)).
      all: intros Hwf; by apply (put_wf s _ this t delta es).
    + exists s. rewrite (Map_delete_absent _ _ Hh). by split_and!.
  - unfold DimmerMap.clear. rewrite Hview.
    destruct (clear_loop t es delta s) as (s1 & -> & H1 & H2 & H3).
    eexists. split_and!; [reflexivity | | | ].
    + by apply put_view.
    + by apply (put_links s _ this t delta es).
    + intros Hwf. by apply (put_wf s _ this t delta es).
Qed.

Lemma run_writes_tracks this t es0 K ws : ∀ s delta es,
  wf s →
  DimmerMap.view s this = Some (t, delta, es) →
  tracks es0 delta es →
  (∀ k, k ∈ concat (write_key <$> ws) → plain_key s k ∧ k ∈ K) →
  Map_keys delta ⊆ K → Map_keys es ⊆ K →
  ∃ s1 delta1 es1,
    run_writes this ws s = Ok tt s1 ∧
    DimmerMap.view s1 this = Some (t, delta1, es1) ∧
    tracks es0 delta1 es1 ∧
    same_links s s1 ∧ wf s1 ∧
    Map_keys delta1 ⊆ K ∧ Map_keys es1 ⊆ K.
Proof.
  induction ws as [|w ws IH]; intros s delta es Hwf Hview Htr Hkeys Hd He.
  - exists s, delta, es. split_and!; try done.
  - assert (∀ k, k ∈ write_key w → plain_key s k ∧ k ∈ K) as Hw.
    { intros k Hk. apply Hkeys. rewrite fmap_cons. simpl. apply elem_of_app. by left. }
    destruct (write_step s this t delta es w Hview) as (s' & Hrun & Hview' & Hl & Hwf').
    { intros k Hk. by apply Hw. }
    destruct (IH s' _ _ (Hwf' Hwf) Hview' (tracks_write _ _ _ w Htr))
      as (s1 & delta1 & es1 & Hruns & Hview1 & Htr1 & Hl1 & Hwf1 & Hd1 & He1).
    + intros k Hk. split.
      * apply (plain_key_links s s' k Hl), Hkeys.
        rewrite fmap_cons. simpl. apply elem_of_app. by right.
      * apply Hkeys. rewrite fmap_cons. simpl. apply elem_of_app. by right.
    + intros x Hx%write_delta_keys. rewrite !elem_of_app in Hx.
      destruct Hx as [?|[?|?]]; [by apply Hd | by apply He | by apply Hw].
    + intros x Hx%write_target_keys. rewrite elem_of_app in Hx.
      destruct Hx as [?|?]; [by apply He | by apply Hw].
    + exists s1, delta1, es1. split_and!; try done.
      * simpl. unfold bind. by rewrite Hrun.
      * by apply (same_links_trans s s' s1).
Qed.

End scope_steps.

Section scope_commit.
Implicit Types (s : state) (k v : value) (t this : addr) (es delta : list (value * value)).

Lemma plain_key_string s str : str ≠ EmptyString → plain_key s (VString str).
Proof.
  intros Hne. split_and!; [done | by apply asOriginal_raw |].
  simpl. destruct str; [done | done].
Qed.

(** A scope of writes with plain keys, then [commitDelta]. *)
Lemma scope_then_commit s this t es0 ws :
  wf s →
  DimmerMap.view s this = Some (t, [], es0) →
  (∀ k, k ∈ scope_keys es0 ws → plain_key s k) →
  ∃ s1 es s2 committed,
    run_writes this ws s = Ok tt s1 ∧
    DimmerMap.commitDelta this s1 = Ok (nextAddr s1) s2 ∧
    heap s2 !! nextAddr s1 = Some (Map_ committed) ∧
    patchToTarget s2 !! nextAddr s1 = Some t ∧
    DimmerMap.view s2 this = Some (t, [], es) ∧
    tracks es0 committed es ∧
    same_links s s2 ∧
    Map_keys committed ⊆ scope_keys es0 ws ∧
    Map_keys es ⊆ scope_keys es0 ws.
Proof.
  intros Hwf Hview Hplain.
  destruct (run_writes_tracks this t es0 (scope_keys es0 ws) ws s [] es0 Hwf Hview
              (tracks_start es0))
    as (s1 & delta1 & es1 & Hrun & Hview1 & Htr & Hl1 & Hwf1 & Hd & He).
  - intros k Hk. assert (k ∈ scope_keys es0 ws) by (apply elem_of_app; by right).
    split; [by apply Hplain | done].
  - by intros x Hx%elem_of_nil.
  - intros x Hx. apply elem_of_app. by left.
  - destruct (commitDelta_view s1 this t delta1 es1 Hwf1 Hview1)
      as (s2 & Hc & Hp & Hpt & Hview2 & Hl2).
    exists s1, es1, s2, delta1. split_and!; try done.
    by apply (same_links_trans s s1 s2).
Qed.

End scope_commit.

(** Whatever a scope writes through the view of a map — [set], [delete]
    and [clear] in any order, with plain keys — the committed patch holds
    pre-images only: each of its keys maps to the value the map held when
    the scope began, or to [NO_ENTRY] when the map had no such key, and
    every key that is not in the patch has the entry it had when the scope
    began. *)
Theorem scope_patch_records_pre_images (s : state) (this t : addr)
    (es0 : list (value * value)) (ws : list map_write) :
  wf s →
  DimmerMap.view s this = Some (t, [], es0) →
  (∀ k, k ∈ scope_keys es0 ws → plain_key s k) →
  ∃ s1 es patch s2 committed,
    run_writes this ws s = Ok tt s1 ∧
    DimmerMap.commitDelta this s1 = Ok patch s2 ∧
    heap s2 !! patch = Some (Map_ committed) ∧
    patchToTarget s2 !! patch = Some t ∧
    DimmerMap.view s2 this = Some (t, [], es) ∧
    ∀ k, match Map_lookup committed k with
         | Some v => v = pre_image (Map_lookup es0 k)
         | None => Map_lookup es k = Map_lookup es0 k
         end.
Proof.
  intros Hwf Hview Hplain.
  destruct (scope_then_commit s this t es0 ws Hwf Hview Hplain)
    as (s1 & es & s2 & committed & Hrun & Hc & Hp & Hpt & Hview2 & [_ Htr] & _).
  exists s1, es, (nextAddr s1), s2, committed. by split_and!.
Qed.

(** Undoing the committed patch of such a scope brings the map back: after
    [undoPatch] the map has, under every key, the entry it had when the
    scope began (the map must not hold [NO_ENTRY] itself as a value). *)
Theorem scope_undo_restores (s : state) (this t : addr)
    (es0 : list (value * value)) (ws : list map_write) :
  wf s →
  DimmerMap.view s this = Some (t, [], es0) →
  (∀ k, k ∈ scope_keys es0 ws → plain_key s k) →
  (∀ k, k ∈ Map_keys es0 → Map_get es0 k ≠ NO_ENTRY) →
  ∃ patch s2 s3 after,
    (let* _ := run_writes this ws in DimmerMap.commitDelta this) s = Ok patch s2 ∧
    undoPatch patch s2 = Ok tt s3 ∧
    heap s3 !! t = Some (Map_ after) ∧
    same_contents (Map_ after) (Map_ es0).
Proof.
  intros Hwf Hview Hplain Hvalues.
  destruct (scope_then_commit s this t es0 ws Hwf Hview Hplain)
    as (s1 & es & s2 & committed & Hrun & Hc & Hp & Hpt & Hview2 & [Hnd Htr] & Hl & Hd & He).
  destruct (view_inv _ _ _ _ _ Hview2) as (_ & Ht & _).
  exists (nextAddr s1), s2, (set_heap <[t := Map_ (fold_left (undo_map_entry s2) committed es)]> s2),
    (fold_left (undo_map_entry s2) committed es).
  split_and!.
  - unfold bind. by rewrite Hrun.
  - unfold undoPatch. by rewrite Hpt, Ht, Hp.
  - simpl. apply lookup_insert_eq.
  - simpl. intros k.
    rewrite (fold_undo_unaliased s2 (scope_keys es0 ws)); [| |done|done].
    2: { intros k' Hk'. apply plain_key_unaliased, (plain_key_links s s2 k' Hl), Hplain.
         by apply Hd. }
    specialize (Htr k).
    destruct (decide (k ∈ Map_keys committed)) as [Hin|Hout].
    + rewrite fold_undo_simple_NoDup by done.
      apply Map_has_elem_of in Hin. unfold Map_lookup in Htr at 1. rewrite Hin in Htr.
      rewrite Htr. unfold Map_lookup.
      destruct (Map_has es0 k) eqn:Hh; simpl; [|done].
      rewrite decide_False; [done|]. by apply Hvalues, Map_has_elem_of.
    + rewrite fold_undo_simple_other by done.
      apply Map_has_false in Hout. unfold Map_lookup in Htr at 1. by rewrite Hout in Htr.
Qed.

Lemma scope_patch_records_pre_images_witness :
  wf (example_map_view [(VString "k", VString "v0")]) ∧
  ∃ s1 es patch s2 committed,
    run_writes 1 [Write_set (VString "k") (VString "v1"); Write_delete (VString "k");
                  Write_set (VString "j") (VString "x"); Write_clear]
      (example_map_view [(VString "k", VString "v0")]) = Ok tt s1 ∧
    DimmerMap.commitDelta 1 s1 = Ok patch s2 ∧
    heap s2 !! patch = Some (Map_ committed) ∧
    DimmerMap.view s2 1 = Some (0, [], es).
Proof.
  assert (wf (example_map_view [(VString "k", VString "v0")])) as Hwf
    by (apply (bool_decide_unpack (wf _)); by vm_compute).
  split; [exact Hwf|].
  destruct (scope_patch_records_pre_images
              (example_map_view [(VString "k", VString "v0")]) 1 0
              [(VString "k", VString "v0")]
              [Write_set (VString "k") (VString "v1"); Write_delete (VString "k");
               Write_set (VString "j") (VString "x"); Write_clear] Hwf eq_refl)
    as (s1 & es & patch & s2 & committed & H1 & H2 & H3 & _ & H4 & _).
  { apply Forall_forall. repeat constructor; by apply plain_key_string. }
  by exists s1, es, patch, s2, committed.
Defined.

Lemma scope_undo_restores_witness :
  wf (example_map_view [(VString "k", VString "v0")]) ∧
  ∃ patch s2 s3 after,
    (let* _ := run_writes 1 [Write_set (VString "k") (VString "v1"); Write_clear] in
     DimmerMap.commitDelta 1) (example_map_view [(VString "k", VString "v0")]) = Ok patch s2 ∧
    undoPatch patch s2 = Ok tt s3 ∧
    heap s3 !! 0 = Some (Map_ after) ∧
    same_contents (Map_ after) (Map_ [(VString "k", VString "v0")]).
Proof.
  assert (wf (example_map_view [(VString "k", VString "v0")])) as Hwf
    by (apply (bool_decide_unpack (wf _)); by vm_compute).
  split; [exact Hwf|].
  apply (scope_undo_restores (example_map_view [(VString "k", VString "v0")]) 1 0
           [(VString "k", VString "v0")]
           [Write_set (VString "k") (VString "v1"); Write_clear] Hwf eq_refl).
  - apply Forall_forall. repeat constructor; by apply plain_key_string.
  - apply Forall_forall. by repeat constructor.
Defined.

(** ** Undoing twice *)

Section undo_twice.
Implicit Types (k v : value) (es l : list (value * value)) (ms : list value)
  (ps : list (string * value)).

Lemma fold_left_fixpoint {A B : Type} (f : A → B → A) (l : list B) (x : A) :
  (∀ e, e ∈ l → f x e = x) → fold_left f l x = x.
Proof.
  induction l as [|e l IH]; intros H; simpl; [done|].
  rewrite H by (by left). apply IH. intros e' He'. apply H. by right.
Qed.

Lemma Map_get_NoDup l k v : NoDup (Map_keys l) → (k, v) ∈ l → Map_get l k = v.
Proof.
  induction l as [|[k0 v0] l IH]; intros Hnd Hin; [by apply elem_of_nil in Hin|].
  apply NoDup_cons in Hnd as [Hk0 Hnd]. simpl.
  apply elem_of_cons in Hin as [[= -> ->]|Hin]; [by rewrite decide_True|].
  rewrite decide_False; [by apply IH|].
  intros ->. apply Hk0. apply list_elem_of_fmap. by exists (k0, v).
Qed.

Lemma Map_set_same es k : Map_has es k = true → Map_set es k (Map_get es k) = es.
Proof.
  induction es as [|[k0 v0] r IH]; [done|]. simpl.
  case_decide; [by subst|]. intros Hh. by rewrite IH.
Qed.

Lemma undo_simple_fixpoint es k v :
  Map_lookup es k = (if decide (v = NO_ENTRY) then None else Some v) →
  undo_simple es (k, v) = es.
Proof.
  unfold undo_simple, Map_lookup. simpl. case_decide as Hv.
  - subst. rewrite bool_decide_false by (by intros H).
    destruct (Map_has es k) eqn:Hh; [done|]. intros _. by apply Map_delete_absent.
  - rewrite bool_decide_true by done.
    destruct (Map_has es k) eqn:Hh; [|done]. intros [= <-]. by apply Map_set_same.
Qed.

Lemma fold_undo_simple_twice l es :
  NoDup (Map_keys l) →
  fold_left undo_simple l (fold_left undo_simple l es) = fold_left undo_simple l es.
Proof.
  intros Hnd. apply fold_left_fixpoint. intros [k v] Hin.
  apply undo_simple_fixpoint.
  rewrite fold_undo_simple_NoDup; [|done|].
  - by rewrite (Map_get_NoDup l k v).
  - apply list_elem_of_fmap. by exists (k, v).
Qed.

Lemma Set_delete_absent ms k : Set_has ms k = false → Set_delete ms k = ms.
Proof.
  unfold Set_has, Set_delete. intros H%bool_decide_eq_false.
  induction ms as [|m ms IH]; [done|].
  rewrite filter_cons. apply not_elem_of_cons in H as [Hne H].
  rewrite decide_True by done. by rewrite IH.
Qed.

Lemma fold_undo_set_twice l ms :
  NoDup (Map_keys l) →
  fold_left undo_set_entry l (fold_left undo_set_entry l ms) = fold_left undo_set_entry l ms.
Proof.
  intros Hnd. apply fold_left_fixpoint. intros [k v] Hin.
  assert (Set_has (fold_left undo_set_entry l ms) k = truthy v) as Hh.
  { rewrite fold_undo_set_NoDup; [|done|].
    - by rewrite (Map_get_NoDup l k v).
    - apply list_elem_of_fmap. by exists (k, v). }
  change (undo_set_entry ?x (k, v))
    with (if truthy v then Set_add x k else Set_delete x k).
  destruct (truthy v).
  - unfold Set_add. by rewrite Hh.
  - by apply Set_delete_absent.
Qed.

Lemma prop_set_same ps name : name ∈ ps.*1 → prop_set ps name (prop_get ps name) = ps.
Proof.
  induction ps as [|[k0 v0] r IH]; [by intros ?%elem_of_nil|]. simpl.
  case_decide; [by subst|]. intros [?|Hin]%elem_of_cons; [done|]. by rewrite IH.
Qed.

Lemma prop_set_names ps name v name' : name' ∈ (prop_set ps name v).*1 ↔ name' = name ∨ name' ∈ ps.*1.
Proof.
  induction ps as [|[k0 v0] r IH]; simpl.
  - rewrite list_elem_of_singleton. split; [by left | intros [?|?%elem_of_nil]; done].
  - case_decide; simpl; rewrite !elem_of_cons; [subst; tauto|]. rewrite IH. tauto.
Qed.

Lemma fold_undo_prop_names l : ∀ ps name,
  VString name ∈ Map_keys l → name ∈ (fold_left undo_prop l ps).*1.
Proof.
  assert (∀ l ps name, name ∈ ps.*1 → name ∈ (fold_left undo_prop l ps).*1) as Hkeep.
  { clear. induction l as [|[k0 v0] l IH]; intros ps name Hin; cbn [fold_left]; [done|].
    apply IH. apply prop_set_names. by right. }
  induction l as [|[k0 v0] l IH]; intros ps name Hin; cbn [fold_left].
  { by apply elem_of_nil in Hin. }
  unfold Map_keys in Hin. rewrite fmap_cons in Hin. simpl in Hin.
  apply elem_of_cons in Hin as [<-|Hin]; [|by apply IH].
  apply Hkeep. apply prop_set_names. by left.
Qed.

Lemma fold_undo_prop_twice l ps :
  NoDup (Map_keys l) → (∀ k, k ∈ Map_keys l → ∃ n, k = VString n) →
  fold_left undo_prop l (fold_left undo_prop l ps) = fold_left undo_prop l ps.
Proof.
  intros Hnd Hnames. apply fold_left_fixpoint. intros [k v] Hin.
  assert (k ∈ Map_keys l) as Hk by (apply list_elem_of_fmap; by exists (k, v)).
  destruct (Hnames k Hk) as [name ->].
  change (undo_prop ?x (VString name, v)) with (prop_set x name v).
  rewrite <- (Map_get_NoDup l (VString name) v Hnd Hin).
  rewrite <- (fold_undo_prop_NoDup l ps name Hnames Hnd Hk).
  apply prop_set_same. by apply fold_undo_prop_names.
Qed.

End undo_twice.

(** [undoPatch] is idempotent: on an [undoable] patch it returns, and
    undoing the same patch again returns and changes nothing at all. *)
Theorem undoPatch_idempotent (s : state) (patch : addr) :
  undoable s patch →
  ∃ s1, undoPatch patch s = Ok tt s1 ∧ undoPatch patch s1 = Ok tt s1.
Proof.
  unfold undoable. intros Hu.
  destruct (patchToTarget s !! patch) as [target|] eqn:Hpt; [|done].
  destruct Hu as [Hne Hu].
  destruct (heap s !! target) as [before|] eqn:Ht; [|done].
  destruct (heap s !! patch) as [patched|] eqn:Hp; [|by destruct before].
  assert (∀ o, is_raw o = true → is_raw before = true →
            same_links s (set_heap <[target := o]> s)) as Hlinks.
  { intros o Ho Hb. apply (raw_update_links s _ target o); try done.
    by apply (ORIGINAL_raw s target before). }
  assert (∀ o (s1 : state), heap s1 = <[target := o]> (heap s) →
            heap s1 !! target = Some o ∧ heap s1 !! patch = Some patched) as Hlook.
  { intros o s1 ->. split; [apply lookup_insert_eq|]. by rewrite lookup_insert_ne. }
  assert (∀ o, set_heap <[target := o]> (set_heap <[target := o]> s)
               = set_heap <[target := o]> s) as Hsame.
  { intros o. unfold set_heap. simpl. by rewrite insert_insert_eq. }
  destruct before as [es|ms|xs|ps| | |]; try done;
    destruct patched as [pes|?|pxs|?| | |]; try done.
  - destruct Hu as [Hnd Hun].
    assert (fold_left (undo_map_entry s) pes es = fold_left undo_simple pes es) as Hfirst.
    { apply (fold_undo_unaliased s (Map_keys es ++ Map_keys pes)); [done | |].
      - intros x Hx. apply elem_of_app. by left.
      - intros x Hx. apply elem_of_app. by right. }
    eexists. split.
    + unfold undoPatch. rewrite Hpt, Ht, Hp. reflexivity.
    + unfold undoPatch. simpl. rewrite Hpt.
      rewrite lookup_insert_eq, lookup_insert_ne, Hp by done.
      rewrite Hfirst. f_equal.
      rewrite (fold_undo_unaliased _ (Map_keys es ++ Map_keys pes)).
      * rewrite fold_undo_simple_twice by done. apply Hsame.
      * intros k Hk. apply (unaliased_links s); [|by apply Hun].
        by apply (Hlinks (Map_ (fold_left undo_simple pes es))).
      * apply fold_undo_simple_keys.
      * intros x Hx. apply elem_of_app. by right.
  - eexists. split.
    + unfold undoPatch. rewrite Hpt, Ht, Hp. reflexivity.
    + unfold undoPatch. simpl. rewrite Hpt.
      rewrite lookup_insert_eq, lookup_insert_ne, Hp by done.
      f_equal. rewrite fold_undo_set_twice by done. apply Hsame.
  - eexists. split.
    + unfold undoPatch. rewrite Hpt, Ht, Hp. reflexivity.
    + unfold undoPatch. simpl. rewrite Hpt.
      rewrite lookup_insert_eq, lookup_insert_ne, Hp by done.
      f_equal. rewrite !undo_array_copies. apply Hsame.
  - destruct Hu as [Hnd Hnames].
    eexists. split.
    + unfold undoPatch. rewrite Hpt, Ht, Hp.
      rewrite (undo_object_names pes ps Hnames). reflexivity.
    + unfold undoPatch. simpl. rewrite Hpt.
      rewrite lookup_insert_eq, lookup_insert_ne, Hp by done.
      rewrite (undo_object_names pes _ Hnames).
      f_equal. rewrite fold_undo_prop_twice by done. apply Hsame.
Qed.

Lemma undoPatch_idempotent_witness :
  undoable example_committed_state 2 ∧
  ∃ s1, undoPatch 2 example_committed_state = Ok tt s1 ∧ undoPatch 2 s1 = Ok tt s1.
Proof.
  assert (undoable example_committed_state 2) as Hu.
  { change (2 ≠ 0 ∧ (NoDup (Map_keys [(VString "k", VString "v0")]) ∧
              ∀ k, k ∈ Map_keys [(VString "k", VString "v0")] →
                   unaliased example_committed_state
                     (Map_keys [(VString "k", VString "v1")]
                      ++ Map_keys [(VString "k", VString "v0")]) k)).
    split; [lia|]. split; [apply NoDup_singleton|].
    intros k Hk. apply list_elem_of_singleton in Hk. subst k.
    intros a [[-> Ht]| ->] Hne; done. }
  split; [exact Hu | exact (undoPatch_idempotent example_committed_state 2 Hu)].
Defined.

(** ** Recording scopes *)

(** On both exits of [recordPatches] the modified-set is empty: the
    [finally] block runs [clearContext] whether the mutator returned or
    threw, whatever the mutator is. *)
Theorem recordPatches_leaves_modified_empty (mutator : value → M unit)
    (state' : value) (s : state) :
  modified (state_of (recordPatches mutator state' s)) = [].
Proof.
  unfold recordPatches, try_finally, clearContext.
  by destruct (bind createContext _ s).
Qed.

(** An exception of the mutator leaves [recordPatches] as it was thrown,
    after the modified-set has been emptied; nothing is committed: the
    state is otherwise the one the mutator left. *)
Theorem recordPatches_rethrows (mutator : value → M unit) (state' stateProxy : value)
    (s s1 s2 : state) (e : error) :
  ensureProxy state' (set_modified (λ _, []) s) = Ok stateProxy s1 →
  mutator stateProxy s1 = Throw e s2 →
  recordPatches mutator state' s = Throw e (set_modified (λ _, []) s2).
Proof.
  intros He Hm. unfold recordPatches, try_finally, bind, createContext.
  by rewrite He, Hm.
Qed.

Lemma recordPatches_rethrows_witness :
  recordPatches (λ _, throw (Error "boom")) (VObject 0) example_object_state
  = Throw (Error "boom")
      (set_modified (λ _, [])
         (state_of (ensureProxy (VObject 0) (set_modified (λ _, []) example_object_state)))).
Proof.
  exact (recordPatches_rethrows (λ _, throw (Error "boom")) (VObject 0) (VObject 1)
           example_object_state _ _ (Error "boom") eq_refl eq_refl).
Defined.

Section scope_modified.
Implicit Types (s : state) (k v : value) (t this : addr) (es delta : list (value * value))
  (ms : list value).








End scope_modified.



(** ** Queries on a history *)

Section history_queries.
Implicit Types (s : state) (h : list (list value)) (b : list value) (T obj p : value).

Lemma getObjectTimeline_from s h obj :
  getObjectTimeline s h obj = timeline_from s (asOriginal s obj) 0 h.
Proof. done. Qed.

Lemma timeline_from_cons s T n b h :
  timeline_from s T n (b :: h)
  = (if truthy (findPatchForObject s b T) then [(n, findPatchForObject s b T)] else [])
    ++ timeline_from s T (S n) h.
Proof.
  unfold timeline_from. cbn [imap omap list_omap].
  rewrite (imap_ext _ (λ index patches,
             let patchForOriginal := findPatchForObject s patches T in
             if truthy patchForOriginal then Some (S n + index, patchForOriginal) else None)).
  - cbv zeta. rewrite Nat.add_0_r. by destruct (truthy (findPatchForObject s b T)).
  - intros i x _. simpl. by rewrite Nat.add_succ_r.
Qed.

Lemma findPatchForObject_cases s b obj :
  (findPatchForObject s b obj = VUndefined ∧
   filter (λ x, getPatchTarget s x = asOriginal s obj) b = []) ∨
  (∃ x, findPatchForObject s b obj = x ∧ x ∈ b ∧ getPatchTarget s x = asOriginal s obj).
Proof.
  unfold findPatchForObject. cbv zeta.
  destruct (find _ b) as [x|] eqn:Hf.
  - right. apply find_some in Hf as [Hin HP]. exists x.
    split_and!; [done | by apply list_elem_of_In | by apply bool_decide_eq_true in HP].
  - left. split; [done|]. pose proof (find_none _ _ Hf) as Hn.
    clear Hf. induction b as [|y r IH]; [done|].
    rewrite filter_cons. rewrite decide_False.
    + apply IH. intros x Hx. apply Hn. by right.
    + intros HP. specialize (Hn y (or_introl eq_refl)).
      by apply bool_decide_eq_false in Hn.
Qed.

Lemma findPatchForObject_twice s b obj :
  ORIGINAL s (asOriginal s obj) = VUndefined →
  findPatchForObject s b (asOriginal s obj) = findPatchForObject s b obj.
Proof. intros H. unfold findPatchForObject. by rewrite (asOriginal_raw _ _ H). Qed.

Lemma is_object_truthy p : is_object p → truthy p = true.
Proof. by intros [a ->]. Qed.

Lemma timeline_from_bounds s T : ∀ h n, Forall (λ e, n ≤ e.1) (timeline_from s T n h).
Proof.
  induction h as [|b h IH]; intros n; [by constructor|].
  rewrite timeline_from_cons. apply Forall_app. split.
  - destruct (truthy _); repeat constructor.
  - apply (Forall_impl _ _ _ (IH (S n))). intros e He. lia.
Qed.

Lemma timeline_from_sorted s T : ∀ h n, StronglySorted lt (timeline_from s T n h).*1.
Proof.
  induction h as [|b h IH]; intros n; [constructor|].
  rewrite timeline_from_cons.
  destruct (truthy _); [|apply IH].
  cbn [app fmap list_fmap fst]. apply SSorted_cons; [apply IH|].
  apply Forall_fmap. apply (Forall_impl _ _ _ (timeline_from_bounds s T h (S n))).
  intros e He. simpl. lia.
Qed.

Lemma timeline_from_sublist s obj : ∀ h n,
  ORIGINAL s (asOriginal s obj) = VUndefined →
  (timeline_from s (asOriginal s obj) n h).*2
    `sublist_of` filter (λ x, getPatchTarget s x = asOriginal s obj) (concat h).
Proof.
  intros h n Hraw. revert n.
  induction h as [|b h IH]; intros n; [done|].
  rewrite timeline_from_cons, fmap_app. cbn [concat]. rewrite filter_app.
  apply sublist_app; [|apply IH].
  rewrite (findPatchForObject_twice s b obj Hraw).
  destruct (findPatchForObject_cases s b obj) as [[-> _]|(x & -> & Hin & HP)].
  - simpl. apply sublist_nil_l.
  - destruct (truthy x); [|apply sublist_nil_l].
    apply singleton_sublist_l. by apply list_elem_of_filter.
Qed.

Lemma filter_first_only s T b x :
  NoDup (getPatchTarget s <$> b) →
  x ∈ b → getPatchTarget s x = T →
  filter (λ y, getPatchTarget s y = T) b = [x].
Proof.
  induction b as [|y r IH]; intros Hnd Hin HP; [by apply elem_of_nil in Hin|].
  rewrite fmap_cons in Hnd. apply NoDup_cons in Hnd as [Hy Hnd].
  rewrite filter_cons. destruct (decide (getPatchTarget s y = T)) as [Hyes|Hno].
  - assert (filter (λ y, getPatchTarget s y = T) r = []) as ->.
    { destruct (filter _ r) as [|z zs] eqn:Hf; [done|].
      assert (z ∈ filter (λ y, getPatchTarget s y = T) r) as Hz by (rewrite Hf; by left).
      apply list_elem_of_filter in Hz as [Hz1 Hz2].
      destruct Hy. rewrite Hyes, <- Hz1. apply list_elem_of_fmap. by exists z. }
    apply elem_of_cons in Hin as [->|Hin]; [done|].
    destruct Hy. rewrite Hyes, <- HP. apply list_elem_of_fmap. by exists x.
  - apply elem_of_cons in Hin as [->|Hin]; [done|]. by apply IH.
Qed.

Lemma timeline_from_all s obj : ∀ h n,
  ORIGINAL s (asOriginal s obj) = VUndefined →
  Forall (Forall is_object) h →
  Forall (λ b, NoDup (getPatchTarget s <$> b)) h →
  (timeline_from s (asOriginal s obj) n h).*2
  = filter (λ x, getPatchTarget s x = asOriginal s obj) (concat h).
Proof.
  intros h n Hraw Hobj Hnd. revert n.
  induction h as [|b h IH]; intros n; [done|].
  apply Forall_cons in Hobj as [Hb Hobj]. apply Forall_cons in Hnd as [Hndb Hnd].
  rewrite timeline_from_cons, fmap_app. cbn [concat]. rewrite filter_app.
  rewrite (IH Hobj Hnd). f_equal.
  rewrite (findPatchForObject_twice s b obj Hraw).
  destruct (findPatchForObject_cases s b obj) as [[-> ->]|(x & -> & Hin & HP)]; [done|].
  rewrite (is_object_truthy x) by (by apply (proj1 (Forall_forall _ _) Hb)).
  by rewrite (filter_first_only s _ b x).
Qed.

(** [findPatchForObject] returns the first patch of the batch whose target
    is the original of the object, undefined when the batch has none. *)
Lemma findPatchForObject_first s b obj :
  (findPatchForObject s b obj = VUndefined ∧
   filter (λ x, getPatchTarget s x = asOriginal s obj) b = []) ∨
  (∃ x before after,
     findPatchForObject s b obj = x ∧ b = before ++ x :: after ∧
     getPatchTarget s x = asOriginal s obj ∧
     Forall (λ y, getPatchTarget s y ≠ asOriginal s obj) before).
Proof.
  unfold findPatchForObject. cbv zeta.
  induction b as [|y r IH]; [by left|].
  cbn [find]. rewrite filter_cons.
  destruct (decide (getPatchTarget s y = asOriginal s obj)) as [Hy|Hy].
  - rewrite bool_decide_true by done. right. exists y, [], r. by split_and!.
  - rewrite bool_decide_false by done.
    destruct IH as [[Hu Hf]|(x & before & after & Hx & -> & HP & Hbefore)]; [by left|].
    right. exists x, (y :: before), after. split_and!; try done. by constructor.
Qed.

Lemma findPatchForObject_at s before p after obj :
  getPatchTarget s p = asOriginal s obj →
  Forall (λ y, getPatchTarget s y ≠ asOriginal s obj) before →
  findPatchForObject s (before ++ p :: after) obj = p.
Proof.
  intros HP Hbefore. unfold findPatchForObject. cbv zeta.
  induction Hbefore as [|y r Hy _ IH]; cbn [app find].
  - by rewrite bool_decide_true.
  - by rewrite bool_decide_false.
Qed.

Lemma filter_none {A} (P : A → Prop) `{!∀ x, Decision (P x)} (l : list A) :
  Forall (λ y, ¬ P y) l → filter P l = [].
Proof.
  induction 1 as [|y r Hy _ IH]; [done|]. rewrite filter_cons. by rewrite decide_False.
Qed.

(** The entries of a timeline, by way of [findPatchForObject]. *)
Lemma getObjectTimeline_lookup s h obj index patch :
  ORIGINAL s (asOriginal s obj) = VUndefined →
  Forall (Forall is_object) h →
  (index, patch) ∈ getObjectTimeline s h obj ↔
  ∃ patches, h !! index = Some patches ∧ patch ∈ patches ∧
             findPatchForObject s patches obj = patch.
Proof.
  intros Hraw Hobj. unfold getObjectTimeline. cbv zeta.
  rewrite list_elem_of_omap. split.
  - intros (o & Ho & Hid). simpl in Hid. subst o.
    apply elem_of_lookup_imap in Ho as (i & b & Heq & Hb).
    rewrite (findPatchForObject_twice s b obj Hraw) in Heq.
    destruct (truthy (findPatchForObject s b obj)) eqn:Ht; [|done].
    injection Heq as -> ->. exists b. split_and!; [done | | done].
    destruct (findPatchForObject_cases s b obj) as [[Hu _]|(x & <- & Hin & _)];
      [by rewrite Hu in Ht | done].
  - intros (b & Hb & Hin & Hfind). exists (Some (index, patch)). split; [|done].
    apply elem_of_lookup_imap. exists index, b. split; [|done].
    rewrite (findPatchForObject_twice s b obj Hraw), Hfind.
    rewrite (is_object_truthy patch); [done|].
    apply (proj1 (Forall_forall _ _) (proj1 (Forall_lookup _ _) Hobj index b Hb)), Hin.
Qed.

(** The patches of a timeline: of each batch, the first patch of the
    object, if the batch has one. *)
Lemma timeline_from_firsts s obj : ∀ h n,
  ORIGINAL s (asOriginal s obj) = VUndefined →
  Forall (Forall is_object) h →
  (timeline_from s (asOriginal s obj) n h).*2
  = concat ((λ patches,
               take 1 (filter (λ x, getPatchTarget s x = asOriginal s obj) patches))
            <$> h).
Proof.
  intros h n Hraw Hobj. revert n.
  induction h as [|b h IH]; intros n; [done|].
  apply Forall_cons in Hobj as [Hb Hobj].
  rewrite timeline_from_cons, fmap_app, fmap_cons. cbn [concat].
  rewrite (IH Hobj). f_equal.
  rewrite (findPatchForObject_twice s b obj Hraw).
  destruct (findPatchForObject_first s b obj)
    as [[-> ->]|(x & before & after & -> & -> & HP & Hbefore)]; [done|].
  rewrite (is_object_truthy x).
  - rewrite filter_app, (filter_none _ before Hbefore), filter_cons, decide_True by done.
    done.
  - apply (proj1 (Forall_forall _ _) Hb). apply elem_of_app. right. by left.
Qed.

End history_queries.

(** [getObjectTimeline] has one entry for each batch of the history that
    holds a patch of the object, in the order of the history: the index of
    the batch and the first patch in it whose target is the original of
    the object.  A batch without such a patch has no entry, a batch with
    one has an entry, and the indices are strictly increasing.  (The object
    may be given by its view or by its original, whose original is not a
    view.) *)
Theorem getObjectTimeline_entries (s : state) (history : list (list value))
    (objectToFind : value) :
  ORIGINAL s (asOriginal s objectToFind) = VUndefined →
  Forall (Forall is_object) history →
  (∀ index patch,
     (index, patch) ∈ getObjectTimeline s history objectToFind ↔
     ∃ before after,
       history !! index = Some (before ++ patch :: after) ∧
       getPatchTarget s patch = asOriginal s objectToFind ∧
       Forall (λ x, getPatchTarget s x ≠ asOriginal s objectToFind) before) ∧
  (∀ index patches x,
     history !! index = Some patches → x ∈ patches →
     getPatchTarget s x = asOriginal s objectToFind →
     ∃ patch, (index, patch) ∈ getObjectTimeline s history objectToFind) ∧
  StronglySorted lt (getObjectTimeline s history objectToFind).*1.
Proof.
  intros Hraw Hobj.
  assert (∀ index before patch after,
            history !! index = Some (before ++ patch :: after) →
            getPatchTarget s patch = asOriginal s objectToFind →
            Forall (λ x, getPatchTarget s x ≠ asOriginal s objectToFind) before →
            (index, patch) ∈ getObjectTimeline s history objectToFind) as Hfirst.
  { intros index before patch after Hb HP Hbefore.
    apply (getObjectTimeline_lookup s history objectToFind index patch Hraw Hobj).
    exists (before ++ patch :: after). split_and!; [done | |].
    - apply elem_of_app. right. by left.
    - by apply findPatchForObject_at. }
  split_and!.
  - intros index patch. split.
    + intros (b & Hb & Hin & Hfind)%(getObjectTimeline_lookup _ _ _ _ _ Hraw Hobj).
      destruct (findPatchForObject_first s b objectToFind)
        as [[Hu Hnone]|(x & before & after & Hx & -> & HP & Hbefore)].
      * rewrite Hu in Hfind. subst patch.
        destruct (proj1 (Forall_forall _ _) (proj1 (Forall_lookup _ _) Hobj index b Hb)
                    VUndefined Hin) as [a Ha]. done.
      * rewrite Hx in Hfind. subst x. by exists before, after.
    + intros (before & after & Hb & HP & Hbefore). by apply (Hfirst index before patch after).
  - intros index patches x Hb Hin HP.
    destruct (findPatchForObject_first s patches objectToFind)
      as [[_ Hnone]|(y & before & after & _ & -> & HPy & Hbefore)].
    + assert (x ∈ filter (λ x, getPatchTarget s x = asOriginal s objectToFind) patches) as Hx
        by (by apply list_elem_of_filter).
      rewrite Hnone in Hx. by apply elem_of_nil in Hx.
    + exists y. by apply (Hfirst index before y after).
  - rewrite getObjectTimeline_from. apply timeline_from_sorted.
Qed.

Lemma getObjectTimeline_entries_witness :
  ORIGINAL example_committed_state (asOriginal example_committed_state (VObject 1))
    = VUndefined ∧
  Forall (Forall is_object) [[VObject 2]; []; [VObject 0; VObject 2; VObject 2]] ∧
  (0, VObject 2) ∈ getObjectTimeline example_committed_state
                     [[VObject 2]; []; [VObject 0; VObject 2; VObject 2]] (VObject 1) ∧
  (2, VObject 2) ∈ getObjectTimeline example_committed_state
                     [[VObject 2]; []; [VObject 0; VObject 2; VObject 2]] (VObject 1) ∧
  StronglySorted lt (getObjectTimeline example_committed_state
                       [[VObject 2]; []; [VObject 0; VObject 2; VObject 2]] (VObject 1)).*1.
Proof.
  assert (Forall (Forall is_object) [[VObject 2]; []; [VObject 0; VObject 2; VObject 2]])
    as Hobj by (repeat constructor; by eexists).
  destruct (getObjectTimeline_entries example_committed_state
              [[VObject 2]; []; [VObject 0; VObject 2; VObject 2]] (VObject 1) eq_refl Hobj)
    as (Hiff & _ & Hsorted).
  split_and!; [done | exact Hobj | | | exact Hsorted].
  - apply Hiff. exists [], []. split_and!; [done | done | constructor].
  - apply Hiff. exists [VObject 0], [VObject 2]. split_and!; [done | done |].
    by repeat constructor.
Defined.

(** The patches of a timeline are, of each batch, the first patch of the
    object only, where [findAllPatchesInHistory] returns all the patches
    of the object in each batch: hence the patches of a timeline are among
    those that [findAllPatchesInHistory] returns, in the same order, and
    the two agree when no batch has two patches with the same target,
    which is how [commitPatches] builds a batch. *)
Theorem getObjectTimeline_in_all_patches (s : state) (history : list (list value))
    (objectToFind : value) :
  ORIGINAL s (asOriginal s objectToFind) = VUndefined →
  findAllPatchesInHistory s history objectToFind
  = concat ((λ patches,
               filter (λ x, getPatchTarget s x = asOriginal s objectToFind) patches)
            <$> history) ∧
  (Forall (Forall is_object) history →
   (getObjectTimeline s history objectToFind).*2
   = concat ((λ patches,
                take 1 (filter (λ x, getPatchTarget s x = asOriginal s objectToFind)
                               patches))
             <$> history)) ∧
  (getObjectTimeline s history objectToFind).*2
    `sublist_of` findAllPatchesInHistory s history objectToFind ∧
  (Forall (Forall is_object) history →
   Forall (λ patches, NoDup (getPatchTarget s <$> patches)) history →
   (getObjectTimeline s history objectToFind).*2
   = findAllPatchesInHistory s history objectToFind).
Proof.
  intros Hraw. rewrite getObjectTimeline_from. split_and!.
  - unfold findAllPatchesInHistory. cbv zeta.
    induction history as [|b h IH]; [done|].
    cbn [concat]. rewrite filter_app, fmap_cons. cbn [concat]. by rewrite IH.
  - intros Hobj. by apply timeline_from_firsts.
  - by apply timeline_from_sublist.
  - intros Hobj Hnd. by apply timeline_from_all.
Qed.

Lemma getObjectTimeline_in_all_patches_witness :
  ORIGINAL example_committed_state (asOriginal example_committed_state (VObject 1))
    = VUndefined ∧
  Forall (Forall is_object) [[VObject 2; VObject 2]; []] ∧
  (getObjectTimeline example_committed_state [[VObject 2; VObject 2]; []] (VObject 1)).*2
  = [VObject 2] ∧
  findAllPatchesInHistory example_committed_state [[VObject 2; VObject 2]; []] (VObject 1)
  = [VObject 2; VObject 2].
Proof.
  assert (Forall (Forall is_object) [[VObject 2; VObject 2]; []]) as Hobj
    by (repeat constructor; by eexists).
  destruct (getObjectTimeline_in_all_patches example_committed_state
              [[VObject 2; VObject 2]; []] (VObject 1) eq_refl)
    as (Hall & Hfirsts & _ & _).
  split_and!; [done | exact Hobj | |].
  - rewrite (Hfirsts Hobj). by vm_compute.
  - rewrite Hall. by vm_compute.
Defined.

(** The queries on a history do not tell a view from its original: two
    values that [areSame] get the same patch, the same timeline and the
    same list of patches. *)
Theorem history_queries_respect_areSame (s : state) (history : list (list value))
    (patches : list value) (one two : value) :
  areSame s one two = true →
  findPatchForObject s patches one = findPatchForObject s patches two ∧
  getObjectTimeline s history one = getObjectTimeline s history two ∧
  findAllPatchesInHistory s history one = findAllPatchesInHistory s history two.
Proof.
  unfold areSame. intros H%bool_decide_eq_true.
  unfold findPatchForObject, getObjectTimeline, findAllPatchesInHistory.
  by rewrite H.
Qed.

Lemma history_queries_respect_areSame_witness :
  areSame example_committed_state (VObject 1) (VObject 0) = true ∧
  findPatchForObject example_committed_state [VObject 2] (VObject 1)
  = findPatchForObject example_committed_state [VObject 2] (VObject 0).
Proof.
  split; [done|].
  apply (history_queries_respect_areSame example_committed_state [] [VObject 2]
           (VObject 1) (VObject 0) eq_refl).
Defined.

(** ** Writing, then asking *)

Section set_then_has.
Implicit Types (s : state) (k v key p o : value) (es : list (value * value)).

Lemma Map_set_length es k v :
  length (Map_set es k v) = if Map_has es k then length es else S (length es).
Proof.
  induction es as [|[k0 v0] r IH]; simpl; [done|].
  case_decide; simpl; [done|]. rewrite IH. by destruct (Map_has r k).
Qed.

Lemma asOriginal_falsy s key : truthy (asOriginal s key) = false → asOriginal s key = key.
Proof.
  unfold asOriginal, JS_and, JS_or.
  destruct (truthy key) eqn:Hk; [|by rewrite Hk].
  destruct (truthy (ORIGINAL s key)) eqn:Ho; [|done]. by rewrite Ho.
Qed.

(** In a well-formed state a key is its own original or its own view. *)
Lemma wf_key_forms s key :
  wf s → asOriginal s key = key ∨ (tryGetProxy s key = key ∧ truthy key = true).
Proof.
  intros Hwf. destruct (ORIGINAL_cases s key) as [Hraw|[t Hview]].
  - left. by apply asOriginal_raw.
  - right. destruct key as [| | | | | |a]; try done. split; [|done].
    simpl. rewrite (wf_view_registered s a Hwf); [done|]. by rewrite Hview.
Qed.

(** The key under which [set] stores is one that [has] looks under. *)
Lemma stored_key_found es key p o v :
  o = key ∨ (p = key ∧ truthy key = true) →
  (truthy o = false → o = key) →
  let had := truthy (JS_or (JS_and p (VBool (Map_has es p))) (VBool (Map_has es o))) in
  let es1 := Map_set es (JS_or (getKeyUsedByMap es key p o) key) v in
  truthy (JS_or (JS_and p (VBool (Map_has es1 p))) (VBool (Map_has es1 o))) = true ∧
  length es1 = if had then length es else S (length es).
Proof.
  intros Hform Hfalsy. cbv zeta. unfold getKeyUsedByMap, JS_and, JS_or.
  destruct (truthy p) eqn:Hp; cbn [truthy].
  - destruct (Map_has es p) eqn:Hhp; cbn [truthy].
    + rewrite Hp. rewrite Map_set_length, Hhp, !Map_has_set.
      rewrite decide_True by done. done.
    + destruct (Map_has es o) eqn:Hho.
      * assert ((if truthy o then o else key) = o) as ->.
        { destruct (truthy o) eqn:Ho; [done|]. symmetry. by apply Hfalsy. }
        rewrite Map_set_length, Hho, !Map_has_set.
        rewrite (decide_True (P := o = o)) by done.
        split; [|done]. by destruct (decide (p = o)); [|rewrite Hhp].
      * cbn [truthy]. rewrite Map_set_length, !Map_has_set.
        destruct Hform as [->|[-> _]].
        -- rewrite Hho. rewrite (decide_True (P := key = key)) by done.
           split; [|done]. by destruct (decide (p = key)); [|rewrite Hhp].
        -- rewrite Hhp. by rewrite decide_True.
  - rewrite Hp. destruct Hform as [->|[-> Hk]]; [|congruence].
    destruct (Map_has es key) eqn:Hho.
    + assert ((if truthy key then key else key) = key) as -> by (by destruct (truthy key)).
      rewrite Map_set_length, Hho, !Map_has_set. by rewrite decide_True.
    + cbn [truthy]. rewrite Map_set_length, Hho, !Map_has_set.
      by rewrite decide_True.
Qed.

End set_then_has.

(** After [set(key, value)] the view has the key, whatever the key is — a
    container, its view, or a falsy primitive — and the size of the map has
    grown by one exactly when [has(key)] was false before. *)
Theorem DimmerMap_set_then_has (s : state) (this t : addr)
    (delta es : list (value * value)) (key value' : value) :
  wf s →
  DimmerMap.view s this = Some (t, delta, es) →
  ∃ had s1,
    DimmerMap.has this key s = Ok had s ∧
    DimmerMap.set this key value' s = Ok (VObject this) s1 ∧
    DimmerMap.has this key s1 = Ok true s1 ∧
    DimmerMap.size this s1 = Ok (if had then length es else S (length es)) s1.
Proof.
  intros Hwf Hview.
  destruct (set_view s this t delta es key value' Hview) as (s1 & Hset & Hview1 & Hl & _).
  destruct (stored_key_found es key (tryGetProxy s key) (asOriginal s key) value'
              (wf_key_forms s key Hwf) (asOriginal_falsy s key)) as [Hhas Hlen].
  eexists _, s1. unfold DimmerMap.has, DimmerMap.size.
  rewrite Hview, Hview1.
  rewrite (same_links_tryGetProxy s s1 _ Hl), (same_links_asOriginal s s1 _ Hl).
  split_and!; [reflexivity | exact Hset | |].
  - unfold getKeyUsedByMap_default. by rewrite Hhas.
  - unfold getKeyUsedByMap_default. by rewrite Hlen.
Qed.

Lemma DimmerMap_set_then_has_witness :
  wf example_aliased_state ∧
  ∃ had s1,
    DimmerMap.has 3 (VObject 0) example_aliased_state = Ok had example_aliased_state ∧
    DimmerMap.set 3 (VObject 0) (VNumber 7) example_aliased_state = Ok (VObject 3) s1 ∧
    DimmerMap.has 3 (VObject 0) s1 = Ok true s1 ∧
    DimmerMap.size 3 s1 = Ok (if had then 2 else 3) s1.
Proof.
  assert (wf example_aliased_state) as Hwf
    by (apply (bool_decide_unpack (wf _)); by vm_compute).
  split; [exact Hwf|].
  exact (DimmerMap_set_then_has example_aliased_state 3 1 []
           [(VObject 2, VNumber 0); (VObject 0, VString "raw")]
           (VObject 0) (VNumber 7) Hwf eq_refl).
Defined.

(** ** Committing into a history *)

Section committing_history.
Implicit Types (s : state) (h : list (list value)) (b : list value) (T : value).

Lemma find_ext_in {A} (f g : A → bool) (l : list A) :
  (∀ x, x ∈ l → f x = g x) → find f l = find g l.
Proof.
  induction l as [|y r IH]; intros H; [done|]. simpl.
  rewrite <- (H y) by (by left). destruct (f y); [done|].
  apply IH. intros x Hx. apply H. by right.
Qed.

Lemma filter_ext_in {A} (P Q : A → Prop) `{!∀ x, Decision (P x)} `{!∀ x, Decision (Q x)}
    (l : list A) :
  (∀ x, x ∈ l → P x ↔ Q x) → filter P l = filter Q l.
Proof.
  induction l as [|y r IH]; intros Hext; [done|].
  rewrite !filter_cons.
  rewrite IH by (intros x Hx; apply Hext; by right).
  destruct (decide (P y)) as [HP|HP], (decide (Q y)) as [HQ|HQ]; try done.
  - destruct HQ. by apply (Hext y); [left|].
  - destruct HP. by apply (Hext y); [left|].
Qed.

Lemma timeline_from_app s T : ∀ h h' n,
  timeline_from s T n (h ++ h')
  = timeline_from s T n h ++ timeline_from s T (n + length h) h'.
Proof.
  induction h as [|b h IH]; intros h' n.
  - simpl. by rewrite Nat.add_0_r.
  - cbn [app length]. rewrite !timeline_from_cons, IH, <- app_assoc.
    by rewrite Nat.add_succ_r.
Qed.

Lemma timeline_from_ext s s1 T : ∀ h n,
  (∀ b, b ∈ h → findPatchForObject s1 b T = findPatchForObject s b T) →
  timeline_from s1 T n h = timeline_from s T n h.
Proof.
  induction h as [|b h IH]; intros n H; [done|].
  rewrite !timeline_from_cons. rewrite (H b) by (by left).
  f_equal. apply IH. intros b' Hb'. apply H. by right.
Qed.

(** What [commitDelta] does to the registry of patch targets. *)
Lemma commitDelta_targets s this t delta es :
  DimmerMap.view s this = Some (t, delta, es) →
  ∃ s1, DimmerMap.commitDelta this s = Ok (nextAddr s) s1 ∧
        patchToTarget s1 = <[nextAddr s := t]> (patchToTarget s).
Proof.
  intros (Hthis & _ & _)%view_inv. unfold DimmerMap.commitDelta. rewrite Hthis.
  by eexists.
Qed.

End committing_history.

(** A commit adds exactly one patch to the history of the map: with the
    committed patch appended as a new batch, [findAllPatchesInHistory] and
    [getObjectTimeline] for the view return what they returned before the
    commit, followed by the new patch (at the index of the new batch). *)
Theorem commitDelta_extends_history (s : state) (this t : addr)
    (delta es : list (value * value)) (history : list (list value)) :
  wf s →
  DimmerMap.view s this = Some (t, delta, es) →
  Forall (Forall (live s)) history →
  ∃ patch s1,
    DimmerMap.commitDelta this s = Ok patch s1 ∧
    findPatchForObject s1 [VObject patch] (VObject this) = VObject patch ∧
    findAllPatchesInHistory s1 (history ++ [[VObject patch]]) (VObject this)
    = findAllPatchesInHistory s history (VObject this) ++ [VObject patch] ∧
    getObjectTimeline s1 (history ++ [[VObject patch]]) (VObject this)
    = getObjectTimeline s history (VObject this) ++ [(length history, VObject patch)].
Proof.
  intros Hwf Hview Hlive.
  destruct (commitDelta_view s this t delta es Hwf Hview)
    as (s1 & Hc & _ & Hpt & Hview1 & Hl).
  destruct (commitDelta_targets s this t delta es Hview) as (s1' & Hc' & Htargets).
  rewrite Hc in Hc'. injection Hc' as <-.
  destruct (view_inv _ _ _ _ _ Hview) as (Hthis & Ht & _).
  destruct (view_inv _ _ _ _ _ Hview1) as (Hthis1 & Ht1 & _).
  assert (asOriginal s (VObject this) = VObject t) as Ho.
  { apply asOriginal_view. simpl. by rewrite Hthis. }
  assert (asOriginal s1 (VObject this) = VObject t) as Ho1
    by (by rewrite (same_links_asOriginal s s1 _ Hl)).
  assert (asOriginal s1 (VObject t) = VObject t) as Hot1.
  { apply asOriginal_raw. by apply (ORIGINAL_raw s1 t (Map_ es)). }
  assert (asOriginal s (VObject t) = VObject t) as Hot
    by (by rewrite <- (same_links_asOriginal s s1 _ Hl)).
  assert (getPatchTarget s1 (VObject (nextAddr s)) = VObject t) as Hnew
    by (simpl; by rewrite Hpt).
  assert (∀ x, live s x → getPatchTarget s1 x = getPatchTarget s x) as Hold.
  { intros [| | | | | |a] Ha; try done. simpl in Ha |- *.
    rewrite Htargets, lookup_insert_ne by lia. done. }
  assert (∀ b T, Forall (live s) b → asOriginal s1 T = asOriginal s T →
            findPatchForObject s1 b T = findPatchForObject s b T) as Hfind.
  { intros b T Hb HT. unfold findPatchForObject. rewrite HT. f_equal.
    apply find_ext_in. intros x Hx.
    by rewrite (Hold x (proj1 (Forall_forall _ _) Hb x Hx)). }
  assert (findPatchForObject s1 [VObject (nextAddr s)] (VObject t) = VObject (nextAddr s))
    as Hlast.
  { unfold findPatchForObject. rewrite Hot1. cbn [find].
    by rewrite Hnew, bool_decide_true. }
  exists (nextAddr s), s1. split_and!; [done | | |].
  - unfold findPatchForObject. rewrite Ho1. cbn [find].
    by rewrite Hnew, bool_decide_true.
  - unfold findAllPatchesInHistory. rewrite Ho1, Ho, concat_app, filter_app.
    f_equal.
    + apply filter_ext_in. intros x Hx.
      apply list_elem_of_In, in_concat in Hx as (b & Hb & Hx).
      apply list_elem_of_In in Hb. apply list_elem_of_In in Hx.
      rewrite (Hold x); [done|].
      apply (proj1 (Forall_forall _ _) (proj1 (Forall_forall _ _) Hlive b Hb) x Hx).
    + cbn [concat app]. rewrite filter_cons, decide_True by done. done.
  - rewrite !getObjectTimeline_from, Ho1, Ho, timeline_from_app. f_equal.
    + apply timeline_from_ext. intros b Hb. apply Hfind.
      * by apply (proj1 (Forall_forall _ _) Hlive).
      * by rewrite Hot1, Hot.
    + rewrite timeline_from_cons, Hlast. done.
Qed.

Lemma commitDelta_extends_history_witness :
  wf example_committed_state ∧
  Forall (Forall (live example_committed_state)) [[VObject 2]] ∧
  ∃ patch s1,
    DimmerMap.commitDelta 1 example_committed_state = Ok patch s1 ∧
    findPatchForObject s1 [VObject patch] (VObject 1) = VObject patch ∧
    findAllPatchesInHistory s1 ([[VObject 2]] ++ [[VObject patch]]) (VObject 1)
    = findAllPatchesInHistory example_committed_state [[VObject 2]] (VObject 1)
      ++ [VObject patch] ∧
    getObjectTimeline s1 ([[VObject 2]] ++ [[VObject patch]]) (VObject 1)
    = getObjectTimeline example_committed_state [[VObject 2]] (VObject 1)
      ++ [(length [[VObject 2]], VObject patch)].
Proof.
  assert (wf example_committed_state) as Hwf
    by (apply (bool_decide_unpack (wf _)); by vm_compute).
  assert (Forall (Forall (live example_committed_state)) [[VObject 2]]) as Hlive
    by (repeat constructor; vm_compute; lia).
  split_and!; [exact Hwf | exact Hlive |].
  exact (commitDelta_extends_history example_committed_state 1 0 []
           [(VString "k", VString "v1")] [[VObject 2]] Hwf eq_refl Hlive).
Defined.
